(** * NEXUS core: a shallow embedding of the dispatch and mesh components

    The TypeScript classes of the repository are embedded as records and
    functions with explicit state passing.  Conventions:

    - a JavaScript [number] that carries a fraction (scores, watermarks,
      buffer sizes) is an exact rational [Q]; integer counters are [nat],
      epoch milliseconds and hop distances are [Z];
    - the reputation tracker clamps and stores a number that its caller
      chooses, so its scores are of type [number]: NaN, an infinity or a
      finite value.  Finite values are exact: rounding to binary64 is
      not modelled, and what is stated of scores is decided by order and
      bounds, not by the last bit of a sum;
    - a [Map<string, V>] whose iteration order is not observed is a
      [gmap string V]; the agent registry, whose order is observed by
      the router, is a list in insertion order;
    - [Date.now()] / [new Date()] is an explicit [now] argument;
    - a method that mutates [this] returns the new object, paired with
      its return value when it has one;
    - logger calls have no effect on the modelled state and are left out.

    Part I holds the definitions, Part II the lemmas and theorems. *)

From Stdlib Require Import QArith Qminmax Qround ZArith List Bool Lia Lqa.
From stdpp Require Import gmap strings list fin_maps pretty.

(** * Part I: definitions *)

(** ** JavaScript values and numbers *)

Definition Qltb (x y : Q) : bool := negb (Qle_bool y x).
Definition Qgtb (x y : Q) : bool := Qltb y x.

(** A [number] as a caller can pass it: NaN, an infinity, or a finite
    value, which is kept exact.  Used where the code takes a number from
    outside and stores what it computes from it. *)
Inductive number :=
| NaN
| NegInfinity
| Finite (q : Q)
| PosInfinity.

(** [x + y]. *)
Definition num_add (x y : number) : number :=
  match x, y with
  | NaN, _ | _, NaN => NaN
  | PosInfinity, NegInfinity | NegInfinity, PosInfinity => NaN
  | PosInfinity, _ | _, PosInfinity => PosInfinity
  | NegInfinity, _ | _, NegInfinity => NegInfinity
  | Finite a, Finite b => Finite (a + b)
  end.

(** [x - y]. *)
Definition num_sub (x y : number) : number :=
  match x, y with
  | NaN, _ | _, NaN => NaN
  | PosInfinity, PosInfinity | NegInfinity, NegInfinity => NaN
  | PosInfinity, _ | _, NegInfinity => PosInfinity
  | NegInfinity, _ | _, PosInfinity => NegInfinity
  | Finite a, Finite b => Finite (a - b)
  end.

(** [x < y]: false as soon as one side is NaN. *)
Definition num_ltb (x y : number) : bool :=
  match x, y with
  | NaN, _ | _, NaN => false
  | _, NegInfinity => false
  | NegInfinity, _ => true
  | PosInfinity, _ => false
  | _, PosInfinity => true
  | Finite a, Finite b => Qltb a b
  end.

(** [Math.min(x, y)] and [Math.max(x, y)]: NaN as soon as one argument
    is NaN, otherwise the smaller, or the larger, of the two. *)
Definition Math_min (x y : number) : number :=
  match x, y with
  | NaN, _ | _, NaN => NaN
  | _, _ => if num_ltb y x then y else x
  end.

Definition Math_max (x y : number) : number :=
  match x, y with
  | NaN, _ | _, NaN => NaN
  | _, _ => if num_ltb x y then y else x
  end.

(** [a || b] on numbers: [0] is falsy, so the default is taken for an
    absent field and for a zero one. *)
Definition num_or (a : option Q) (b : Q) : Q :=
  match a with
  | Some x => if Qeq_bool x 0 then b else x
  | None => b
  end.

(** The values of type [unknown] that the modelled code stores or tests. *)
Inductive JSValue :=
| VUndefined
| VNull
| VBool (b : bool)
| VNum (q : Q)
| VStr (s : string).

(** Truthiness, as tested by [if (x)]. *)
Definition truthy (v : JSValue) : bool :=
  match v with
  | VUndefined | VNull => false
  | VBool b => b
  | VNum q => negb (Qeq_bool q 0)
  | VStr s => negb (String.eqb s EmptyString)
  end.

(** [s === v] for a string [s] and an arbitrary value [v]. *)
Definition str_strict_eq (s : string) (v : JSValue) : bool :=
  match v with
  | VStr s' => String.eqb s s'
  | _ => false
  end.

(** [Map.prototype.get]: [undefined] for an absent key. *)
Definition js_get (m : gmap string JSValue) (k : string) : JSValue :=
  default VUndefined (m !! k).

(** ** FlowController (neural-mesh/src/flow-control/FlowController.ts) *)

Module FlowController.

Local Open Scope Q_scope.

Record FlowControlConfig := {
  maxBufferSize : Q;   (* bytes *)
  highWaterMark : Q;   (* percentage (0-100) *)
  lowWaterMark : Q     (* percentage (0-100) *)
}.

Record PartialConfig := {
  p_maxBufferSize : option Q;
  p_highWaterMark : option Q;
  p_lowWaterMark : option Q
}.

Record t := {
  bufferSize : Q;
  paused : bool;
  config : FlowControlConfig
}.

Definition new (c : PartialConfig) : t :=
  {| bufferSize := 0;
     paused := false;
     config := {| maxBufferSize := num_or (p_maxBufferSize c) (10 * 1024 * 1024);
                  highWaterMark := num_or (p_highWaterMark c) 80;
                  lowWaterMark := num_or (p_lowWaterMark c) 20 |} |}.

(** [maxBufferSize * highWaterMark / 100] and its low counterpart. *)
Definition highThreshold (fc : t) : Q :=
  (maxBufferSize (config fc) * highWaterMark (config fc)) / 100.

Definition lowThreshold (fc : t) : Q :=
  (maxBufferSize (config fc) * lowWaterMark (config fc)) / 100.

Definition write (dataSize : Q) (fc : t) : bool * t :=
  let b := bufferSize fc + dataSize in
  let fc1 := {| bufferSize := b; paused := paused fc; config := config fc |} in
  if negb (paused fc1) && Qgtb (bufferSize fc1) (highThreshold fc1) then
    (false, {| bufferSize := b; paused := true; config := config fc |})
  else
    (true, fc1).

Definition drain (dataSize : Q) (fc : t) : bool * t :=
  let b := Qmax 0 (bufferSize fc - dataSize) in
  let fc1 := {| bufferSize := b; paused := paused fc; config := config fc |} in
  if paused fc1 && Qltb (bufferSize fc1) (lowThreshold fc1) then
    (true, {| bufferSize := b; paused := false; config := config fc |})
  else
    (paused fc1, fc1).

Definition isPaused (fc : t) : bool := paused fc.

Definition getUtilization (fc : t) : Q :=
  (bufferSize fc / maxBufferSize (config fc)) * 100.

Definition reset (fc : t) : t :=
  {| bufferSize := 0; paused := false; config := config fc |}.

(** A call of the mutating interface, and the run of a sequence of calls
    that collects, for each call, the returned boolean and the controller
    it left behind. *)
Inductive call := Write (size : Q) | Drain (size : Q).

Definition step (c : call) (fc : t) : bool * t :=
  match c with
  | Write n => write n fc
  | Drain n => drain n fc
  end.

Fixpoint trace (cs : list call) (fc : t) : list (call * t * bool * t) :=
  match cs with
  | [] => []
  | c :: cs' =>
      let r := step c fc in
      (c, fc, fst r, snd r) :: trace cs' (snd r)
  end.

(** "Signals resume": the call cleared the paused flag. *)
Definition resumes (before after : t) : Prop :=
  paused before = true /\ paused after = false.

(** What one call of a run does, by the kind of call. *)
Definition call_ok (c : call) (before : t) (r : bool) (after : t) : Prop :=
  match c with
  | Write size =>
      bufferSize after = bufferSize before + size
      /\ (r = false <->
          paused before = false /\ highThreshold before < bufferSize after)
  | Drain size =>
      bufferSize after = Qmax 0 (bufferSize before - size)
      /\ (resumes before after <->
          paused before = true /\ bufferSize after < lowThreshold before)
      /\ (resumes before after -> r = true)
      /\ (lowThreshold before <= bufferSize after -> paused after = paused before)
  end.

(** The controller of the examples: capacity 100 bytes, default marks. *)
Definition small : t :=
  new {| p_maxBufferSize := Some 100; p_highWaterMark := None; p_lowWaterMark := None |}.

(** The controller a sequence of calls leaves behind. *)
Definition after (cs : list call) (fc : t) : t :=
  fold_left (fun fc c => snd (step c fc)) cs fc.

(** Calls whose size argument is not negative. *)
Definition size_ok (c : call) : bool :=
  match c with
  | Write n => Qle_bool 0 n
  | Drain n => Qle_bool 0 n
  end.

Definition drain_size_ok (c : call) : bool :=
  match c with
  | Write _ => true
  | Drain n => Qle_bool 0 n
  end.

End FlowController.

(** ** RoutingTable (neural-mesh/src/routing/RoutingTable.ts) *)

Module RoutingTable.

Local Open Scope Z_scope.

Record RouteEntry := {
  destination : string;
  nextHop : string;
  distance : Z;
  timestamp : Z
}.

Record t := {
  routes : gmap string RouteEntry;
  nodeId : string;
  ttl : Z
}.

(** [if (ttl)]: an absent or zero [ttl] keeps the 5 minute default. *)
Definition new (nodeId : string) (ttl : option Z) : t :=
  {| routes := ∅;
     nodeId := nodeId;
     ttl := match ttl with
            | Some x => if x =? 0 then 300000 else x
            | None => 300000
            end |}.

Definition set_routes (rt : t) (m : gmap string RouteEntry) : t :=
  {| routes := m; nodeId := nodeId rt; ttl := ttl rt |}.

(** [distance] is the optional third argument, [1] when left out. *)
Definition addRoute (now : Z) (destination nextHop : string)
    (distance_arg : option Z) (rt : t) : t :=
  let dist := default 1 distance_arg in
  if String.eqb destination (nodeId rt) then rt (* skip self-routes *)
  else
    match routes rt !! destination with
    | Some existing =>
        if distance existing <=? dist then rt (* keep shorter routes *)
        else set_routes rt
               (<[destination :=
                    {| destination := destination; nextHop := nextHop;
                       distance := dist; timestamp := now |}]> (routes rt))
    | None =>
        set_routes rt
          (<[destination :=
               {| destination := destination; nextHop := nextHop;
                  distance := dist; timestamp := now |}]> (routes rt))
    end.

Definition isExpired (now : Z) (rt : t) (route : RouteEntry) : bool :=
  now - timestamp route >? ttl rt.

Definition getRoute (now : Z) (destination : string) (rt : t)
    : option RouteEntry * t :=
  match routes rt !! destination with
  | Some route =>
      if isExpired now rt route
      then (None, set_routes rt (delete destination (routes rt)))
      else (Some route, rt)
  | None => (None, rt)
  end.

Definition getNextHop (now : Z) (destination : string) (rt : t)
    : option string * t :=
  let '(route, rt') := getRoute now destination rt in
  (nextHop <$> route, rt').

Definition removeRoute (destination : string) (rt : t) : t :=
  set_routes rt (delete destination (routes rt)).

Definition cleanup (now : Z) (rt : t) : t :=
  set_routes rt (filter (fun kv => isExpired now rt (snd kv) = false) (routes rt)).

Definition clear (rt : t) : t := set_routes rt ∅.

(** The table of node [n1] holding one route, to [b] at distance 3. *)
Definition table1 : t := addRoute 0 "b" "c" (Some 3) (new "n1" None).

(** The calls of the table's interface, and the table they leave. *)
Inductive action :=
| AddRoute (now : Z) (destination nextHop : string) (distance_arg : option Z)
| GetRoute (now : Z) (destination : string)
| GetNextHop (now : Z) (destination : string)
| RemoveRoute (destination : string)
| Cleanup (now : Z)
| Clear.

Definition perform (a : action) (rt : t) : t :=
  match a with
  | AddRoute now d nh darg => addRoute now d nh darg rt
  | GetRoute now d => snd (getRoute now d rt)
  | GetNextHop now d => snd (getNextHop now d rt)
  | RemoveRoute d => removeRoute d rt
  | Cleanup now => cleanup now rt
  | Clear => clear rt
  end.

Definition perform_all (acts : list action) (rt : t) : t :=
  fold_left (fun rt a => perform a rt) acts rt.

(** Every entry is stored under its own destination, which is not the
    local node. *)
Definition well_keyed (rt : t) : Prop :=
  forall d e, routes rt !! d = Some e -> destination e = d /\ d <> nodeId rt.

Definition is_add (a : action) : bool :=
  match a with AddRoute _ _ _ _ => true | _ => false end.

End RoutingTable.

(** ** StateStore (neural-mesh/src/synchronization/StateStore.ts) *)

Module StateStore.

Record StateChange := {
  key : string;
  oldValue : JSValue;
  newValue : JSValue;
  timestamp : Z;
  source : string
}.

(** A listener is a callback of the embedding application; it is
    identified by a number, and what it was called with is recorded in
    [delivered], most recent call first. *)
Record t := {
  state : gmap string JSValue;
  listeners : list nat;
  version : gmap string nat;   (* for conflict resolution *)
  nodeId : string;
  delivered : list (nat * StateChange)
}.

Definition new (nodeId : string) : t :=
  {| state := ∅; listeners := []; version := ∅; nodeId := nodeId; delivered := [] |}.

(** [this.version.get(key) || 0] *)
Definition version_or_0 (s : t) (k : string) : nat := default 0 (version s !! k).

Definition notifyListeners (change : StateChange) (s : t) : t :=
  {| state := state s; listeners := listeners s; version := version s;
     nodeId := nodeId s;
     delivered := rev (map (fun l => (l, change)) (listeners s)) ++ delivered s |}.

Definition setState (now : Z) (k : string) (value : JSValue) (s : t) : t :=
  let old := js_get (state s) k in
  let currentVersion := version_or_0 s k in
  let s1 :=
    {| state := <[k := value]> (state s);
       listeners := listeners s;
       version := <[k := (currentVersion + 1)%nat]> (version s);
       nodeId := nodeId s;
       delivered := delivered s |} in
  notifyListeners
    {| key := k; oldValue := old; newValue := value;
       timestamp := now; source := nodeId s |} s1.

Definition getState (k : string) (s : t) : JSValue := js_get (state s) k.

Definition getStateWithVersion (k : string) (s : t) : option (JSValue * nat) :=
  match js_get (state s) k with
  | VUndefined => None
  | value => Some (value, version_or_0 s k)
  end.

Definition deleteState (now : Z) (k : string) (s : t) : t :=
  match js_get (state s) k with
  | VUndefined => s
  | old =>
      let s1 :=
        {| state := delete k (state s);
           listeners := listeners s;
           version := delete k (version s);
           nodeId := nodeId s;
           delivered := delivered s |} in
      notifyListeners
        {| key := k; oldValue := old; newValue := VUndefined;
           timestamp := now; source := nodeId s |} s1
  end.

(** Simple last-write-wins strategy: accept if recent.  (The two version
    numbers the method computes first are not used by it.) *)
Definition applyRemoteChange (now : Z) (change : StateChange) (s : t) : bool * t :=
  if (timestamp change >? now - 60000)%Z
  then (true, setState now (key change) (newValue change) s)
  else (false, s).

(** [listeners] is a [Set]: adding a member twice keeps one. *)
Definition onChange (listener : nat) (s : t) : t :=
  {| state := state s;
     listeners := if bool_decide (listener ∈ listeners s) then listeners s
                  else listeners s ++ [listener];
     version := version s; nodeId := nodeId s; delivered := delivered s |}.

Definition unsubscribe (listener : nat) (s : t) : t :=
  {| state := state s;
     listeners := filter (fun l => l ≠ listener) (listeners s);
     version := version s; nodeId := nodeId s; delivered := delivered s |}.

Definition getSize (s : t) : nat := size (state s).

Definition clear (s : t) : t :=
  {| state := ∅; listeners := listeners s; version := ∅;
     nodeId := nodeId s; delivered := delivered s |}.

(** The spec's words for the replication policy: a change is fresh when
    its age, measured from [now], is less than the 60 second window. *)
Definition freshness_window : Z := 60000.

Definition within_freshness_window (now : Z) (change : StateChange) : Prop :=
  (now - timestamp change < freshness_window)%Z.

(** Fixtures: a store holding one key, a remote change stamped at the
    current time of the examples (100000) and one stamped 60 s before. *)
Definition store1 : t := setState 0 "key1" (VStr "value1") (new "node-1").

Definition remote1 : StateChange :=
  {| key := "key1"; oldValue := VUndefined; newValue := VStr "remote-value";
     timestamp := 100000; source := "node-2" |}.

Definition stale1 : StateChange :=
  {| key := "key1"; oldValue := VUndefined; newValue := VStr "remote-value";
     timestamp := 40000; source := "node-2" |}.

(** The store of [store1] after a second write of its key. *)
Definition store2 : t := setState 1 "key1" (VStr "value2") store1.

(** The calls of the store's mutating interface. *)
Inductive action :=
| ASet (now : Z) (k : string) (v : JSValue)
| ADelete (now : Z) (k : string)
| ARemote (now : Z) (c : StateChange)
| ASubscribe (listener : nat)
| AUnsubscribe (listener : nat)
| AClear.

Definition perform (a : action) (s : t) : t :=
  match a with
  | ASet now k v => setState now k v s
  | ADelete now k => deleteState now k s
  | ARemote now c => snd (applyRemoteChange now c s)
  | ASubscribe l => onChange l s
  | AUnsubscribe l => unsubscribe l s
  | AClear => clear s
  end.

Definition perform_all (acts : list action) (s : t) : t :=
  fold_left (fun s a => perform a s) acts s.

(** The calls that erase the version counter of [k]: deleteState of [k]
    ([this.version.delete(key)]) and clear ([this.version.clear()]). *)
Definition resets (k : string) (a : action) : bool :=
  match a with
  | ADelete _ k' => String.eqb k k'
  | AClear => true
  | _ => false
  end.

(** A sequence of calls that writes and deletes another key, applies a
    remote change to [key1] and adds and removes a listener, with no
    deleteState of [key1] and no clear. *)
Definition calls1 : list action :=
  [ASet 2 "key2" VNull; ADelete 3 "key2"; ARemote 100000 remote1;
   ASubscribe 7; AUnsubscribe 7].

(** What one listener has been called with, most recent call first. *)
Definition received (listener : nat) (s : t) : list StateChange :=
  map snd (List.filter (fun p => Nat.eqb (fst p) listener) (delivered s)).

Definition subscribes (listener : nat) (a : action) : bool :=
  match a with
  | ASubscribe l => Nat.eqb l listener
  | _ => false
  end.

(** The keys with a value are the keys with a version, the versions are
    positive, and no listener is subscribed twice. *)
Definition consistent (s : t) : Prop :=
  (forall k, state s !! k = None <-> version s !! k = None)
  /\ (forall k n, version s !! k = Some n -> 1 <= n)
  /\ List.NoDup (listeners s).

End StateStore.

(** ** DEFAULTS (shared/src/constants/index.ts) *)

Module DEFAULTS.

Definition MAX_RETRIES : nat := 3.
Definition BACKOFF_MULTIPLIER : Q := 2.
Definition INITIAL_BACKOFF : Z := 1000.
Definition MAX_BACKOFF : Z := 30000.
Definition REPUTATION_THRESHOLD_QUARANTINE : Q := 3 # 10.
Definition REPUTATION_INCREMENT_SUCCESS : Q := 1 # 10.
Definition REPUTATION_DECREMENT_FAILURE : Q := 2 # 10.

End DEFAULTS.

(** ** ReputationTracker (agent-registry/src/reputation/ReputationTracker.ts) *)

Module ReputationTracker.

Local Open Scope Q_scope.

Record ReputationRecord := {
  agentId : string;
  score : number;
  successCount : nat;
  failureCount : nat;
  lastUpdated : Z
}.

(** The tracker is its one field, [reputation]. *)
Abbreviation t := (gmap string ReputationRecord).

(** [initialScore] is optional and defaults to [1.0]. *)
Definition initializeAgent (now : Z) (id : string) (initialScore : option number)
    (r : t) : t :=
  let s0 := default (Finite 1) initialScore in
  match r !! id with
  | Some _ => r
  | None =>
      <[id := {| agentId := id;
                 score := Math_max (Finite 0) (Math_min (Finite 1) s0);
                 successCount := 0;
                 failureCount := 0;
                 lastUpdated := now |}]> r
  end.

(** Returns the record and the tracker, in which the record now exists.
    The final [get(agentId)!] cannot miss; the embedding returns the
    record [initializeAgent] would have stored if it did. *)
Definition getOrCreateRecord (now : Z) (id : string) (r : t)
    : ReputationRecord * t :=
  let r1 := match r !! id with
            | Some _ => r
            | None => initializeAgent now id None r
            end in
  (default {| agentId := id; score := Finite 1; successCount := 0;
              failureCount := 0; lastUpdated := now |} (r1 !! id), r1).

Definition recordSuccess (now : Z) (id : string) (r : t) : t :=
  let '(record, r1) := getOrCreateRecord now id r in
  <[id := {| agentId := agentId record;
             score := Math_min (Finite 1)
                        (num_add (score record)
                                 (Finite DEFAULTS.REPUTATION_INCREMENT_SUCCESS));
             successCount := S (successCount record);
             failureCount := failureCount record;
             lastUpdated := now |}]> r1.

Definition recordFailure (now : Z) (id : string) (r : t) : t :=
  let '(record, r1) := getOrCreateRecord now id r in
  <[id := {| agentId := agentId record;
             score := Math_max (Finite 0)
                        (num_sub (score record)
                                 (Finite DEFAULTS.REPUTATION_DECREMENT_FAILURE));
             successCount := successCount record;
             failureCount := S (failureCount record);
             lastUpdated := now |}]> r1.

Definition getReputation (id : string) (r : t) : option ReputationRecord := r !! id.

Definition getScore (now : Z) (id : string) (r : t) : number * t :=
  let '(record, r1) := getOrCreateRecord now id r in (score record, r1).

Definition shouldQuarantine (now : Z) (id : string) (r : t) : bool * t :=
  let '(s, r1) := getScore now id r in
  (num_ltb s (Finite DEFAULTS.REPUTATION_THRESHOLD_QUARANTINE), r1).

(** The stored score of an agent, and the score an operation starts
    from: the stored one, or that of the record created on first use. *)
Definition stored (id : string) (r : t) : option number := score <$> (r !! id).

Definition current (now : Z) (id : string) (r : t) : ReputationRecord :=
  fst (getOrCreateRecord now id r).

(** A finite number between 0 and 1. *)
Definition in_unit_interval (x : number) : Prop :=
  match x with
  | Finite q => 0 <= q /\ q <= 1
  | _ => False
  end.

Inductive op :=
| Initialize (id : string) (s0 : option number)
| Success (id : string)
| Failure (id : string).

Definition apply_op (now : Z) (o : op) (r : t) : t :=
  match o with
  | Initialize id s0 => initializeAgent now id s0 r
  | Success id => recordSuccess now id r
  | Failure id => recordFailure now id r
  end.

Fixpoint run (os : list (Z * op)) (r : t) : t :=
  match os with
  | [] => r
  | (now, o) :: os' => run os' (apply_op now o r)
  end.

(** Every stored score lies in [0,1]. *)
Definition scores_bounded (r : t) : Prop :=
  forall id rec, r !! id = Some rec -> in_unit_interval (score rec).

(** The calls that hand NaN to initializeAgent. *)
Definition passes_NaN (o : Z * op) : bool :=
  match snd o with
  | Initialize _ (Some NaN) => true
  | _ => false
  end.

(** Fixtures: a tracker holding agent [a1] at score 1/2, and a history. *)
Definition tracker1 : t := initializeAgent 0 "a1" (Some (Finite (1 # 2))) ∅.

Definition history1 : list (Z * op) :=
  [(1%Z, Initialize "a2" (Some (Finite (3 # 2)))); (2%Z, Failure "a2");
   (3%Z, Success "a3"); (4%Z, Initialize "a4" (Some (Finite (- (1 # 2)))));
   (5%Z, Initialize "a5" (Some PosInfinity))].

(** A history for an agent whose record was created with NaN. *)
Definition history2 : list (Z * op) :=
  [(1%Z, Success "agent-1"); (2%Z, Failure "agent-1");
   (3%Z, Initialize "agent-1" (Some (Finite (1 # 2)))); (4%Z, Success "agent-2")].

(** The counters stored for an agent, 0 when it has no record. *)
Definition successes_of (id : string) (r : t) : nat :=
  default 0%nat (successCount <$> (r !! id)).

Definition failures_of (id : string) (r : t) : nat :=
  default 0%nat (failureCount <$> (r !! id)).

(** How often a history records a success, or a failure, of an agent. *)
Definition is_success (id : string) (o : Z * op) : bool :=
  match snd o with Success id' => String.eqb id' id | _ => false end.

Definition is_failure (id : string) (o : Z * op) : bool :=
  match snd o with Failure id' => String.eqb id' id | _ => false end.

Definition recorded_successes (id : string) (os : list (Z * op)) : nat :=
  length (List.filter (is_success id) os).

Definition recorded_failures (id : string) (os : list (Z * op)) : nat :=
  length (List.filter (is_failure id) os).

(** [n] calls of recordFailure for one agent in a row. *)
Definition fail_times (now : Z) (id : string) (n : nat) (r : t) : t :=
  Nat.iter n (recordFailure now id) r.

End ReputationTracker.

(** ** Circuit breaker of ResilientOrchestrator
    (task-orchestrator/src/resilience/ResilientOrchestrator.ts) *)

Module ResilientOrchestrator.

Inductive CircuitBreakerState := closed | open | half_open.

(** A pending [setTimeout] callback: the time it is due at and the agent
    whose breaker it moves to half-open. *)
Record Timer := { due : Z; agent : string }.

Record t := {
  circuitBreaker : gmap string CircuitBreakerState;
  failureCount : gmap string nat;
  failureThreshold : nat;
  resetTimeout : Z;          (* milliseconds *)
  timers : list Timer        (* in the order they were scheduled *)
}.

Definition new : t :=
  {| circuitBreaker := ∅; failureCount := ∅;
     failureThreshold := 5; resetTimeout := 60000; timers := [] |}.

(** The body of the scheduled callback. *)
Definition halfOpen (agentId : string) (s : t) : t :=
  {| circuitBreaker := <[agentId := half_open]> (circuitBreaker s);
     failureCount := <[agentId := 0]> (failureCount s);
     failureThreshold := failureThreshold s;
     resetTimeout := resetTimeout s;
     timers := timers s |}.

Definition recordAgentFailure (now : Z) (agentId : string) (s : t) : t :=
  let count := (default 0 (failureCount s !! agentId) + 1)%nat in
  let fc := <[agentId := count]> (failureCount s) in
  if (failureThreshold s <=? count)%nat then
    {| circuitBreaker := <[agentId := open]> (circuitBreaker s);
       failureCount := fc;
       failureThreshold := failureThreshold s;
       resetTimeout := resetTimeout s;
       (* schedule reset *)
       timers := timers s ++ [ {| due := (now + resetTimeout s)%Z; agent := agentId |} ] |}
  else
    {| circuitBreaker := circuitBreaker s;
       failureCount := fc;
       failureThreshold := failureThreshold s;
       resetTimeout := resetTimeout s;
       timers := timers s |}.

Definition recordAgentSuccess (agentId : string) (s : t) : t :=
  let fc := <[agentId := 0]> (failureCount s) in
  match circuitBreaker s !! agentId with
  | Some half_open =>
      {| circuitBreaker := <[agentId := closed]> (circuitBreaker s);
         failureCount := fc;
         failureThreshold := failureThreshold s;
         resetTimeout := resetTimeout s;
         timers := timers s |}
  | _ =>
      {| circuitBreaker := circuitBreaker s;
         failureCount := fc;
         failureThreshold := failureThreshold s;
         resetTimeout := resetTimeout s;
         timers := timers s |}
  end.

(** [this.circuitBreaker.get(agentId) || 'closed'] *)
Definition breakerState (agentId : string) (s : t) : CircuitBreakerState :=
  default closed (circuitBreaker s !! agentId).

Definition isCircuitOpen (agentId : string) (s : t) : bool :=
  match breakerState agentId s with
  | open => true
  | _ => false
  end.

(** The event loop reaching time [now]: every pending callback that is
    due runs, oldest first; the others stay pending. *)
Fixpoint fire (now : Z) (pending : list Timer) (s : t) : list Timer * t :=
  match pending with
  | [] => ([], s)
  | tm :: rest =>
      if (due tm <=? now)%Z then fire now rest (halfOpen (agent tm) s)
      else let '(keep, s') := fire now rest s in (tm :: keep, s')
  end.

Definition elapse (now : Z) (s : t) : t :=
  let '(keep, s') := fire now (timers s) s in
  {| circuitBreaker := circuitBreaker s';
     failureCount := failureCount s';
     failureThreshold := failureThreshold s';
     resetTimeout := resetTimeout s';
     timers := keep |}.

(** What can happen to the breaker registry. *)
Inductive event :=
| AgentFailure (now : Z) (agentId : string)
| AgentSuccess (agentId : string)
| Elapse (now : Z).

Definition step (e : event) (s : t) : t :=
  match e with
  | AgentFailure now a => recordAgentFailure now a s
  | AgentSuccess a => recordAgentSuccess a s
  | Elapse now => elapse now s
  end.

(** The breaker states of one agent along a run, callbacks included:
    a callback that an [Elapse] runs is a state change of its own. *)
Fixpoint fire_states (id : string) (now : Z) (pending : list Timer) (s : t)
    : list CircuitBreakerState :=
  match pending with
  | [] => []
  | tm :: rest =>
      if (due tm <=? now)%Z
      then breakerState id (halfOpen (agent tm) s)
             :: fire_states id now rest (halfOpen (agent tm) s)
      else fire_states id now rest s
  end.

Definition step_states (id : string) (e : event) (s : t) : list CircuitBreakerState :=
  match e with
  | Elapse now => fire_states id now (timers s) s
  | _ => [breakerState id (step e s)]
  end.

Fixpoint states (id : string) (es : list event) (s : t) : list CircuitBreakerState :=
  match es with
  | [] => []
  | e :: es' => step_states id e s ++ states id es' (step e s)
  end.

Fixpoint run (es : list event) (s : t) : t :=
  match es with
  | [] => s
  | e :: es' => run es' (step e s)
  end.

(** [this.failureCount.get(agentId) || 0] *)
Definition count (agentId : string) (s : t) : nat :=
  default 0 (failureCount s !! agentId).

(** Five consecutive failures of one agent, at the given times. *)
Definition five_failures (id : string) (t1 t2 t3 t4 t5 : Z) : list event :=
  [AgentFailure t1 id; AgentFailure t2 id; AgentFailure t3 id;
   AgentFailure t4 id; AgentFailure t5 id].

End ResilientOrchestrator.

(** ** Shared types (shared/src/types/index.ts, shared/src/errors/NexusError.ts) *)

Inductive AgentType := llm | tool | service | human.

Definition AgentType_str (ty : AgentType) : string :=
  match ty with
  | llm => "llm" | tool => "tool" | service => "service" | human => "human"
  end.

Inductive AgentStatus := online | offline | degraded | quarantined.

Record AgentCapability := {
  cap_name : string;
  cap_version : string;
  cap_description : string
}.

Record AgentMetadata := {
  agent_id : string;
  agent_name : string;
  agent_type : AgentType;
  capabilities : list AgentCapability;
  reputationScore : Q;
  lastHeartbeat : Z;
  status : AgentStatus
}.

Inductive TaskStatus := pending | queued | in_progress | completed | failed | retrying.

Record Task := {
  task_id : string;
  parentId : option string;
  task_name : string;
  description : string;
  objective : string;
  task_status : TaskStatus;
  priority : Q;
  assignedAgentId : option string;
  dependencies : list string;
  createdAt : Z;
  startedAt : option Z;
  completedAt : option Z;
  metadata : gmap string JSValue;
  result : option JSValue;
  error : option string
}.

Record JobMetrics := {
  totalTasks : nat;
  completedTasks : nat;
  failedTasks : nat;
  averageTaskDuration : Q
}.

(** [tasks] holds references to the task objects of the orchestrator's
    task map: the ids under which they are stored there. *)
Record Job := {
  job_id : string;
  userId : string;
  title : string;
  job_objective : string;
  job_status : TaskStatus;
  job_tasks : list string;
  job_createdAt : Z;
  metrics : JobMetrics
}.

Inductive ErrorCode :=
| INVALID_TASK
| AGENT_NOT_FOUND
| TASK_ASSIGNMENT_FAILED
| COMMUNICATION_ERROR
| AUTHENTICATION_ERROR
| AUTHORIZATION_ERROR
| RESOURCE_EXHAUSTED
| UNKNOWN_ERROR.

Record NexusError := {
  code : ErrorCode;
  message : string;
  details : option (gmap string JSValue);
  err_timestamp : Z
}.

(** [new NexusError(code, message)] *)
Definition mkNexusError (now : Z) (c : ErrorCode) (msg : string) : NexusError :=
  {| code := c; message := msg; details := None; err_timestamp := now |}.

(** The outcome of a call that may throw. *)
Inductive outcome (A : Type) :=
| Returned (a : A)
| Thrown (e : NexusError).

Arguments Returned {A} a.
Arguments Thrown {A} e.

(** ** AgentRegistry (agent-registry/src/registry/AgentRegistry.ts) *)

Module AgentRegistry.

(** The [agents] map in insertion order.  An entry is stored under the
    [id] of the agent it holds. *)
Definition t := list AgentMetadata.

Definition new : t := [].

Definition has (agentId : string) (r : t) : bool :=
  existsb (fun a => String.eqb (agent_id a) agentId) r.

(** [Map.prototype.set]: a present key keeps its position. *)
Definition register (agent : AgentMetadata) (r : t) : t :=
  if has (agent_id agent) r
  then map (fun a => if String.eqb (agent_id a) (agent_id agent) then agent else a) r
  else r ++ [agent].

Definition unregister (agentId : string) (r : t) : t :=
  filter (fun a => agent_id a ≠ agentId) r.

Definition get (agentId : string) (r : t) : option AgentMetadata :=
  find (fun a => String.eqb (agent_id a) agentId) r.

Definition getAgent (now : Z) (agentId : string) (r : t) : outcome AgentMetadata :=
  match get agentId r with
  | Some agent => Returned agent
  | None => Thrown (mkNexusError now AGENT_NOT_FOUND ("Agent not found: " +:+ agentId))
  end.

Definition getAllAgents (r : t) : list AgentMetadata := r.

Definition getAgentCount (r : t) : nat := length r.

(** The registry after a sequence of registrations, first one first. *)
Definition registered (agents : list AgentMetadata) : t :=
  fold_left (fun r a => register a r) agents new.

Definition getAgentsByType (type : string) (r : t) : list AgentMetadata :=
  List.filter (fun a => String.eqb (AgentType_str (agent_type a)) type) r.

Definition getAgentsByCapability (capabilityName : string) (r : t) : list AgentMetadata :=
  List.filter (fun a => existsb (fun c => String.eqb (cap_name c) capabilityName)
                          (capabilities a)) r.

End AgentRegistry.

(** ** TaskRouter (task-orchestrator/src/routing/TaskRouter.ts) *)

Module TaskRouter.

Local Open Scope Q_scope.

Record RoutingDecision := {
  taskId : string;
  agentId : string;
  confidence : Q;
  reason : string
}.

(** [Array.prototype.sort(compare)]: a stable sort; [x] is placed before
    [y] when [compare x y <= 0] for an [x] that came first. *)
Fixpoint sort_insert {A} (compare : A -> A -> Q) (x : A) (l : list A) : list A :=
  match l with
  | [] => [x]
  | y :: l' =>
      if Qle_bool (compare x y) 0 then x :: y :: l'
      else y :: sort_insert compare x l'
  end.

Definition sort {A} (compare : A -> A -> Q) (l : list A) : list A :=
  fold_right (sort_insert compare) [] l.

(** [x.toFixed(3)] of an exact rational. *)
Definition pad3 (n : Z) : string :=
  let d := pretty n in
  if (n <? 10)%Z then "00" +:+ d else if (n <? 100)%Z then "0" +:+ d else d.

Definition toFixed3 (x : Q) : string :=
  let neg := Qltb x 0 in
  let a := if neg then - x else x in
  let n := Qfloor (a * 1000 + (1 # 2)) in
  (if neg then "-" else EmptyString)
    +:+ pretty (n / 1000)%Z +:+ "." +:+ pad3 (n mod 1000)%Z.

Definition requiredType (task : Task) : JSValue := js_get (metadata task) "requiredType".
Definition requiredCapability (task : Task) : JSValue :=
  js_get (metadata task) "requiredCapability".

Definition hasCapability (a : AgentMetadata) (task : Task) : bool :=
  existsb (fun c => str_strict_eq (cap_name c) (requiredCapability task)) (capabilities a).

Definition is_online (a : AgentMetadata) : bool :=
  match status a with online => true | _ => false end.

Definition findCandidateAgents (task : Task) (registry : AgentRegistry.t)
    : list AgentMetadata :=
  let allAgents := AgentRegistry.getAllAgents registry in
  (* filter for online agents *)
  let candidates :=
    List.filter (fun a => is_online a && Qgtb (reputationScore a) (3 # 10)) allAgents in
  match candidates with
  | [] => []
  | _ =>
      let candidates :=
        if truthy (requiredType task)
        then List.filter
               (fun a => str_strict_eq (AgentType_str (agent_type a)) (requiredType task))
               candidates
        else candidates in
      let candidates :=
        if truthy (requiredCapability task)
        then List.filter (fun a => hasCapability a task) candidates
        else candidates in
      candidates
  end.

(** Score agent for task (0-1). *)
Definition scoreAgent (now : Z) (agent : AgentMetadata) (task : Task) : Q :=
  let score := 5 # 10 in                          (* baseline *)
  (* reputation score (weight: 40%) *)
  let score := score + reputationScore agent * (4 # 10) in
  (* capability match (weight: 30%); [None] is the early [return 0] *)
  let matched :=
    if truthy (requiredCapability task)
    then if hasCapability agent task then Some (score + (3 # 10)) else None
    else Some (score + (3 # 10)) in
  match matched with
  | None => 0                                     (* disqualify *)
  | Some score =>
      (* status bonus (weight: 20%) *)
      let score := if is_online agent then score + (2 # 10) else score in
      (* availability bonus (weight: 10%) *)
      let lastHeartbeatAge := (now - lastHeartbeat agent)%Z in
      let score := if (lastHeartbeatAge <? 60000)%Z then score + (1 # 10) else score in
      Qmin 1 score
  end.

Definition findBestAgent (now : Z) (task : Task) (registry : AgentRegistry.t)
    : option RoutingDecision :=
  let candidates := findCandidateAgents task registry in
  match candidates with
  | [] => None
  | _ =>
      let scoredCandidates := map (fun agent => (agent, scoreAgent now agent task)) candidates in
      (* sort by score descending *)
      match sort (fun a b => snd b - snd a) scoredCandidates with
      | [] => None
      | best :: _ =>
          Some {| taskId := task_id task;
                  agentId := agent_id (fst best);
                  confidence := snd best;
                  reason := "Score: " +:+ toFixed3 (snd best) |}
      end
  end.

Definition findAlternativeAgent (task : Task) (excludeAgentId : string)
    (registry : AgentRegistry.t) : option RoutingDecision :=
  match List.filter (fun a => negb (String.eqb (agent_id a) excludeAgentId))
          (findCandidateAgents task registry) with
  | [] => None
  | first :: _ =>
      Some {| taskId := task_id task; agentId := agent_id first;
              confidence := 5 # 10; reason := "Fallback agent" |}
  end.

(** The filters of [findCandidateAgents] as one predicate on an agent. *)
Definition eligible (task : Task) (a : AgentMetadata) : bool :=
  is_online a && Qgtb (reputationScore a) (3 # 10)
  && (if truthy (requiredType task)
      then str_strict_eq (AgentType_str (agent_type a)) (requiredType task) else true)
  && (if truthy (requiredCapability task) then hasCapability a task else true).

(** A task whose metadata names no required type and no capability. *)
Definition no_requirement (task : Task) : Prop :=
  truthy (requiredType task) = false /\ truthy (requiredCapability task) = false.

(** Fixtures, after the repository's router tests: agents without
    capabilities that sent a heartbeat at time 1000, and a task with
    empty metadata. *)
Definition test_agent (id : string) (rep : Q) (st : AgentStatus) : AgentMetadata :=
  {| agent_id := id; agent_name := id; agent_type := llm; capabilities := [];
     reputationScore := rep; lastHeartbeat := 1000; status := st |}.

Definition test_task (meta : gmap string JSValue) : Task :=
  {| task_id := "task-1"; parentId := None; task_name := "Test Task";
     description := "Test"; objective := "Process text"; task_status := pending;
     priority := 1; assignedAgentId := None; dependencies := []; createdAt := 1000;
     startedAt := None; completedAt := None; metadata := meta;
     result := None; error := None |}.

Definition agent1 : AgentMetadata := test_agent "agent-1" (5 # 10) online.
Definition agent2 : AgentMetadata := test_agent "agent-2" (9 # 10) online.
Definition agent3 : AgentMetadata := test_agent "agent-3" (9 # 10) offline.

End TaskRouter.

(** ** TaskOrchestrator (task-orchestrator/src/orchestrator/TaskOrchestrator.ts) *)

Module TaskOrchestrator.

Record t := {
  tasks : gmap string Task;
  jobs : gmap string Job;
  agentRegistry : AgentRegistry.t
}.

Definition new (registry : AgentRegistry.t) : t :=
  {| tasks := ∅; jobs := ∅; agentRegistry := registry |}.

(** A method body: it runs on the orchestrator, returns or throws, and
    leaves an orchestrator behind. *)
Definition M (A : Type) : Type := t -> outcome A * t.

Definition ret {A} (a : A) : M A := fun o => (Returned a, o).

Definition throw {A} (e : NexusError) : M A := fun o => (Thrown e, o).

Definition bind {A B} (m : M A) (f : A -> M B) : M B :=
  fun o =>
    match m o with
    | (Returned a, o') => f a o'
    | (Thrown e, o') => (Thrown e, o')
    end.

Definition gets {A} (f : t -> A) : M A := fun o => (Returned (f o), o).

Definition modify (f : t -> t) : M unit := fun o => (Returned tt, f o).

Notation "'let*' x ':=' m 'in' k" := (bind m (fun x => k))
  (at level 10, x name, m at level 100, k at level 200, only parsing).

Definition getTask (now : Z) (taskId : string) : M Task :=
  let* task := gets (fun o => tasks o !! taskId) in
  match task with
  | None => throw (mkNexusError now INVALID_TASK ("Task not found: " +:+ taskId))
  | Some task => ret task
  end.

Definition getJob (now : Z) (jobId : string) : M Job :=
  let* job := gets (fun o => jobs o !! jobId) in
  match job with
  | None => throw (mkNexusError now INVALID_TASK ("Job not found: " +:+ jobId))
  | Some job => ret job
  end.

Definition getJobTasks (now : Z) (jobId : string) : M (list string) :=
  let* job := getJob now jobId in
  ret (job_tasks job).

Definition set_task (task : Task) (o : t) : t :=
  {| tasks := <[task_id task := task]> (tasks o); jobs := jobs o;
     agentRegistry := agentRegistry o |}.

Definition assignTask (now : Z) (taskId agentId : string) : M unit :=
  let* task := getTask now taskId in
  let* agent := (fun o => (AgentRegistry.getAgent now agentId (agentRegistry o), o)) in
  modify (set_task
    {| task_id := task_id task; parentId := parentId task;
       task_name := task_name task; description := description task;
       objective := objective task;
       task_status := queued;
       priority := priority task;
       assignedAgentId := Some agentId;
       dependencies := dependencies task; createdAt := createdAt task;
       startedAt := startedAt task; completedAt := completedAt task;
       metadata := metadata task; result := result task; error := error task |}).

(** The error kinds a caller can branch on are the values of [code]. *)
Definition raises {A} (r : outcome A) (c : ErrorCode) : Prop :=
  exists e, r = Thrown e /\ code e = c.

(** [generateId]: the prefix, the time and nine base-36 digits of
    [Math.random()], which are an argument here. *)
Definition generateId (prefix : string) (now : Z) (random : string) : string :=
  prefix +:+ "_" +:+ pretty now +:+ "_" +:+ random.

Definition put_task (key : string) (task : Task) (o : t) : t :=
  {| tasks := <[key := task]> (tasks o); jobs := jobs o;
     agentRegistry := agentRegistry o |}.

Definition put_job (key : string) (job : Job) (o : t) : t :=
  {| tasks := tasks o; jobs := <[key := job]> (jobs o);
     agentRegistry := agentRegistry o |}.

Definition createJob (now : Z) (random : string) (userId title objective : string)
    : M Job :=
  let jobId := generateId "job" now random in
  let job := {| job_id := jobId; userId := userId; title := title;
                job_objective := objective; job_status := pending;
                job_tasks := []; job_createdAt := now;
                metrics := {| totalTasks := 0; completedTasks := 0;
                              failedTasks := 0; averageTaskDuration := 0 |} |} in
  let* _ := modify (put_job jobId job) in
  ret job.

(** The fields of a [Partial<Task>] that decomposeTasks reads. *)
Record TaskDefinition := {
  def_name : option string;
  def_description : option string;
  def_objective : option string;
  def_priority : option Q;
  def_dependencies : option (list string);
  def_metadata : option (gmap string JSValue)
}.

(** [a || b] on strings: the empty string is falsy. *)
Definition str_or (a : option string) (b : string) : string :=
  match a with
  | Some s => if String.eqb s EmptyString then b else s
  | None => b
  end.

(** The task one definition gives; [stamp] is the time and the random
    digits of its [generateId] call. *)
Definition make_task (jobId : string) (def : TaskDefinition) (stamp : Z * string)
    : Task :=
  {| task_id := generateId "task" (fst stamp) (snd stamp);
     parentId := Some jobId;
     task_name := str_or (def_name def) "Unnamed Task";
     description := str_or (def_description def) EmptyString;
     objective := str_or (def_objective def) EmptyString;
     task_status := pending;
     priority := num_or (def_priority def) 0;
     assignedAgentId := None;
     dependencies := default [] (def_dependencies def);
     createdAt := fst stamp;
     startedAt := None; completedAt := None;
     metadata := default ∅ (def_metadata def);
     result := None; error := None |}.

Definition with_metrics (m : JobMetrics) (job : Job) : Job :=
  {| job_id := job_id job; userId := userId job; title := title job;
     job_objective := job_objective job; job_status := job_status job;
     job_tasks := job_tasks job; job_createdAt := job_createdAt job; metrics := m |}.

Definition push_task (taskId : string) (job : Job) : Job :=
  {| job_id := job_id job; userId := userId job; title := title job;
     job_objective := job_objective job; job_status := job_status job;
     job_tasks := job_tasks job ++ [taskId]; job_createdAt := job_createdAt job;
     metrics := metrics job |}.

(** Each definition comes with the stamp of its id.  The job object is
    the one stored under [jobId]; it is written back there. *)
Definition decomposeTasks (now : Z) (jobId : string)
    (taskDefinitions : list (TaskDefinition * (Z * string))) : M (list Task) :=
  let* job := getJob now jobId in
  let created := map (fun ds => make_task jobId (fst ds) (snd ds)) taskDefinitions in
  let* _ := modify (fun o =>
              fold_left (fun o task => put_task (task_id task) task o) created o) in
  let job1 := fold_left (fun job task => push_task (task_id task) job) created job in
  let job2 := with_metrics
                {| totalTasks := length (job_tasks job1);
                   completedTasks := completedTasks (metrics job1);
                   failedTasks := failedTasks (metrics job1);
                   averageTaskDuration := averageTaskDuration (metrics job1) |} job1 in
  let* _ := modify (put_job jobId job2) in
  ret created.

Definition is_completed (task : Task) : bool :=
  match task_status task with completed => true | _ => false end.

Definition is_failed (task : Task) : bool :=
  match task_status task with failed => true | _ => false end.

(** The task objects a job refers to. *)
Definition job_task_objects (o : t) (job : Job) : list Task :=
  omap (fun id => tasks o !! id) (job_tasks job).

Definition duration (task : Task) : Z :=
  match startedAt task, completedAt task with
  | Some s, Some c => (c - s)%Z
  | _, _ => 0%Z
  end.

Definition updateJobMetrics (o : t) (job : Job) : Job :=
  let objs := job_task_objects o job in
  let completedWithDuration :=
    List.filter (fun t => is_completed t
                          && bool_decide (is_Some (startedAt t))
                          && bool_decide (is_Some (completedAt t))) objs in
  with_metrics
    {| totalTasks := totalTasks (metrics job);
       completedTasks := length (List.filter is_completed objs);
       failedTasks := length (List.filter is_failed objs);
       averageTaskDuration :=
         match completedWithDuration with
         | [] => averageTaskDuration (metrics job)
         | _ =>
             (inject_Z (fold_left (fun sum t => (sum + duration t)%Z)
                          completedWithDuration 0%Z)
              / inject_Z (Z.of_nat (length completedWithDuration)))%Q
         end |} job.

Definition truthy_str (s : option string) : bool :=
  match s with
  | Some s => negb (String.eqb s EmptyString)
  | None => false
  end.

(** The tail shared by completeTask and failTask: the counter bumped by
    [bump] is recomputed by updateJobMetrics right after. *)
Definition settle (now : Z) (task : Task) (bump : JobMetrics -> JobMetrics) : M unit :=
  if truthy_str (parentId task) then
    let parent := default EmptyString (parentId task) in
    let* job := getJob now parent in
    modify (fun o => put_job parent (updateJobMetrics o (with_metrics (bump (metrics job)) job)) o)
  else ret tt.

Definition completeTask (now : Z) (taskId : string) (res : JSValue) : M unit :=
  let* task := getTask now taskId in
  let task1 :=
    {| task_id := task_id task; parentId := parentId task;
       task_name := task_name task; description := description task;
       objective := objective task;
       task_status := completed;
       priority := priority task; assignedAgentId := assignedAgentId task;
       dependencies := dependencies task; createdAt := createdAt task;
       startedAt := startedAt task;
       completedAt := Some now;
       metadata := metadata task;
       result := Some res;
       error := error task |} in
  let* _ := modify (put_task taskId task1) in
  settle now task1
    (fun m => {| totalTasks := totalTasks m; completedTasks := S (completedTasks m);
                 failedTasks := failedTasks m;
                 averageTaskDuration := averageTaskDuration m |}).

Definition failTask (now : Z) (taskId : string) (err : string) : M unit :=
  let* task := getTask now taskId in
  let task1 :=
    {| task_id := task_id task; parentId := parentId task;
       task_name := task_name task; description := description task;
       objective := objective task;
       task_status := failed;
       priority := priority task; assignedAgentId := assignedAgentId task;
       dependencies := dependencies task; createdAt := createdAt task;
       startedAt := startedAt task;
       completedAt := Some now;
       metadata := metadata task;
       result := result task;
       error := Some err |} in
  let* _ := modify (put_task taskId task1) in
  settle now task1
    (fun m => {| totalTasks := totalTasks m; completedTasks := completedTasks m;
                 failedTasks := S (failedTasks m);
                 averageTaskDuration := averageTaskDuration m |}).

(** The calls of the orchestrator's interface. *)
Inductive action :=
| CreateJob (now : Z) (random : string) (userId title objective : string)
| DecomposeTasks (now : Z) (jobId : string)
    (taskDefinitions : list (TaskDefinition * (Z * string)))
| AssignTask (now : Z) (taskId agentId : string)
| CompleteTask (now : Z) (taskId : string) (res : JSValue)
| FailTask (now : Z) (taskId : string) (err : string).

Definition perform (a : action) (o : t) : t :=
  match a with
  | CreateJob now rnd u ti ob => snd (createJob now rnd u ti ob o)
  | DecomposeTasks now j defs => snd (decomposeTasks now j defs o)
  | AssignTask now tid aid => snd (assignTask now tid aid o)
  | CompleteTask now tid res => snd (completeTask now tid res o)
  | FailTask now tid err => snd (failTask now tid err o)
  end.

Definition perform_all (acts : list action) (o : t) : t :=
  fold_left (fun o a => perform a o) acts o.

(** Tasks are stored under their ids, none has a start time; each job's
    total is the number of its tasks, its two counters together do not
    exceed it, and its average duration is 0. *)
Definition sound (o : t) : Prop :=
  (forall id task, tasks o !! id = Some task ->
                   task_id task = id /\ startedAt task = None)
  /\ (forall id job, jobs o !! id = Some job ->
        totalTasks (metrics job) = length (job_tasks job)
        /\ completedTasks (metrics job) + failedTasks (metrics job)
           <= totalTasks (metrics job)
        /\ averageTaskDuration (metrics job) = 0%Q).

(** A task definition with no field set. *)
Definition empty_definition : TaskDefinition :=
  {| def_name := None; def_description := None; def_objective := None;
     def_priority := None; def_dependencies := None; def_metadata := None |}.

(** Fixtures: an orchestrator over two registered agents, one offline,
    with one job of two tasks. *)
Definition orch0 : t :=
  new (AgentRegistry.registered [TaskRouter.agent1; TaskRouter.agent3]).

Definition orch1 : t := snd (createJob 100 "abc" "user-1" "Title" "Objective" orch0).

Definition orch2 : t :=
  snd (decomposeTasks 101 "job_100_abc"
         [(empty_definition, (101%Z, "t1")); (empty_definition, (102%Z, "t2"))] orch1).

End TaskOrchestrator.

(** ** CapabilityIndex (agent-registry/src/capability/CapabilityIndex.ts) *)

Module CapabilityIndex.

(** A [Set<string>] of agent ids, as the list of its members in
    insertion order. *)
Definition set_add (x : string) (l : list string) : list string :=
  if bool_decide (x ∈ l) then l else l ++ [x].

Definition set_delete (x : string) (l : list string) : list string :=
  filter (fun y => y ≠ x) l.

Record t := {
  capabilityIndex : gmap string (list string);          (* capability -> agentIds *)
  agentCapabilities : gmap string (list AgentCapability) (* agentId -> capabilities *)
}.

Definition new : t := {| capabilityIndex := ∅; agentCapabilities := ∅ |}.

(** One turn of the loop of indexAgent. *)
Definition index_one (agentId : string) (ci : gmap string (list string))
    (capability : AgentCapability) : gmap string (list string) :=
  let ci1 := match ci !! cap_name capability with
             | Some _ => ci
             | None => <[cap_name capability := []]> ci
             end in
  <[cap_name capability := set_add agentId (default [] (ci1 !! cap_name capability))]> ci1.

Definition indexAgent (agentId : string) (capabilities : list AgentCapability)
    (idx : t) : t :=
  {| agentCapabilities := <[agentId := capabilities]> (agentCapabilities idx);
     capabilityIndex := fold_left (index_one agentId) capabilities (capabilityIndex idx) |}.

(** One turn of the loop of removeAgent. *)
Definition remove_one (agentId : string) (ci : gmap string (list string))
    (capability : AgentCapability) : gmap string (list string) :=
  match ci !! cap_name capability with
  | Some agents =>
      let agents' := set_delete agentId agents in
      match agents' with
      | [] => delete (cap_name capability) ci
      | _ => <[cap_name capability := agents']> ci
      end
  | None => ci
  end.

Definition removeAgent (agentId : string) (idx : t) : t :=
  let capabilities := default [] (agentCapabilities idx !! agentId) in
  {| capabilityIndex := fold_left (remove_one agentId) capabilities (capabilityIndex idx);
     agentCapabilities := delete agentId (agentCapabilities idx) |}.

Definition getAgentsWithCapability (capabilityName : string) (idx : t) : list string :=
  default [] (capabilityIndex idx !! capabilityName).

Definition getAgentCapabilities (agentId : string) (idx : t) : list AgentCapability :=
  default [] (agentCapabilities idx !! agentId).

(** The capability names of a list of capabilities. *)
Definition names (capabilities : list AgentCapability) : list string :=
  map cap_name capabilities.

(** No capability is listed with an empty set of agents, and no set
    lists an agent twice. *)
Definition tidy (idx : t) : Prop :=
  forall c agents, capabilityIndex idx !! c = Some agents ->
                   agents <> [] /\ List.NoDup agents.

Inductive action :=
| IndexAgent (agentId : string) (capabilities : list AgentCapability)
| RemoveAgent (agentId : string).

Definition perform (a : action) (idx : t) : t :=
  match a with
  | IndexAgent id caps => indexAgent id caps idx
  | RemoveAgent id => removeAgent id idx
  end.

Definition perform_all (acts : list action) (idx : t) : t :=
  fold_left (fun idx a => perform a idx) acts idx.

(** Fixtures. *)
Definition cap (name : string) : AgentCapability :=
  {| cap_name := name; cap_version := "1.0"; cap_description := name |}.

(** What the two loops do to the set listed for one capability name. *)
Definition listed (agentId : string) (o : option (list string)) : option (list string) :=
  Some (set_add agentId (default [] o)).

Definition pruned (agentId : string) (o : option (list string)) : option (list string) :=
  match o with
  | Some agents =>
      match set_delete agentId agents with
      | [] => None
      | agents' => Some agents'
      end
  | None => None
  end.

End CapabilityIndex.


(** ** ResilientOrchestrator.executeTask
    (task-orchestrator/src/resilience/ResilientOrchestrator.ts)

    The resilient orchestrator with its collaborators: the breaker state,
    the task orchestrator and the registry its router reads.  The method
    is asynchronous only in its [await this.sleep(delay)]; it is modelled
    for a run in which nothing but the orchestrator's own scheduled
    breaker callbacks happens while it sleeps, and returns the time at
    which it settles. *)

Module ResilientExecution.

Record t := {
  breaker : ResilientOrchestrator.t;
  orchestrator : TaskOrchestrator.t;
  router : AgentRegistry.t
}.

(** What the method throws: a plain [Error] of its own, or the
    [NexusError] of a callee. *)
Inductive error :=
| PlainError (message : string)
| Nexus (e : NexusError).

(** [{ status: 'success', taskId, agentId }] *)
Record success := { s_taskId : string; s_agentId : string }.

Definition maxAttempts : nat := 3.

(** [Math.min(1000 * Math.pow(2, attempt - 1), 10000)] *)
Definition delay (attempt : nat) : Z :=
  Z.min (1000 * 2 ^ (Z.of_nat attempt - 1)) 10000.

(** The body of the [try] block. *)
Definition attempt_once (now : Z) (task : Task) (w : t) : (success + error) * t :=
  match TaskRouter.findBestAgent now task (router w) with
  | None => (inr (PlainError "No suitable agents found"), w)
  | Some decision =>
      let chosen :=
        if ResilientOrchestrator.isCircuitOpen (TaskRouter.agentId decision) (breaker w)
        then match TaskRouter.findAlternativeAgent task (TaskRouter.agentId decision)
                     (router w) with
             | None => inr (PlainError "No alternative agents available")
             | Some alternative => inl (TaskRouter.agentId alternative)
             end
        else inl (TaskRouter.agentId decision) in
      match chosen with
      | inr e => (inr e, w)
      | inl agentId =>
          match TaskOrchestrator.assignTask now (task_id task) agentId (orchestrator w) with
          | (Returned _, o') =>
              (inl {| s_taskId := task_id task; s_agentId := agentId |},
               {| breaker := breaker w; orchestrator := o'; router := router w |})
          | (Thrown e, o') =>
              (inr (Nexus e),
               {| breaker := breaker w; orchestrator := o'; router := router w |})
          end
      end
  end.

(** [await this.sleep(ms)]: the time passes and the breaker callbacks
    that fall due run. *)
Definition sleep (ms : Z) (now : Z) (w : t) : Z * t :=
  ((now + ms)%Z,
   {| breaker := ResilientOrchestrator.elapse (now + ms) (breaker w);
      orchestrator := orchestrator w; router := router w |}).

(** The [for] loop, by the number of attempts still to make. *)
Fixpoint attempts (left : nat) (attempt : nat) (now : Z) (task : Task) (w : t)
    (lastError : option error) : (success + error) * t * Z :=
  match left with
  | O => (inr (default (PlainError "Task execution failed") lastError), w, now)
  | S left' =>
      match attempt_once now task w with
      | (inl s, w') => (inl s, w', now)
      | (inr e, w') =>
          if (attempt <? maxAttempts)%nat then
            let '(now', w'') := sleep (delay attempt) now w' in
            attempts left' (S attempt) now' task w'' (Some e)
          else attempts left' (S attempt) now task w' (Some e)
      end
  end.

Definition executeTask (now : Z) (task : Task) (w : t) : (success + error) * t * Z :=
  attempts maxAttempts 1 now task w None.

(** Fixture: the orchestrator of [TaskOrchestrator.orch2] with a router
    over two online agents and a breaker that opened for [agent-1] at
    time 0. *)
Definition world1 : t :=
  {| breaker := ResilientOrchestrator.run
                  (ResilientOrchestrator.five_failures "agent-1" 0 0 0 0 0)
                  ResilientOrchestrator.new;
     orchestrator :=
       snd (TaskOrchestrator.decomposeTasks 101 "job_100_abc"
              [(TaskOrchestrator.empty_definition, (101%Z, "t1"))]
              (snd (TaskOrchestrator.createJob 100 "abc" "user-1" "Title" "Objective"
                      (TaskOrchestrator.new
                         (AgentRegistry.registered
                            [TaskRouter.agent1; TaskRouter.agent2])))));
     router := AgentRegistry.registered [TaskRouter.agent1; TaskRouter.agent2] |}.

Definition task1 : Task :=
  TaskOrchestrator.make_task "job_100_abc" TaskOrchestrator.empty_definition (101%Z, "t1").

End ResilientExecution.


(** * Part II: properties *)

(** ** Number comparisons *)

Section Comparisons.

Local Open Scope Q_scope.

Lemma Qltb_lt x y : Qltb x y = true <-> x < y.
Proof.
  unfold Qltb. rewrite negb_true_iff. split.
  - intros H. apply Qnot_le_lt. intros Hle.
    apply Qle_bool_iff in Hle. congruence.
  - intros H. destruct (Qle_bool y x) eqn:E; [|reflexivity].
    apply Qle_bool_iff in E. exfalso. exact (Qlt_not_le _ _ H E).
Qed.

Lemma Qltb_ge x y : Qltb x y = false <-> y <= x.
Proof. unfold Qltb. rewrite negb_false_iff. apply Qle_bool_iff. Qed.

Lemma Qgtb_gt x y : Qgtb x y = true <-> y < x.
Proof. apply Qltb_lt. Qed.

Lemma Qgtb_le x y : Qgtb x y = false <-> x <= y.
Proof. apply Qltb_ge. Qed.

End Comparisons.

(** ** FlowController *)

Section FlowControllerProps.

Import FlowController.
Local Open Scope Q_scope.

Lemma write_buffer size fc :
  bufferSize (snd (write size fc)) = bufferSize fc + size.
Proof. unfold write. simpl. destruct (negb (paused fc) && _); reflexivity. Qed.

Lemma write_config size fc : config (snd (write size fc)) = config fc.
Proof. unfold write. simpl. destruct (negb (paused fc) && _); reflexivity. Qed.

Lemma write_false size fc :
  fst (write size fc) = false <->
  paused fc = false /\ highThreshold fc < bufferSize fc + size.
Proof.
  unfold write. simpl.
  change (highThreshold _) with (highThreshold fc).
  destruct (paused fc); simpl.
  - split; [discriminate | intros [? _]; discriminate].
  - destruct (Qgtb (bufferSize fc + size) (highThreshold fc)) eqn:E; simpl.
    + apply Qgtb_gt in E. tauto.
    + apply Qgtb_le in E. split; [discriminate|].
      intros [_ H]. exfalso. exact (Qlt_not_le _ _ H E).
Qed.

Lemma write_paused size fc :
  paused (snd (write size fc)) = true <->
  paused fc = true \/ highThreshold fc < bufferSize fc + size.
Proof.
  unfold write. simpl.
  change (highThreshold _) with (highThreshold fc).
  destruct (paused fc); simpl; [tauto|].
  destruct (Qgtb (bufferSize fc + size) (highThreshold fc)) eqn:E; simpl.
  - apply Qgtb_gt in E. tauto.
  - apply Qgtb_le in E. split; [discriminate|].
    intros [?|H]; [discriminate|]. exfalso. exact (Qlt_not_le _ _ H E).
Qed.

Lemma drain_buffer size fc :
  bufferSize (snd (drain size fc)) = Qmax 0 (bufferSize fc - size).
Proof. unfold drain. simpl. destruct (paused fc && _); reflexivity. Qed.

Lemma drain_resumes size fc :
  resumes fc (snd (drain size fc)) <->
  paused fc = true /\ bufferSize (snd (drain size fc)) < lowThreshold fc.
Proof.
  rewrite drain_buffer. unfold resumes, drain. simpl.
  change (lowThreshold _) with (lowThreshold fc).
  destruct (paused fc); simpl.
  - destruct (Qltb (Qmax 0 (bufferSize fc - size)) (lowThreshold fc)) eqn:E; simpl.
    + apply Qltb_lt in E. tauto.
    + apply Qltb_ge in E. split; [intros [_ ?]; discriminate|].
      intros [_ H]. exfalso. exact (Qlt_not_le _ _ H E).
  - split; intros [? _]; discriminate.
Qed.

Lemma drain_resumes_true size fc :
  resumes fc (snd (drain size fc)) -> fst (drain size fc) = true.
Proof.
  unfold resumes, drain. simpl. intros [Hp H]. rewrite Hp in *. simpl in *.
  destruct (Qltb _ _); simpl in *; [reflexivity | discriminate].
Qed.

Lemma drain_keeps_above_low size fc :
  lowThreshold fc <= bufferSize (snd (drain size fc)) ->
  paused (snd (drain size fc)) = paused fc.
Proof.
  rewrite drain_buffer. intros H. apply Qltb_ge in H.
  unfold drain. simpl. change (lowThreshold _) with (lowThreshold fc).
  rewrite H, andb_false_r. reflexivity.
Qed.

Lemma step_ok c fc : call_ok c fc (fst (step c fc)) (snd (step c fc)).
Proof.
  destruct c as [size|size]; simpl.
  - split; [apply write_buffer|]. rewrite write_buffer. apply write_false.
  - split; [apply drain_buffer|].
    split; [apply drain_resumes|].
    split; [apply drain_resumes_true | apply drain_keeps_above_low].
Qed.

(** C1, as amended: in every sequence of write and drain calls, a write
    returns false exactly when the controller is not already paused and
    the counter, after adding the size, exceeds highWaterMark% of
    maxBufferSize; a drain clears the paused flag (and then returns true)
    exactly when the controller is paused and the counter has fallen
    strictly below lowWaterMark% of maxBufferSize, and never clears it
    while the counter is at or above that mark. *)
Theorem flow_control_hysteresis (cs : list call) (fc0 : t)
    (c : call) (before : t) (r : bool) (after : t) :
  In (c, before, r, after) (trace cs fc0) -> call_ok c before r after.
Proof.
  revert fc0. induction cs as [|c' cs IH]; intros fc0; simpl.
  - intros [].
  - intros [E | H].
    + inversion E; subst. apply step_ok.
    + exact (IH _ H).
Qed.

Lemma flow_control_hysteresis_witness :
  let before := snd (write 90 small) in
  call_ok (Drain 80) before (fst (drain 80 before)) (snd (drain 80 before)).
Proof.
  intros before.
  apply (flow_control_hysteresis [Write 90; Drain 80] small).
  right. left. reflexivity.
Defined.

(** C1 as stated fails on the code: once paused, a write that leaves the
    counter above the high mark returns true, and a drain that leaves the
    counter at or above the low mark returns true as well. *)
Lemma flow_control_as_stated_fails :
  let fc1 := snd (write 90 small) in
  (fst (write 10 fc1) = true
   /\ highThreshold fc1 < bufferSize (snd (write 10 fc1)))
  /\ (fst (drain 10 fc1) = true
      /\ lowThreshold fc1 <= bufferSize (snd (drain 10 fc1))).
Proof.
  vm_compute. repeat split; discriminate.
Qed.

End FlowControllerProps.

(** ** RoutingTable *)

Section RoutingTableProps.

Import RoutingTable.
Local Open Scope Z_scope.

Lemma addRoute_self now nh darg rt : addRoute now (nodeId rt) nh darg rt = rt.
Proof. unfold addRoute. rewrite String.eqb_refl. reflexivity. Qed.

Lemma addRoute_not_shorter now d nh darg rt e :
  routes rt !! d = Some e -> distance e <= default 1 darg ->
  addRoute now d nh darg rt = rt.
Proof.
  intros He Hle. unfold addRoute.
  destruct (String.eqb d (nodeId rt)); [reflexivity|].
  rewrite He. apply Z.leb_le in Hle. rewrite Hle. reflexivity.
Qed.

Lemma addRoute_stores now d nh darg rt :
  d ≠ nodeId rt ->
  (routes rt !! d = None
   \/ exists e, routes rt !! d = Some e /\ default 1 darg < distance e) ->
  addRoute now d nh darg rt =
  set_routes rt (<[d := {| destination := d; nextHop := nh;
                           distance := default 1 darg; timestamp := now |}]>
                   (routes rt)).
Proof.
  intros Hne H. unfold addRoute.
  apply String.eqb_neq in Hne. rewrite Hne.
  destruct H as [Hn | (e & He & Hlt)].
  - rewrite Hn. reflexivity.
  - rewrite He. apply Z.leb_gt in Hlt. rewrite Hlt. reflexivity.
Qed.

(** C7: for a destination other than the local node, an existing entry
    with distance <= the offered one leaves the table unchanged (ties keep
    the existing route); with no entry, or an entry strictly farther, the
    offered route is stored under the destination and every other entry
    is kept; a route to the local node id is never stored.  A call
    without the distance argument offers distance 1. *)
Theorem addRoute_keeps_shortest (rt : t) (now : Z) (d nh : string)
    (darg : option Z) :
  (d ≠ nodeId rt ->
   (forall e, routes rt !! d = Some e -> distance e <= default 1 darg ->
      addRoute now d nh darg rt = rt)
   /\ (routes rt !! d = None
       \/ (exists e, routes rt !! d = Some e /\ default 1 darg < distance e) ->
       routes (addRoute now d nh darg rt) !! d =
         Some {| destination := d; nextHop := nh;
                 distance := default 1 darg; timestamp := now |}
       /\ (forall d', d' ≠ d ->
             routes (addRoute now d nh darg rt) !! d' = routes rt !! d')
       /\ nodeId (addRoute now d nh darg rt) = nodeId rt
       /\ ttl (addRoute now d nh darg rt) = ttl rt))
  /\ addRoute now (nodeId rt) nh darg rt = rt.
Proof.
  split; [|apply addRoute_self].
  intros Hne. split.
  - intros e He Hle. exact (addRoute_not_shorter now d nh darg rt e He Hle).
  - intros H. rewrite (addRoute_stores now d nh darg rt Hne H). simpl.
    split; [apply lookup_insert_eq|].
    split; [|split; reflexivity].
    intros d' Hd'. apply lookup_insert_ne. congruence.
Qed.

Lemma table1_b :
  routes table1 !! "b" =
  Some {| destination := "b"; nextHop := "c"; distance := 3; timestamp := 0 |}.
Proof. reflexivity. Qed.

Lemma addRoute_keeps_shortest_witness :
  addRoute 5 "b" "x" (Some 3) table1 = table1
  /\ routes (addRoute 5 "b" "x" (Some 2) table1) !! "b" =
       Some {| destination := "b"; nextHop := "x"; distance := 2; timestamp := 5 |}
  /\ routes (addRoute 5 "d" "x" None table1) !! "d" =
       Some {| destination := "d"; nextHop := "x"; distance := 1; timestamp := 5 |}
  /\ addRoute 5 "n1" "x" (Some 1) table1 = table1.
Proof.
  assert (Hb : "b" ≠ nodeId table1) by discriminate.
  assert (Hd : "d" ≠ nodeId table1) by discriminate.
  split.
  { apply (proj1 (proj1 (addRoute_keeps_shortest table1 5 "b" "x" (Some 3)) Hb)
             _ table1_b). simpl. lia. }
  split.
  { apply (proj2 (proj1 (addRoute_keeps_shortest table1 5 "b" "x" (Some 2)) Hb)).
    right. eexists. split; [exact table1_b | simpl; lia]. }
  split.
  { apply (proj2 (proj1 (addRoute_keeps_shortest table1 5 "d" "x" None) Hd)).
    left. reflexivity. }
  exact (proj2 (addRoute_keeps_shortest table1 5 "n1" "x" (Some 1))).
Defined.

End RoutingTableProps.

(** ** StateStore *)

Section StateStoreProps.

Import StateStore.

Lemma state_notify c s : state (notifyListeners c s) = state s.
Proof. reflexivity. Qed.

Lemma version_notify c s : version (notifyListeners c s) = version s.
Proof. reflexivity. Qed.

Lemma getState_setState now k v s : getState k (setState now k v s) = v.
Proof.
  unfold getState, setState, js_get. simpl.
  rewrite lookup_insert_eq. reflexivity.
Qed.

Lemma getState_setState_ne now k k' v s :
  k ≠ k' -> getState k' (setState now k v s) = getState k' s.
Proof.
  intros Hne. unfold getState, setState, js_get. simpl.
  rewrite lookup_insert_ne by exact Hne. reflexivity.
Qed.

Lemma version_setState now k v s :
  version (setState now k v s) !! k = Some (S (version_or_0 s k)).
Proof.
  unfold setState. simpl. rewrite lookup_insert_eq.
  f_equal. lia.
Qed.

Lemma version_or_0_setState now k v s :
  version_or_0 (setState now k v s) k = S (version_or_0 s k).
Proof.
  unfold version_or_0 at 1. rewrite version_setState. reflexivity.
Qed.

Lemma version_or_0_setState_ne now k k' v s :
  k ≠ k' -> version_or_0 (setState now k v s) k' = version_or_0 s k'.
Proof.
  intros Hne. unfold version_or_0, setState. simpl.
  rewrite lookup_insert_ne by exact Hne. reflexivity.
Qed.

Lemma getState_deleteState now k s : getState k (deleteState now k s) = VUndefined.
Proof.
  unfold getState, deleteState.
  destruct (js_get (state s) k) eqn:E; try exact E;
    unfold js_get; simpl; rewrite lookup_delete_eq; reflexivity.
Qed.

Lemma deleteState_defined now k s :
  getState k s ≠ VUndefined ->
  state (deleteState now k s) = delete k (state s)
  /\ version (deleteState now k s) = delete k (version s).
Proof.
  unfold getState, deleteState. intros H.
  destruct (js_get (state s) k); try contradiction; split; reflexivity.
Qed.

Lemma deleteState_undefined now k s :
  getState k s = VUndefined -> deleteState now k s = s.
Proof. unfold getState, deleteState. intros ->. reflexivity. Qed.

Lemma version_or_0_deleteState_ne now k k' s :
  k ≠ k' -> version_or_0 (deleteState now k s) k' = version_or_0 s k'.
Proof.
  intros Hne. unfold version_or_0, deleteState.
  destruct (js_get (state s) k); try reflexivity;
    simpl; rewrite lookup_delete_ne by exact Hne; reflexivity.
Qed.

Lemma version_or_0_perform a k s :
  resets k a = false ->
  version_or_0 s k <= version_or_0 (perform a s) k.
Proof.
  destruct a as [now k' v | now k' | now c | l | l | ]; simpl; intros Hd.
  - destruct (decide (k' = k)) as [->|Hne].
    + rewrite version_or_0_setState. lia.
    + rewrite version_or_0_setState_ne by exact Hne. lia.
  - apply String.eqb_neq in Hd.
    rewrite version_or_0_deleteState_ne by congruence. lia.
  - unfold applyRemoteChange.
    destruct (timestamp c >? now - 60000)%Z; simpl; [|lia].
    destruct (decide (key c = k)) as [<-|Hne].
    + rewrite version_or_0_setState. lia.
    + rewrite version_or_0_setState_ne by exact Hne. lia.
  - unfold version_or_0, onChange. destruct (bool_decide _); simpl; lia.
  - unfold version_or_0, unsubscribe. simpl. lia.
  - discriminate.
Qed.

Lemma version_or_0_perform_all acts k s :
  forallb (fun a => negb (resets k a)) acts = true ->
  version_or_0 s k <= version_or_0 (perform_all acts s) k.
Proof.
  unfold perform_all. revert s.
  induction acts as [|a acts IH]; intros s; simpl.
  - lia.
  - rewrite andb_true_iff, negb_true_iff. intros [Ha Hacts].
    pose proof (version_or_0_perform a k s Ha).
    specialize (IH (perform a s) Hacts). lia.
Qed.

Lemma version_clear s k : version (clear s) !! k = None.
Proof. unfold clear. simpl. apply lookup_empty. Qed.

(** C5, as amended: reading a key right after writing it returns the
    written value; reading it right after deleting it returns undefined;
    and a setState of a key stores a strictly larger version for the key
    than the previous setState of that key did, provided that no
    deleteState of the key and no clear was called between the two
    writes -- whatever else was called between them: writes and
    deletions of other keys, further writes of the key, remote changes,
    subscriptions. *)
Theorem setState_getState_roundtrip (s : t) (now : Z) (k : string) (v : JSValue) :
  getState k (setState now k v s) = v
  /\ getState k (deleteState now k s) = VUndefined
  /\ (forall acts now' v',
        forallb (fun a => negb (resets k a)) acts = true ->
        version_or_0 (setState now k v s) k
        < version_or_0
            (setState now' k v' (perform_all acts (setState now k v s))) k).
Proof.
  split; [apply getState_setState|].
  split; [apply getState_deleteState|].
  intros acts now' v' Hacts.
  pose proof (version_or_0_perform_all acts k (setState now k v s) Hacts).
  rewrite (version_or_0_setState now' k v'). lia.
Qed.

Lemma setState_getState_roundtrip_witness :
  version_or_0 store1 "key1"
  < version_or_0 (setState 5 "key1" VNull (perform_all calls1 store1)) "key1".
Proof.
  exact (proj2 (proj2
           (setState_getState_roundtrip (new "node-1") 0 "key1" (VStr "value1")))
           calls1 5%Z VNull eq_refl).
Defined.

(** C5 as stated fails on the code: the second write of [key1] stored
    version 2; the next setState of the key stores version 1 when a
    deleteState of the key came before it, and also when a clear did; and
    for a key written once, deleted and written again both writes store
    version 1. *)
Lemma setState_version_as_stated_fails :
  version store2 !! "key1" = Some 2
  /\ version (setState 3 "key1" (VStr "c") (deleteState 2 "key1" store2)) !! "key1"
     = Some 1
  /\ version (setState 3 "key1" (VStr "c") (clear store2)) !! "key1" = Some 1
  /\ version store1 !! "key1" = Some 1
  /\ version (setState 2 "key1" (VStr "b") (deleteState 1 "key1" store1)) !! "key1"
     = Some 1.
Proof. repeat split. Qed.

Lemma applyRemoteChange_true now c s :
  fst (applyRemoteChange now c s) = true <-> within_freshness_window now c.
Proof.
  unfold applyRemoteChange, within_freshness_window, freshness_window.
  destruct (Z.gtb_spec (timestamp c) (now - 60000)); simpl.
  - split; [lia | reflexivity].
  - split; [discriminate | lia].
Qed.

(** C6: applyRemoteChange returns true exactly when the change is less
    than 60 seconds old at the current time; it then has performed
    setState of the change's key to its new value, which reads back;
    when it returns false the store, and so the value and the version of
    the change's key, is left as it was. *)
Theorem applyRemoteChange_freshness (s : t) (now : Z) (c : StateChange) :
  (fst (applyRemoteChange now c s) = true <-> within_freshness_window now c)
  /\ (fst (applyRemoteChange now c s) = true ->
      snd (applyRemoteChange now c s) = setState now (key c) (newValue c) s
      /\ getState (key c) (snd (applyRemoteChange now c s)) = newValue c)
  /\ (fst (applyRemoteChange now c s) = false ->
      snd (applyRemoteChange now c s) = s).
Proof.
  split; [apply applyRemoteChange_true|].
  unfold applyRemoteChange.
  destruct (timestamp c >? now - 60000)%Z; simpl.
  - split; [|discriminate]. intros _. split; [reflexivity|].
    apply getState_setState.
  - split; [discriminate | reflexivity].
Qed.

Lemma applyRemoteChange_freshness_witness :
  snd (applyRemoteChange 100000 remote1 store1)
    = setState 100000 "key1" (VStr "remote-value") store1
  /\ getState "key1" (snd (applyRemoteChange 100000 remote1 store1))
     = VStr "remote-value"
  /\ snd (applyRemoteChange 100000 stale1 store1) = store1.
Proof.
  destruct (applyRemoteChange_freshness store1 100000 remote1) as (_ & Hacc & _).
  destruct (applyRemoteChange_freshness store1 100000 stale1) as (_ & _ & Hrej).
  destruct (Hacc eq_refl) as [H1 H2].
  split; [exact H1|]. split; [exact H2|]. exact (Hrej eq_refl).
Defined.

End StateStoreProps.

(** ** StateStore: versions across deleteState and clear *)

Section StateStoreVersions.

Import StateStore.

(** C10, as amended: deleteState of a key that holds a value (anything
    but undefined) erases the key's version counter along with its value,
    so a setState of that key performed after it stores version 1, which
    is strictly smaller than the version held before the delete whenever
    that version was at least 2; clear erases every version counter as
    well; and over a sequence of calls with no deleteState of the key and
    no clear, the key's version never decreases and each setState of the
    key raises it by one. *)
Theorem deleteState_resets_version (s : t) (now now' : Z) (k : string)
    (v : JSValue) :
  (getState k s ≠ VUndefined ->
   state (deleteState now k s) !! k = None
   /\ version (deleteState now k s) !! k = None
   /\ version (setState now' k v (deleteState now k s)) !! k = Some 1
   /\ (2 <= version_or_0 s k ->
       version_or_0 (setState now' k v (deleteState now k s)) k
       < version_or_0 s k))
  /\ (version (clear s) !! k = None
      /\ version (setState now' k v (clear s)) !! k = Some 1)
  /\ (forall acts,
        forallb (fun a => negb (resets k a)) acts = true ->
        version_or_0 s k <= version_or_0 (perform_all acts s) k
        /\ version_or_0 (setState now' k v (perform_all acts s)) k
           = S (version_or_0 (perform_all acts s) k)).
Proof.
  split; [|split].
  - intros Hdef.
    destruct (deleteState_defined now k s Hdef) as [Hs Hv].
    assert (H0 : version_or_0 (deleteState now k s) k = 0).
    { unfold version_or_0. rewrite Hv, lookup_delete_eq. reflexivity. }
    split; [rewrite Hs; apply lookup_delete_eq|].
    split; [rewrite Hv; apply lookup_delete_eq|].
    split; [rewrite version_setState, H0; reflexivity|].
    rewrite version_or_0_setState, H0. lia.
  - split; [apply version_clear|].
    rewrite version_setState. unfold version_or_0.
    rewrite version_clear. reflexivity.
  - intros acts Hacts.
    split; [exact (version_or_0_perform_all acts k s Hacts)|].
    apply version_or_0_setState.
Qed.

Lemma deleteState_resets_version_witness :
  version (setState 3 "key1" (VStr "c") (deleteState 2 "key1" store2)) !! "key1"
    = Some 1
  /\ version_or_0 (setState 3 "key1" (VStr "c") (deleteState 2 "key1" store2)) "key1"
     < version_or_0 store2 "key1"
  /\ version_or_0 store2 "key1"
     <= version_or_0 (perform_all calls1 store2) "key1".
Proof.
  destruct (deleteState_resets_version store2 2 3 "key1" (VStr "c"))
    as (Hdel & _ & Hmono).
  assert (Hdef : getState "key1" store2 ≠ VUndefined) by discriminate.
  destruct (Hdel Hdef) as (_ & _ & H1 & Hlt).
  split; [exact H1|].
  split; [apply Hlt; vm_compute; lia|].
  exact (proj1 (Hmono calls1 eq_refl)).
Defined.

(** C10 as stated fails on the code: a key written once holds version 1,
    and version 1 stored after the delete is not smaller; and a key
    holding undefined is not deleted, so its counter is kept and the next
    setState stores version 2. *)
Lemma deleteState_version_as_stated_fails :
  (version_or_0 store1 "key1" = 1
   /\ version_or_0 (setState 2 "key1" (VStr "b") (deleteState 1 "key1" store1)) "key1"
      = 1)
  /\ (let s := setState 0 "k" VUndefined (new "node-1") in
      version (deleteState 1 "k" s) !! "k" = Some 1
      /\ version (setState 2 "k" (VStr "b") (deleteState 1 "k" s)) !! "k" = Some 2).
Proof. repeat split. Qed.

End StateStoreVersions.

(** ** ReputationTracker *)

Section ReputationTrackerProps.

Import ReputationTracker.
Local Open Scope Q_scope.

Lemma Math_min_finite a b :
  Math_min (Finite a) (Finite b) = Finite (if Qltb b a then b else a).
Proof. unfold Math_min, num_ltb. destruct (Qltb b a); reflexivity. Qed.

Lemma Math_max_finite a b :
  Math_max (Finite a) (Finite b) = Finite (if Qltb a b then b else a).
Proof. unfold Math_max, num_ltb. destruct (Qltb a b); reflexivity. Qed.

Lemma min_one_le x : 0 <= x -> 0 <= (if Qltb x 1 then x else 1) <= 1.
Proof.
  intros Hx. destruct (Qltb x 1) eqn:E.
  - apply Qltb_lt in E. lra.
  - lra.
Qed.

Lemma max_zero_le x : x <= 1 -> 0 <= (if Qltb 0 x then x else 0) <= 1.
Proof.
  intros Hx. destruct (Qltb 0 x) eqn:E.
  - apply Qltb_lt in E. lra.
  - lra.
Qed.

Lemma clamp_in_unit_interval x :
  x ≠ NaN -> in_unit_interval (Math_max (Finite 0) (Math_min (Finite 1) x)).
Proof.
  intros Hx. destruct x as [| |q|]; [contradiction| | |].
  - simpl. lra.
  - rewrite Math_min_finite, Math_max_finite. simpl.
    apply max_zero_le. destruct (Qltb q 1) eqn:E; [apply Qltb_lt in E|]; lra.
  - simpl. lra.
Qed.

Lemma success_in_unit_interval s :
  in_unit_interval s ->
  in_unit_interval
    (Math_min (Finite 1) (num_add s (Finite DEFAULTS.REPUTATION_INCREMENT_SUCCESS))).
Proof.
  destruct s as [| |q|]; try contradiction. intros [H0 H1].
  unfold DEFAULTS.REPUTATION_INCREMENT_SUCCESS. simpl num_add.
  rewrite Math_min_finite. simpl. apply min_one_le. lra.
Qed.

Lemma failure_in_unit_interval s :
  in_unit_interval s ->
  in_unit_interval
    (Math_max (Finite 0) (num_sub s (Finite DEFAULTS.REPUTATION_DECREMENT_FAILURE))).
Proof.
  destruct s as [| |q|]; try contradiction. intros [H0 H1].
  unfold DEFAULTS.REPUTATION_DECREMENT_FAILURE. simpl num_sub.
  rewrite Math_max_finite. simpl. apply max_zero_le. lra.
Qed.

Lemma initializeAgent_present now id s0 (r : t) rec :
  r !! id = Some rec -> initializeAgent now id s0 r = r.
Proof. unfold initializeAgent. intros ->. reflexivity. Qed.

Lemma initializeAgent_absent now id s0 (r : t) :
  r !! id = None ->
  initializeAgent now id s0 r =
  <[id := {| agentId := id;
             score := Math_max (Finite 0) (Math_min (Finite 1) (default (Finite 1) s0));
             successCount := 0; failureCount := 0; lastUpdated := now |}]> r.
Proof. unfold initializeAgent. intros ->. reflexivity. Qed.

Lemma initializeAgent_other now id' s0 (r : t) id rec :
  r !! id = Some rec -> initializeAgent now id' s0 r !! id = Some rec.
Proof.
  intros Hrec. unfold initializeAgent.
  destruct (r !! id') eqn:E; [exact Hrec|].
  rewrite lookup_insert_ne; [exact Hrec|]. intros ->. congruence.
Qed.

Lemma getOrCreateRecord_present now id (r : t) rec :
  r !! id = Some rec -> getOrCreateRecord now id r = (rec, r).
Proof. unfold getOrCreateRecord. intros H. rewrite H. simpl. rewrite H. reflexivity. Qed.

Lemma getOrCreateRecord_absent now id (r : t) :
  r !! id = None ->
  getOrCreateRecord now id r =
  ({| agentId := id; score := Finite 1; successCount := 0; failureCount := 0;
      lastUpdated := now |},
   initializeAgent now id None r).
Proof.
  unfold getOrCreateRecord. intros H. rewrite H.
  rewrite (initializeAgent_absent now id None r H), lookup_insert_eq.
  reflexivity.
Qed.

Lemma getOrCreateRecord_other now id' (r : t) id rec :
  r !! id = Some rec -> snd (getOrCreateRecord now id' r) !! id = Some rec.
Proof.
  intros Hrec. destruct (r !! id') as [rec'|] eqn:E.
  - rewrite (getOrCreateRecord_present now id' r rec' E). exact Hrec.
  - rewrite (getOrCreateRecord_absent now id' r E). simpl.
    apply initializeAgent_other, Hrec.
Qed.

Lemma scores_bounded_insert (r : t) id rec :
  scores_bounded r -> in_unit_interval (score rec) ->
  scores_bounded (<[id := rec]> r).
Proof.
  intros Hr Hrec id' rec'. rewrite lookup_insert.
  case_decide as E.
  - intros [= <-]. exact Hrec.
  - apply Hr.
Qed.

Lemma scores_bounded_initializeAgent now id s0 (r : t) :
  s0 ≠ Some NaN ->
  scores_bounded r -> scores_bounded (initializeAgent now id s0 r).
Proof.
  intros Hs0 Hr. destruct (r !! id) as [rec|] eqn:E.
  - rewrite (initializeAgent_present now id s0 r rec E). exact Hr.
  - rewrite (initializeAgent_absent now id s0 r E).
    apply scores_bounded_insert; [exact Hr|].
    apply clamp_in_unit_interval.
    destruct s0 as [x|]; simpl; congruence.
Qed.

Lemma getOrCreateRecord_bounded now id (r : t) :
  scores_bounded r ->
  in_unit_interval (score (fst (getOrCreateRecord now id r)))
  /\ scores_bounded (snd (getOrCreateRecord now id r)).
Proof.
  intros Hr. destruct (r !! id) as [rec|] eqn:E.
  - rewrite (getOrCreateRecord_present now id r rec E). simpl.
    split; [exact (Hr id rec E) | exact Hr].
  - rewrite (getOrCreateRecord_absent now id r E). simpl.
    split; [lra | apply scores_bounded_initializeAgent; [discriminate | exact Hr]].
Qed.

Lemma scores_bounded_recordSuccess now id (r : t) :
  scores_bounded r -> scores_bounded (recordSuccess now id r).
Proof.
  intros Hr. unfold recordSuccess.
  destruct (getOrCreateRecord_bounded now id r Hr) as [H1 H2].
  destruct (getOrCreateRecord now id r) as [rec r1]. simpl in H1, H2.
  apply scores_bounded_insert; [exact H2 | apply success_in_unit_interval, H1].
Qed.

Lemma scores_bounded_recordFailure now id (r : t) :
  scores_bounded r -> scores_bounded (recordFailure now id r).
Proof.
  intros Hr. unfold recordFailure.
  destruct (getOrCreateRecord_bounded now id r Hr) as [H1 H2].
  destruct (getOrCreateRecord now id r) as [rec r1]. simpl in H1, H2.
  apply scores_bounded_insert; [exact H2 | apply failure_in_unit_interval, H1].
Qed.

Lemma passes_NaN_false now id s0 :
  passes_NaN (now, Initialize id s0) = false -> s0 ≠ Some NaN.
Proof. intros H ->. discriminate. Qed.

Lemma scores_bounded_run os (r : t) :
  forallb (fun o => negb (passes_NaN o)) os = true ->
  scores_bounded r -> scores_bounded (run os r).
Proof.
  revert r. induction os as [|[now o] os IH]; intros r Hos Hr; simpl; [exact Hr|].
  simpl in Hos. apply andb_true_iff in Hos as [Ho Hos].
  apply negb_true_iff in Ho.
  apply IH; [exact Hos|]. destruct o; simpl.
  - apply scores_bounded_initializeAgent; [|exact Hr].
    exact (passes_NaN_false _ _ _ Ho).
  - apply scores_bounded_recordSuccess, Hr.
  - apply scores_bounded_recordFailure, Hr.
Qed.

Lemma scores_bounded_empty : scores_bounded (∅ : t).
Proof. intros id rec. rewrite lookup_empty. discriminate. Qed.

Lemma recordSuccess_present now id (r : t) rec :
  r !! id = Some rec ->
  recordSuccess now id r !! id =
  Some {| agentId := agentId rec;
          score := Math_min (Finite 1) (num_add (score rec) (Finite (1 # 10)));
          successCount := S (successCount rec);
          failureCount := failureCount rec;
          lastUpdated := now |}.
Proof.
  intros Hrec. unfold recordSuccess.
  rewrite (getOrCreateRecord_present now id r rec Hrec). apply lookup_insert_eq.
Qed.

Lemma recordFailure_present now id (r : t) rec :
  r !! id = Some rec ->
  recordFailure now id r !! id =
  Some {| agentId := agentId rec;
          score := Math_max (Finite 0) (num_sub (score rec) (Finite (2 # 10)));
          successCount := successCount rec;
          failureCount := S (failureCount rec);
          lastUpdated := now |}.
Proof.
  intros Hrec. unfold recordFailure.
  rewrite (getOrCreateRecord_present now id r rec Hrec). apply lookup_insert_eq.
Qed.

Lemma recordSuccess_other now id' (r : t) id rec :
  id' ≠ id -> r !! id = Some rec -> recordSuccess now id' r !! id = Some rec.
Proof.
  intros Hne Hrec. unfold recordSuccess.
  pose proof (getOrCreateRecord_other now id' r id rec Hrec) as H.
  destruct (getOrCreateRecord now id' r) as [rec' r1]. simpl in H.
  rewrite lookup_insert_ne by exact Hne. exact H.
Qed.

Lemma recordFailure_other now id' (r : t) id rec :
  id' ≠ id -> r !! id = Some rec -> recordFailure now id' r !! id = Some rec.
Proof.
  intros Hne Hrec. unfold recordFailure.
  pose proof (getOrCreateRecord_other now id' r id rec Hrec) as H.
  destruct (getOrCreateRecord now id' r) as [rec' r1]. simpl in H.
  rewrite lookup_insert_ne by exact Hne. exact H.
Qed.

(** A record whose score is NaN keeps that score under every call. *)
Lemma stored_NaN_apply_op now o id (r : t) :
  stored id r = Some NaN -> stored id (apply_op now o r) = Some NaN.
Proof.
  unfold stored. destruct (r !! id) as [rec|] eqn:E; [|discriminate].
  simpl. intros [= Hs]. destruct o as [id' s0 | id' | id']; simpl.
  - rewrite (initializeAgent_other now id' s0 r id rec E). simpl. congruence.
  - destruct (decide (id' = id)) as [->|Hne].
    + rewrite (recordSuccess_present now id r rec E). simpl.
      rewrite Hs. reflexivity.
    + rewrite (recordSuccess_other now id' r id rec Hne E). simpl. congruence.
  - destruct (decide (id' = id)) as [->|Hne].
    + rewrite (recordFailure_present now id r rec E). simpl.
      rewrite Hs. reflexivity.
    + rewrite (recordFailure_other now id' r id rec Hne E). simpl. congruence.
Qed.

Lemma stored_NaN_run os id (r : t) :
  stored id r = Some NaN -> stored id (run os r) = Some NaN.
Proof.
  revert r. induction os as [|[now o] os IH]; intros r Hr; simpl; [exact Hr|].
  apply IH, stored_NaN_apply_op, Hr.
Qed.

Lemma shouldQuarantine_NaN now id (r : t) :
  stored id r = Some NaN -> fst (shouldQuarantine now id r) = false.
Proof.
  unfold stored. destruct (r !! id) as [rec|] eqn:E; [|discriminate].
  intros Hs. simpl in Hs. injection Hs as Hs. unfold shouldQuarantine, getScore.
  rewrite (getOrCreateRecord_present now id r rec E). simpl.
  rewrite Hs. reflexivity.
Qed.

(** C4: the code breaks the claim at initializeAgent(id, NaN).  For an
    agent without a record the call stores
    Math.max(0, Math.min(1, NaN)), which is NaN and not a score in
    [0,1], so the scores of the tracker are no longer all in [0,1]; no
    later recordSuccess, recordFailure or initializeAgent repairs the
    record, whose score stays NaN over every history, and
    shouldQuarantine answers false for the agent ever after. *)
Theorem initializeAgent_stores_NaN (r : t) (now : Z) (id : string) :
  r !! id = None ->
  stored id (initializeAgent now id (Some NaN) r) = Some NaN
  /\ ~ in_unit_interval NaN
  /\ ~ scores_bounded (initializeAgent now id (Some NaN) r)
  /\ (forall os,
        stored id (run os (initializeAgent now id (Some NaN) r)) = Some NaN)
  /\ (forall os now',
        fst (shouldQuarantine now' id
               (run os (initializeAgent now id (Some NaN) r))) = false).
Proof.
  intros Hnone.
  assert (Hst : stored id (initializeAgent now id (Some NaN) r) = Some NaN).
  { unfold stored. rewrite (initializeAgent_absent now id (Some NaN) r Hnone).
    rewrite lookup_insert_eq. reflexivity. }
  split; [exact Hst|].
  split; [intros []|].
  split.
  { intros Hb. unfold stored in Hst.
    destruct (initializeAgent now id (Some NaN) r !! id) as [rec|] eqn:E;
      [|discriminate].
    simpl in Hst. injection Hst as Hs.
    pose proof (Hb id rec E) as Hin. rewrite Hs in Hin. exact Hin. }
  split.
  { intros os. apply stored_NaN_run, Hst. }
  intros os now'. apply shouldQuarantine_NaN, stored_NaN_run, Hst.
Qed.

Lemma initializeAgent_stores_NaN_witness :
  stored "agent-1" (initializeAgent 0 "agent-1" (Some NaN) ∅) = Some NaN
  /\ stored "agent-1" (run history2 (initializeAgent 0 "agent-1" (Some NaN) ∅))
     = Some NaN
  /\ fst (shouldQuarantine 9 "agent-1"
            (run history2 (initializeAgent 0 "agent-1" (Some NaN) ∅))) = false.
Proof.
  assert (Hnone : (∅ : t) !! "agent-1" = None) by reflexivity.
  destruct (initializeAgent_stores_NaN ∅ 0 "agent-1" Hnone)
    as (H1 & _ & _ & H2 & H3).
  split; [exact H1|]. split; [exact (H2 history2) | exact (H3 history2 9%Z)].
Defined.

End ReputationTrackerProps.

(** ** Circuit breaker *)

Section CircuitBreakerProps.

Import ResilientOrchestrator.

Lemma breakerState_insert id a st (s : t) cb :
  circuitBreaker s = <[a := st]> cb ->
  breakerState id s = if decide (a = id) then st else default closed (cb !! id).
Proof.
  intros H. unfold breakerState. rewrite H, lookup_insert.
  case_decide; reflexivity.
Qed.

Lemma breakerState_halfOpen id a s :
  breakerState id (halfOpen a s) =
  if decide (a = id) then half_open else breakerState id s.
Proof. apply (breakerState_insert id a half_open _ (circuitBreaker s)). reflexivity. Qed.

Lemma count_failure now id s :
  count id (recordAgentFailure now id s) = S (count id s).
Proof.
  unfold count, recordAgentFailure.
  destruct (failureThreshold s <=? _); simpl;
    rewrite lookup_insert_eq; simpl; lia.
Qed.

Lemma constants_failure now id s :
  failureThreshold (recordAgentFailure now id s) = failureThreshold s
  /\ resetTimeout (recordAgentFailure now id s) = resetTimeout s.
Proof.
  unfold recordAgentFailure.
  destruct (failureThreshold s <=? _); split; reflexivity.
Qed.

Lemma failure_below now id s :
  S (count id s) < failureThreshold s ->
  circuitBreaker (recordAgentFailure now id s) = circuitBreaker s
  /\ timers (recordAgentFailure now id s) = timers s.
Proof.
  intros H. unfold recordAgentFailure. fold (count id s).
  replace (count id s + 1) with (S (count id s)) by lia.
  apply Nat.leb_gt in H. rewrite H. split; reflexivity.
Qed.

Lemma failure_reaches now id s :
  failureThreshold s <= S (count id s) ->
  breakerState id (recordAgentFailure now id s) = open
  /\ timers (recordAgentFailure now id s) =
     timers s ++ [ {| due := (now + resetTimeout s)%Z; agent := id |} ].
Proof.
  intros H. unfold breakerState, recordAgentFailure. fold (count id s).
  replace (count id s + 1) with (S (count id s)) by lia.
  apply Nat.leb_le in H. rewrite H. simpl.
  rewrite lookup_insert_eq. split; reflexivity.
Qed.

Lemma snd_fire_cons now tm rest s :
  snd (fire now (tm :: rest) s) =
  if (due tm <=? now)%Z then snd (fire now rest (halfOpen (agent tm) s))
  else snd (fire now rest s).
Proof.
  simpl. destruct (due tm <=? now)%Z; [reflexivity|].
  destruct (fire now rest s). reflexivity.
Qed.

Lemma breakerState_elapse id now s :
  breakerState id (elapse now s) = breakerState id (snd (fire now (timers s) s)).
Proof. unfold elapse. destruct (fire now (timers s) s). reflexivity. Qed.

Lemma fire_keeps_half_open id now pending s :
  breakerState id s = half_open ->
  breakerState id (snd (fire now pending s)) = half_open.
Proof.
  revert s. induction pending as [|tm rest IH]; intros s Hs; [exact Hs|].
  rewrite snd_fire_cons. destruct (due tm <=? now)%Z; [|exact (IH s Hs)].
  apply IH. rewrite breakerState_halfOpen. case_decide; [reflexivity | exact Hs].
Qed.

Lemma fire_due_half_open id now pending s tm :
  In tm pending -> agent tm = id -> (due tm <= now)%Z ->
  breakerState id (snd (fire now pending s)) = half_open.
Proof.
  revert s. induction pending as [|tm' rest IH]; intros s; [intros []|].
  intros [-> | Hin] Ha Hd; rewrite snd_fire_cons.
  - apply Z.leb_le in Hd. rewrite Hd. apply fire_keeps_half_open.
    rewrite breakerState_halfOpen, Ha, decide_True by reflexivity. reflexivity.
  - destruct (due tm' <=? now)%Z; exact (IH _ Hin Ha Hd).
Qed.

Lemma fire_not_due_open id now pending s :
  (forall tm, In tm pending -> agent tm = id -> (now < due tm)%Z) ->
  breakerState id (snd (fire now pending s)) = breakerState id s.
Proof.
  revert s. induction pending as [|tm rest IH]; intros s H; [reflexivity|].
  rewrite snd_fire_cons.
  assert (Hrest : forall tm', In tm' rest -> agent tm' = id -> (now < due tm')%Z)
    by (intros tm' Hin; apply H; right; exact Hin).
  destruct (Z.leb_spec (due tm) now) as [Hd|Hd]; [|exact (IH s Hrest)].
  rewrite (IH _ Hrest), breakerState_halfOpen.
  case_decide as E; [|reflexivity].
  specialize (H tm (or_introl eq_refl) E). lia.
Qed.

Lemma success_closes id s :
  breakerState id s = half_open ->
  breakerState id (recordAgentSuccess id s) = closed
  /\ count id (recordAgentSuccess id s) = 0.
Proof.
  unfold breakerState, count, recordAgentSuccess.
  destruct (circuitBreaker s !! id) as [[]|] eqn:E; simpl; try discriminate.
  intros _. rewrite !lookup_insert_eq. split; reflexivity.
Qed.

(** From open, a recorded failure or success of any agent leaves the
    breaker of [id] open. *)
Lemma open_stays_open id e s :
  breakerState id s = open ->
  match e with Elapse _ => True | _ => breakerState id (step e s) = open end.
Proof.
  intros Hs. destruct e as [now a | a | now]; simpl; [| |exact I].
  - unfold recordAgentFailure.
    destruct (failureThreshold s <=? _); [|exact Hs].
    unfold breakerState. simpl. rewrite lookup_insert.
    case_decide; [reflexivity | exact Hs].
  - unfold recordAgentSuccess.
    destruct (circuitBreaker s !! a) as [[]|] eqn:E; try exact Hs.
    unfold breakerState in *. simpl. rewrite lookup_insert.
    case_decide as Ea; [|exact Hs]. subst a. rewrite E in Hs. discriminate.
Qed.

Lemma fire_from_open id now pending s :
  breakerState id s = open ->
  breakerState id (snd (fire now pending s)) = open
  \/ In half_open (fire_states id now pending s).
Proof.
  revert s. induction pending as [|tm rest IH]; intros s Hs; [left; exact Hs|].
  rewrite snd_fire_cons. simpl.
  destruct (due tm <=? now)%Z; [|exact (IH s Hs)].
  destruct (decide (agent tm = id)) as [Ea|Ea].
  - right. left. rewrite breakerState_halfOpen, decide_True by exact Ea. reflexivity.
  - destruct (IH (halfOpen (agent tm) s)) as [H|H].
    + rewrite breakerState_halfOpen, decide_False by exact Ea. exact Hs.
    + left. exact H.
    + right. right. exact H.
Qed.

Lemma closed_only_through_half_open id es s :
  breakerState id s = open ->
  breakerState id (run es s) = closed ->
  In half_open (states id es s).
Proof.
  revert s. induction es as [|e es IH]; intros s Hs Hc; simpl in *.
  - rewrite Hs in Hc. discriminate.
  - apply in_or_app.
    pose proof (open_stays_open id e s Hs) as Hstep.
    destruct e as [now a | a | now].
    + right. exact (IH _ Hstep Hc).
    + right. exact (IH _ Hstep Hc).
    + destruct (fire_from_open id now (timers s) s Hs) as [H|H].
      * right. apply IH; [|exact Hc]. simpl. rewrite breakerState_elapse. exact H.
      * left. exact H.
Qed.

End CircuitBreakerProps.

Section CircuitBreakerCycle.

Import ResilientOrchestrator.

Variable id : string.

(** One failure that stays below the threshold. *)
Lemma failure_step now s n :
  failureThreshold s = 5 -> resetTimeout s = 60000%Z -> count id s = n -> S n < 5 ->
  let s' := recordAgentFailure now id s in
  failureThreshold s' = 5 /\ resetTimeout s' = 60000%Z /\ count id s' = S n
  /\ timers s' = timers s.
Proof.
  intros Hth Hrt Hc Hn s'.
  destruct (constants_failure now id s) as [H1 H2].
  destruct (failure_below now id s) as [_ H4]; [rewrite Hc, Hth; exact Hn|].
  subst s'. rewrite H1, H2, count_failure, Hc. auto.
Qed.

Lemma five_failures_open s0 t1 t2 t3 t4 t5 :
  failureThreshold s0 = 5 -> resetTimeout s0 = 60000%Z -> count id s0 = 0 ->
  let s5 := run (five_failures id t1 t2 t3 t4 t5) s0 in
  breakerState id s5 = open
  /\ timers s5 = timers s0 ++ [ {| due := (t5 + 60000)%Z; agent := id |} ].
Proof.
  intros Hth Hrt Hc. simpl.
  destruct (failure_step t1 s0 0 Hth Hrt Hc ltac:(lia)) as (Hth1 & Hrt1 & Hc1 & Ht1).
  destruct (failure_step t2 _ 1 Hth1 Hrt1 Hc1 ltac:(lia)) as (Hth2 & Hrt2 & Hc2 & Ht2).
  destruct (failure_step t3 _ 2 Hth2 Hrt2 Hc2 ltac:(lia)) as (Hth3 & Hrt3 & Hc3 & Ht3).
  destruct (failure_step t4 _ 3 Hth3 Hrt3 Hc3 ltac:(lia)) as (Hth4 & Hrt4 & Hc4 & Ht4).
  destruct (failure_reaches t5 id
              (recordAgentFailure t4 id (recordAgentFailure t3 id
                 (recordAgentFailure t2 id (recordAgentFailure t1 id s0)))))
    as [Ho Ht5]; [rewrite Hc4, Hth4; lia|].
  split; [exact Ho|].
  rewrite Ht5, Hrt4, Ht4, Ht3, Ht2, Ht1. reflexivity.
Qed.

(** C3: from a state in which the agent has failure count 0 (the initial
    state in particular), five consecutive recordAgentFailure calls for
    the agent leave its breaker open; once 60 s have passed since the
    fifth and the scheduled callback has run, the breaker is half-open
    (and it is still open before that, when no older callback for the
    agent is pending); one recordAgentSuccess then closes it.  Along any
    run that starts with the breaker open and ends with it closed, the
    breaker is half-open at some point in between. *)
Theorem breaker_open_half_open_closed (s0 : t) (t1 t2 t3 t4 t5 now : Z) :
  failureThreshold s0 = 5 -> resetTimeout s0 = 60000%Z -> count id s0 = 0 ->
  let s5 := run (five_failures id t1 t2 t3 t4 t5) s0 in
  breakerState id s5 = open
  /\ ((t5 + 60000 <= now)%Z ->
      breakerState id (elapse now s5) = half_open
      /\ breakerState id (recordAgentSuccess id (elapse now s5)) = closed)
  /\ ((now < t5 + 60000)%Z ->
      (forall tm, In tm (timers s0) -> agent tm <> id) ->
      breakerState id (elapse now s5) = open)
  /\ (forall s es,
        breakerState id s = open -> breakerState id (run es s) = closed ->
        In half_open (states id es s)).
Proof.
  intros Hth Hrt Hc s5.
  destruct (five_failures_open s0 t1 t2 t3 t4 t5 Hth Hrt Hc) as [Ho Ht].
  fold s5 in Ho, Ht.
  split; [exact Ho|]. split; [|split].
  - intros Hnow.
    assert (Hh : breakerState id (elapse now s5) = half_open).
    { rewrite breakerState_elapse.
      apply (fire_due_half_open id now (timers s5) s5
               {| due := (t5 + 60000)%Z; agent := id |});
        [rewrite Ht; apply in_or_app; right; left; reflexivity
        | reflexivity | exact Hnow]. }
    split; [exact Hh | exact (proj1 (success_closes id _ Hh))].
  - intros Hnow Hnone. rewrite breakerState_elapse, fire_not_due_open; [exact Ho|].
    intros tm Hin Ha. rewrite Ht in Hin. apply in_app_or in Hin.
    destruct Hin as [Hin | [<- | []]].
    + destruct (Hnone tm Hin Ha).
    + exact Hnow.
  - intros s es. apply closed_only_through_half_open.
Qed.

End CircuitBreakerCycle.

Lemma breaker_open_half_open_closed_witness :
  let s5 := ResilientOrchestrator.run
              (ResilientOrchestrator.five_failures "agent-1" 10 20 30 40 50)
              ResilientOrchestrator.new in
  ResilientOrchestrator.breakerState "agent-1" ResilientOrchestrator.new
    = ResilientOrchestrator.closed
  /\ ResilientOrchestrator.breakerState "agent-1" s5 = ResilientOrchestrator.open
  /\ ResilientOrchestrator.breakerState "agent-1"
       (ResilientOrchestrator.elapse 60050 s5) = ResilientOrchestrator.half_open
  /\ ResilientOrchestrator.breakerState "agent-1"
       (ResilientOrchestrator.recordAgentSuccess "agent-1"
          (ResilientOrchestrator.elapse 60050 s5)) = ResilientOrchestrator.closed
  /\ ResilientOrchestrator.breakerState "agent-1"
       (ResilientOrchestrator.elapse 60049 s5) = ResilientOrchestrator.open
  /\ In ResilientOrchestrator.half_open
       (ResilientOrchestrator.states "agent-1"
          [ResilientOrchestrator.Elapse 60050;
           ResilientOrchestrator.AgentSuccess "agent-1"] s5).
Proof.
  intros s5.
  destruct (breaker_open_half_open_closed "agent-1" ResilientOrchestrator.new
              10 20 30 40 50 60050 eq_refl eq_refl eq_refl) as (Ho & Hh & _ & Htr).
  destruct (breaker_open_half_open_closed "agent-1" ResilientOrchestrator.new
              10 20 30 40 50 60049 eq_refl eq_refl eq_refl) as (_ & _ & Hb & _).
  split; [reflexivity|]. split; [exact Ho|].
  destruct Hh as [H1 H2]; [lia|].
  split; [exact H1|]. split; [exact H2|].
  split; [apply Hb; [lia|]; intros tm []|].
  apply Htr; [exact Ho | exact H2].
Defined.

(** ** AgentRegistry *)

Section AgentRegistryProps.

Import AgentRegistry.

Lemma has_In id (r : t) : has id r = true <-> In id (map agent_id r).
Proof.
  unfold has. rewrite existsb_exists, in_map_iff. split.
  - intros (a & Hin & He). apply String.eqb_eq in He. eauto.
  - intros (a & He & Hin). exists a. split; [exact Hin|]. apply String.eqb_eq, He.
Qed.

Lemma register_ids_present a (r : t) :
  has (agent_id a) r = true -> map agent_id (register a r) = map agent_id r.
Proof.
  intros H. unfold register. rewrite H, map_map.
  apply map_ext. intros b.
  destruct (String.eqb_spec (agent_id b) (agent_id a)); congruence.
Qed.

Lemma register_NoDup a (r : t) :
  List.NoDup (map agent_id r) -> List.NoDup (map agent_id (register a r)).
Proof.
  intros Hnd. destruct (has (agent_id a) r) eqn:H.
  - rewrite register_ids_present by exact H. exact Hnd.
  - unfold register. rewrite H, map_app. simpl.
    apply NoDup_ListNoDup, NoDup_app.
    split; [apply NoDup_ListNoDup, Hnd|].
    split; [|apply NoDup_singleton].
    intros x Hx Hx'. apply list_elem_of_In in Hx.
    apply list_elem_of_singleton in Hx'. subst x.
    apply has_In in Hx. congruence.
Qed.

Lemma registered_NoDup agents : List.NoDup (map agent_id (registered agents)).
Proof.
  unfold registered.
  assert (G : forall r, List.NoDup (map agent_id r) ->
              List.NoDup (map agent_id (fold_left (fun r a => register a r) agents r))).
  { induction agents as [|a agents IH]; intros r Hr; simpl; [exact Hr|].
    apply IH, register_NoDup, Hr. }
  apply G. constructor.
Qed.

Lemma get_In (r : t) a :
  List.NoDup (map agent_id r) -> In a r -> get (agent_id a) r = Some a.
Proof.
  unfold get. induction r as [|b r IH]; simpl; [intros _ []|].
  intros Hnd Hin. inversion Hnd as [|? ? Hnotin Hnd']; subst.
  destruct Hin as [-> | Hin].
  - rewrite String.eqb_refl. reflexivity.
  - destruct (String.eqb_spec (agent_id b) (agent_id a)) as [E|E].
    + exfalso. apply Hnotin. rewrite E. apply in_map, Hin.
    + exact (IH Hnd' Hin).
Qed.

End AgentRegistryProps.

(** ** TaskRouter *)

Section TaskRouterProps.

Import TaskRouter.
Local Open Scope Q_scope.

Lemma filter_andb {A} (f g : A -> bool) l :
  List.filter (fun a => f a && g a) l = List.filter g (List.filter f l).
Proof.
  induction l as [|x l IH]; simpl; [reflexivity|].
  destruct (f x); simpl; [destruct (g x)|]; rewrite IH; reflexivity.
Qed.

Lemma filter_if {A} (b : bool) (p : A -> bool) l :
  List.filter (fun a => if b then p a else true) l = if b then List.filter p l else l.
Proof.
  destruct b; [reflexivity|].
  induction l as [|x l IH]; simpl; [reflexivity | rewrite IH; reflexivity].
Qed.

Lemma findCandidateAgents_eligible task registry :
  findCandidateAgents task registry = List.filter (eligible task) registry.
Proof.
  unfold findCandidateAgents, eligible, AgentRegistry.getAllAgents.
  rewrite (filter_andb _ (fun a => if truthy (requiredCapability task)
                                   then hasCapability a task else true)).
  rewrite (filter_andb _ (fun a => if truthy (requiredType task)
                                   then str_strict_eq (AgentType_str (agent_type a))
                                          (requiredType task) else true)).
  rewrite !filter_if.
  destruct (List.filter _ registry) as [|c cs] eqn:E; [|reflexivity].
  destruct (truthy (requiredType task)), (truthy (requiredCapability task));
    reflexivity.
Qed.

Lemma sort_insert_In {A} (compare : A -> A -> Q) x y l :
  In y (sort_insert compare x l) <-> y = x \/ In y l.
Proof.
  induction l as [|z l IH]; simpl; [intuition congruence|].
  destruct (Qle_bool (compare x z) 0); simpl; [intuition congruence|].
  rewrite IH. intuition congruence.
Qed.

Lemma sort_In {A} (compare : A -> A -> Q) y l :
  In y (sort compare l) <-> In y l.
Proof.
  induction l as [|x l IH]; simpl; [reflexivity|].
  rewrite sort_insert_In, IH. intuition congruence.
Qed.

Lemma sort_nil {A} (compare : A -> A -> Q) l : sort compare l = [] -> l = [].
Proof.
  destruct l as [|x l]; [reflexivity|]. intros H.
  assert (Hin : In x (sort compare (x :: l))) by (apply sort_In; left; reflexivity).
  rewrite H in Hin. destruct Hin.
Qed.

Lemma eligible_online task a :
  eligible task a = true -> status a = online /\ 3 # 10 < reputationScore a.
Proof.
  unfold eligible. rewrite !andb_true_iff. intros [[[Ho Hr] _] _].
  apply Qgtb_gt in Hr. split; [|exact Hr].
  unfold is_online in Ho. destruct (status a); (reflexivity || discriminate).
Qed.

(** The agent a decision names is a candidate. *)
Lemma findBestAgent_candidate now task registry d :
  findBestAgent now task registry = Some d ->
  exists a, In a registry /\ eligible task a = true /\ agentId d = agent_id a.
Proof.
  unfold findBestAgent. rewrite findCandidateAgents_eligible.
  destruct (List.filter (eligible task) registry) as [|c cs] eqn:E; [discriminate|].
  destruct (sort _ _) as [|best rest] eqn:Es; [discriminate|].
  intros [= <-]. simpl.
  assert (Hin : In best (sort (fun a b : AgentMetadata * Q => snd b - snd a)
                   (map (fun agent => (agent, scoreAgent now agent task)) (c :: cs))))
    by (rewrite Es; left; reflexivity).
  apply sort_In, in_map_iff in Hin. destruct Hin as (a & <- & Ha).
  rewrite <- E in Ha. apply filter_In in Ha. destruct Ha as [Ha1 Ha2].
  exists a. auto.
Qed.

Lemma findBestAgent_none now task registry :
  findBestAgent now task registry = None <->
  forall a, In a registry -> eligible task a = false.
Proof.
  unfold findBestAgent. rewrite findCandidateAgents_eligible. split.
  - destruct (List.filter (eligible task) registry) as [|c cs] eqn:E.
    + intros _ a Ha. destruct (eligible task a) eqn:Ee; [|reflexivity].
      assert (H : In a (List.filter (eligible task) registry))
        by (apply filter_In; auto).
      rewrite E in H. destruct H.
    + destruct (sort _ _) eqn:Es; [|discriminate].
      apply sort_nil in Es. discriminate.
  - intros H.
    assert (E : List.filter (eligible task) registry = []).
    { destruct (List.filter (eligible task) registry) as [|c cs] eqn:E; [reflexivity|].
      assert (Hc : In c (List.filter (eligible task) registry))
        by (rewrite E; left; reflexivity).
      apply filter_In in Hc. destruct Hc as [Hc1 Hc2].
      rewrite (H c Hc1) in Hc2. discriminate. }
    rewrite E. reflexivity.
Qed.

(** C8: whatever agents were registered and whatever the task, a decision
    of findBestAgent names a registered agent that is online and has a
    reputation strictly above 0.3 (and passes the task's type and
    capability filters); and findBestAgent returns none exactly when no
    registered agent passes all the filters. *)
Theorem findBestAgent_online_reputable (agents : list AgentMetadata)
    (task : Task) (now : Z) :
  let registry := AgentRegistry.registered agents in
  (forall d, findBestAgent now task registry = Some d ->
     exists a, AgentRegistry.get (agentId d) registry = Some a
               /\ status a = online /\ 3 # 10 < reputationScore a
               /\ eligible task a = true)
  /\ ((forall a, In a registry -> eligible task a = false) ->
      findBestAgent now task registry = None)
  /\ (findBestAgent now task registry = None ->
      forall a, In a registry -> eligible task a = false).
Proof.
  intros registry. split; [|split; apply findBestAgent_none].
  intros d Hd.
  destruct (findBestAgent_candidate now task registry d Hd) as (a & Hin & He & Hid).
  exists a. rewrite Hid.
  split; [apply get_In; [apply registered_NoDup | exact Hin]|].
  destruct (eligible_online task a He) as [Ho Hr]. auto.
Qed.

End TaskRouterProps.

Lemma findBestAgent_online_reputable_witness :
  (exists a,
     AgentRegistry.get "agent-2"
       (AgentRegistry.registered [TaskRouter.agent3; TaskRouter.agent2]) = Some a
     /\ status a = online /\ (3 # 10 < reputationScore a)%Q
     /\ TaskRouter.eligible (TaskRouter.test_task ∅) a = true)
  /\ TaskRouter.findBestAgent 1000 (TaskRouter.test_task ∅)
       (AgentRegistry.registered [TaskRouter.agent3]) = None.
Proof.
  split.
  - apply (proj1 (findBestAgent_online_reputable
                    [TaskRouter.agent3; TaskRouter.agent2] (TaskRouter.test_task ∅) 1000)
             {| TaskRouter.taskId := "task-1"; TaskRouter.agentId := "agent-2";
                TaskRouter.confidence := 1; TaskRouter.reason := "Score: 1.000" |}).
    reflexivity.
  - apply (proj1 (proj2 (findBestAgent_online_reputable
                    [TaskRouter.agent3] (TaskRouter.test_task ∅) 1000))).
    intros a [<- | []]. reflexivity.
Defined.

Section TaskRouterSaturation.

Import TaskRouter.
Local Open Scope Q_scope.

Lemma Qmin_1_saturates x : 1 <= x -> Qmin 1 x = 1.
Proof.
  intros H. unfold Qmin, GenericMinMax.gmin.
  destruct (1 ?= x) eqn:E; try reflexivity.
  apply Qgt_alt in E. exfalso. exact (Qlt_not_le _ _ E H).
Qed.

(** With no capability requirement an online agent of any non-negative
    reputation gets the full score: the baseline, the capability share
    and the status bonus already add up to 1. *)
Lemma scoreAgent_saturates now a task :
  status a = online -> truthy (requiredCapability task) = false ->
  0 <= reputationScore a ->
  scoreAgent now a task = 1.
Proof.
  intros Ho Hc Hr. unfold scoreAgent, is_online. rewrite Hc, Ho.
  destruct (now - lastHeartbeat a <? 60000)%Z; apply Qmin_1_saturates; lra.
Qed.

Lemma registered_two a b :
  agent_id a <> agent_id b -> AgentRegistry.registered [a; b] = [a; b].
Proof.
  intros Hne. unfold AgentRegistry.registered, AgentRegistry.register. simpl.
  apply String.eqb_neq in Hne. rewrite Hne. reflexivity.
Qed.

Lemma eligible_no_requirement task a :
  no_requirement task -> status a = online -> 3 # 10 < reputationScore a ->
  eligible task a = true.
Proof.
  intros [Ht Hc] Ho Hr. unfold eligible, is_online.
  rewrite Ht, Hc, Ho. apply Qgtb_gt in Hr. rewrite Hr. reflexivity.
Qed.

(** C2 on the code: of two online agents with reputations 0.5 and 0.9 and
    a task without requirements, findBestAgent selects the one that was
    registered first, whatever the heartbeat ages: both score 1, and the
    stable sort keeps the registration order.  Registered first, the 0.5
    agent is selected. *)
Theorem findBestAgent_first_registered (a b : AgentMetadata) (task : Task)
    (now : Z) :
  status a = online -> status b = online ->
  reputationScore a == 5 # 10 -> reputationScore b == 9 # 10 ->
  agent_id a <> agent_id b -> no_requirement task ->
  scoreAgent now a task = 1 /\ scoreAgent now b task = 1
  /\ agentId <$> findBestAgent now task (AgentRegistry.registered [a; b])
     = Some (agent_id a).
Proof.
  intros Ha Hb Hra Hrb Hne Hreq.
  assert (Hsa : scoreAgent now a task = 1)
    by (apply scoreAgent_saturates; [exact Ha | exact (proj2 Hreq) | lra]).
  assert (Hsb : scoreAgent now b task = 1)
    by (apply scoreAgent_saturates; [exact Hb | exact (proj2 Hreq) | lra]).
  split; [exact Hsa|]. split; [exact Hsb|].
  rewrite (registered_two a b Hne). unfold findBestAgent.
  rewrite findCandidateAgents_eligible. simpl.
  rewrite (eligible_no_requirement task a Hreq Ha) by lra.
  rewrite (eligible_no_requirement task b Hreq Hb) by lra.
  simpl. rewrite Hsa, Hsb. reflexivity.
Qed.

End TaskRouterSaturation.

Lemma findBestAgent_first_registered_witness :
  TaskRouter.agentId <$>
    TaskRouter.findBestAgent 1000 (TaskRouter.test_task ∅)
      (AgentRegistry.registered [TaskRouter.agent1; TaskRouter.agent2])
  = Some "agent-1".
Proof.
  apply (findBestAgent_first_registered TaskRouter.agent1 TaskRouter.agent2
           (TaskRouter.test_task ∅) 1000);
    try reflexivity; try discriminate.
  split; reflexivity.
Defined.

(** ** TaskOrchestrator *)

Section TaskOrchestratorProps.

Import TaskOrchestrator.

Lemma getTask_unchanged now id o : snd (getTask now id o) = o.
Proof.
  unfold getTask, bind, gets, throw, ret.
  destruct (tasks o !! id); reflexivity.
Qed.

Lemma getJob_unchanged now id o : snd (getJob now id o) = o.
Proof.
  unfold getJob, bind, gets, throw, ret.
  destruct (jobs o !! id); reflexivity.
Qed.

Lemma getTask_unknown now id o :
  tasks o !! id = None ->
  fst (getTask now id o) =
  Thrown (mkNexusError now INVALID_TASK ("Task not found: " +:+ id)).
Proof. unfold getTask, bind, gets, throw. intros ->. reflexivity. Qed.

Lemma getJob_unknown now id o :
  jobs o !! id = None ->
  fst (getJob now id o) =
  Thrown (mkNexusError now INVALID_TASK ("Job not found: " +:+ id)).
Proof. unfold getJob, bind, gets, throw. intros ->. reflexivity. Qed.

(** C9: getTask of an id that is not in the task map throws (it does not
    return), and so does getJob of an id that is not in the job map; the
    thrown NexusError carries an error code, INVALID_TASK, by which a
    caller can tell it from the other kinds (a callee's AGENT_NOT_FOUND,
    say); and neither call changes the orchestrator, whether the id is
    known or not. *)
Theorem getTask_getJob_unknown_throw (o : t) (now : Z) (id : string) :
  (tasks o !! id = None ->
   fst (getTask now id o) =
     Thrown (mkNexusError now INVALID_TASK ("Task not found: " +:+ id))
   /\ raises (fst (getTask now id o)) INVALID_TASK
   /\ forall task, fst (getTask now id o) <> Returned task)
  /\ (jobs o !! id = None ->
      fst (getJob now id o) =
        Thrown (mkNexusError now INVALID_TASK ("Job not found: " +:+ id))
      /\ raises (fst (getJob now id o)) INVALID_TASK
      /\ forall job, fst (getJob now id o) <> Returned job)
  /\ snd (getTask now id o) = o
  /\ snd (getJob now id o) = o
  /\ INVALID_TASK <> AGENT_NOT_FOUND.
Proof.
  split; [|split; [|split; [apply getTask_unchanged
                           |split; [apply getJob_unchanged | discriminate]]]].
  - intros H. rewrite (getTask_unknown now id o H).
    split; [reflexivity|]. split; [|discriminate].
    eexists. split; reflexivity.
  - intros H. rewrite (getJob_unknown now id o H).
    split; [reflexivity|]. split; [|discriminate].
    eexists. split; reflexivity.
Qed.

Lemma getTask_getJob_unknown_throw_witness :
  getTask 7 "task-x" (new []) =
    (Thrown (mkNexusError 7 INVALID_TASK "Task not found: task-x"), new [])
  /\ getJob 7 "job-x" (new []) =
    (Thrown (mkNexusError 7 INVALID_TASK "Job not found: job-x"), new []).
Proof.
  destruct (getTask_getJob_unknown_throw (new []) 7 "task-x") as (Ht & _ & Hst & _).
  destruct (getTask_getJob_unknown_throw (new []) 7 "job-x") as (_ & Hj & _ & Hsj & _).
  destruct (Ht eq_refl) as [Ht1 _]. destruct (Hj eq_refl) as [Hj1 _].
  split.
  - rewrite (surjective_pairing (getTask 7 "task-x" (new []))), Ht1, Hst. reflexivity.
  - rewrite (surjective_pairing (getJob 7 "job-x" (new []))), Hj1, Hsj. reflexivity.
Defined.

End TaskOrchestratorProps.

(** * Part III: further properties of the modelled code *)

(** Closed comparisons on numbers, by evaluation. *)
Ltac by_evaluation := vm_compute; first [reflexivity | discriminate].

(** ** RoutingTable: expiry, eviction and the shape of the table *)

Section RoutingTableMore.

Import RoutingTable.
Local Open Scope Z_scope.

Lemma ttl_addRoute now d nh darg rt : ttl (addRoute now d nh darg rt) = ttl rt.
Proof.
  unfold addRoute. destruct (String.eqb d (nodeId rt)); [reflexivity|].
  destruct (routes rt !! d) as [e|]; [destruct (distance e <=? _)|]; reflexivity.
Qed.

Lemma nodeId_addRoute now d nh darg rt : nodeId (addRoute now d nh darg rt) = nodeId rt.
Proof.
  unfold addRoute. destruct (String.eqb d (nodeId rt)); [reflexivity|].
  destruct (routes rt !! d) as [e|]; [destruct (distance e <=? _)|]; reflexivity.
Qed.

(** X1: a route added for a destination that had none (and is not the
    local node) is what getNextHop answers with for as long as the ttl
    has not passed since the add; once more than ttl has passed,
    getNextHop answers nothing and the entry is gone. *)
Theorem addRoute_getNextHop_until_ttl (rt : t) (now now' : Z) (d nh : string)
    (darg : option Z) :
  d <> nodeId rt -> routes rt !! d = None ->
  let rt1 := addRoute now d nh darg rt in
  (now' - now <= ttl rt ->
   getNextHop now' d rt1 = (Some nh, rt1))
  /\ (ttl rt < now' - now ->
      fst (getNextHop now' d rt1) = None
      /\ routes (snd (getNextHop now' d rt1)) !! d = None).
Proof.
  intros Hne Hnone rt1.
  assert (Hrt1 : rt1 = set_routes rt
            (<[d := {| destination := d; nextHop := nh;
                       distance := default 1 darg; timestamp := now |}]> (routes rt)))
    by (apply addRoute_stores; [exact Hne | left; exact Hnone]).
  unfold getNextHop, getRoute, isExpired. rewrite Hrt1. simpl.
  rewrite lookup_insert_eq. simpl. split; intros H.
  - destruct (Z.gtb_spec (now' - now) (ttl rt)); [lia | reflexivity].
  - destruct (Z.gtb_spec (now' - now) (ttl rt)); [|lia]. simpl.
    split; [reflexivity | apply lookup_delete_eq].
Qed.

Lemma addRoute_getNextHop_until_ttl_witness :
  getNextHop 300007 "d" (addRoute 7 "d" "x" None table1)
    = (Some "x", addRoute 7 "d" "x" None table1)
  /\ fst (getNextHop 300008 "d" (addRoute 7 "d" "x" None table1)) = None.
Proof.
  assert (Hd : "d" <> nodeId table1) by discriminate.
  destruct (addRoute_getNextHop_until_ttl table1 7 300007 "d" "x" None Hd eq_refl)
    as [H1 _].
  destruct (addRoute_getNextHop_until_ttl table1 7 300008 "d" "x" None Hd eq_refl)
    as [_ H2].
  split; [apply H1; by_evaluation | apply H2; by_evaluation].
Defined.

(** X2: addRoute looks at the stored entry without checking its age.  An
    entry that has already expired but was not yet evicted still wins
    against an offered route of equal or longer distance: the table is
    left unchanged, the timestamp is not refreshed, and the next
    getRoute answers nothing and evicts the entry, so the offered route
    is lost. *)
Theorem addRoute_blocked_by_expired_entry (rt : t) (now : Z) (d nh : string)
    (darg : option Z) (e : RouteEntry) :
  routes rt !! d = Some e -> distance e <= default 1 darg ->
  ttl rt < now - timestamp e ->
  addRoute now d nh darg rt = rt
  /\ fst (getRoute now d (addRoute now d nh darg rt)) = None
  /\ routes (snd (getRoute now d (addRoute now d nh darg rt))) !! d = None.
Proof.
  intros He Hle Hx.
  rewrite (addRoute_not_shorter now d nh darg rt e He Hle).
  split; [reflexivity|].
  unfold getRoute, isExpired. rewrite He.
  destruct (Z.gtb_spec (now - timestamp e) (ttl rt)); [|lia]. simpl.
  split; [reflexivity | apply lookup_delete_eq].
Qed.

Lemma addRoute_blocked_by_expired_entry_witness :
  addRoute 400000 "b" "c" (Some 3) table1 = table1
  /\ fst (getRoute 400000 "b" (addRoute 400000 "b" "c" (Some 3) table1)) = None
  /\ routes (snd (getRoute 400000 "b" (addRoute 400000 "b" "c" (Some 3) table1)))
       !! "b" = None.
Proof.
  apply (addRoute_blocked_by_expired_entry table1 400000 "b" "c" (Some 3) _ table1_b);
    by_evaluation.
Defined.

End RoutingTableMore.

Section RoutingTableInvariants.

Import RoutingTable.
Local Open Scope Z_scope.

Lemma nodeId_perform a rt : nodeId (perform a rt) = nodeId rt.
Proof.
  destruct a as [now d nh darg | now d | now d | d | now |]; simpl;
    try reflexivity.
  - apply nodeId_addRoute.
  - unfold getRoute. destruct (routes rt !! d) as [e|]; [|reflexivity].
    destruct (isExpired now rt e); reflexivity.
  - unfold getNextHop, getRoute. destruct (routes rt !! d) as [e|]; [|reflexivity].
    destruct (isExpired now rt e); reflexivity.
Qed.

Lemma well_keyed_delete rt d :
  well_keyed rt -> well_keyed (set_routes rt (delete d (routes rt))).
Proof.
  intros H d' e. simpl. rewrite lookup_delete.
  case_decide; [discriminate | apply H].
Qed.

Lemma well_keyed_getRoute now d rt :
  well_keyed rt -> well_keyed (snd (getRoute now d rt)).
Proof.
  intros H. unfold getRoute. destruct (routes rt !! d) as [e|]; [|exact H].
  destruct (isExpired now rt e); [apply well_keyed_delete, H | exact H].
Qed.

Lemma well_keyed_addRoute now d nh darg rt :
  well_keyed rt -> well_keyed (addRoute now d nh darg rt).
Proof.
  intros H. unfold addRoute.
  destruct (String.eqb_spec d (nodeId rt)) as [E|E]; [exact H|].
  assert (G : well_keyed (set_routes rt
            (<[d := {| destination := d; nextHop := nh;
                       distance := default 1 darg; timestamp := now |}]> (routes rt)))).
  { intros d' e'. simpl. rewrite lookup_insert. case_decide as Ed.
    - intros [= <-]. subst d'. split; [reflexivity | exact E].
    - apply H. }
  destruct (routes rt !! d) as [e|]; [destruct (distance e <=? _)|]; assumption.
Qed.

Lemma well_keyed_perform a rt : well_keyed rt -> well_keyed (perform a rt).
Proof.
  intros H. destruct a as [now d nh darg | now d | now d | d | now |]; simpl.
  - apply well_keyed_addRoute, H.
  - apply well_keyed_getRoute, H.
  - unfold getNextHop. pose proof (well_keyed_getRoute now d rt H) as G.
    destruct (getRoute now d rt). exact G.
  - apply well_keyed_delete, H.
  - intros d e. unfold cleanup. simpl. rewrite map_lookup_filter_Some.
    intros [He _]. exact (H d e He).
  - intros d e. simpl. rewrite lookup_empty. discriminate.
Qed.

Lemma well_keyed_perform_all acts rt :
  well_keyed rt ->
  well_keyed (perform_all acts rt)
  /\ nodeId (perform_all acts rt) = nodeId rt.
Proof.
  unfold perform_all. revert rt.
  induction acts as [|a acts IH]; intros rt H; simpl; [split; [exact H | reflexivity]|].
  destruct (IH (perform a rt) (well_keyed_perform a rt H)) as [H1 H2].
  split; [exact H1|]. rewrite H2. apply nodeId_perform.
Qed.

(** X3: whatever sequence of addRoute, getRoute, getNextHop, removeRoute,
    cleanup and clear calls is made on a new table, the table never holds
    a route to the local node, and every entry is stored under the
    destination it names. *)
Theorem routing_table_never_routes_to_self (n : string) (ttl0 : option Z)
    (acts : list action) :
  let rt := perform_all acts (new n ttl0) in
  routes rt !! n = None
  /\ forall d e, routes rt !! d = Some e -> destination e = d /\ d <> n.
Proof.
  intros rt.
  assert (H0 : well_keyed (new n ttl0))
    by (intros d e; simpl; rewrite lookup_empty; discriminate).
  destruct (well_keyed_perform_all acts (new n ttl0) H0) as [H Hn].
  fold rt in H, Hn. simpl in Hn.
  split.
  - destruct (routes rt !! n) as [e|] eqn:E; [|reflexivity].
    destruct (H n e E) as [_ Hne]. rewrite Hn in Hne. congruence.
  - intros d e He. destruct (H d e He) as [H1 H2]. rewrite Hn in H2. auto.
Qed.

(** X4: cleanup keeps exactly the entries that have not outlived the ttl
    and removes the others; a getRoute made at the time of the cleanup
    then finds nothing left to evict. *)
Theorem cleanup_removes_exactly_expired (rt : t) (now : Z) (d : string) :
  (forall r, routes (cleanup now rt) !! d = Some r <->
             routes rt !! d = Some r /\ now - timestamp r <= ttl rt)
  /\ getRoute now d (cleanup now rt)
     = (routes (cleanup now rt) !! d, cleanup now rt)
  /\ nodeId (cleanup now rt) = nodeId rt /\ ttl (cleanup now rt) = ttl rt.
Proof.
  assert (Hl : forall r, routes (cleanup now rt) !! d = Some r <->
                         routes rt !! d = Some r /\ now - timestamp r <= ttl rt).
  { intros r. unfold cleanup, isExpired. simpl. rewrite map_lookup_filter_Some. simpl.
    destruct (Z.gtb_spec (now - timestamp r) (ttl rt)); split;
      intros [H1 H2]; split; (assumption || lia || discriminate || reflexivity). }
  split; [exact Hl|]. split; [|split; reflexivity].
  unfold getRoute.
  destruct (routes (cleanup now rt) !! d) as [r|] eqn:E; [|reflexivity].
  destruct (proj1 (Hl r) eq_refl) as [_ Hr]. unfold isExpired.
  change (ttl (cleanup now rt)) with (ttl rt).
  destruct (Z.gtb_spec (now - timestamp r) (ttl rt)); [lia | reflexivity].
Qed.

Lemma distance_addRoute now d' nh darg rt d e :
  routes rt !! d = Some e ->
  exists e', routes (addRoute now d' nh darg rt) !! d = Some e'
             /\ distance e' <= distance e.
Proof.
  intros He. unfold addRoute.
  destruct (String.eqb d' (nodeId rt)); [exists e; split; [exact He | lia]|].
  destruct (decide (d' = d)) as [->|Hne].
  - rewrite He. destruct (Z.leb_spec (distance e) (default 1 darg)).
    + exists e. split; [exact He | lia].
    + eexists. simpl. rewrite lookup_insert_eq. split; [reflexivity|]. simpl. lia.
  - assert (G : forall x, (<[d' := x]> (routes rt)) !! d = Some e)
      by (intros x; rewrite lookup_insert_ne by exact Hne; exact He).
    exists e. split; [|lia].
    destruct (routes rt !! d') as [e0|]; [destruct (distance e0 <=? _)|];
      simpl; auto.
Qed.

(** X5: along any sequence of addRoute calls the route stored for a
    destination is never lost and its distance never grows. *)
Theorem addRoute_distance_never_grows (acts : list action) (rt : t)
    (d : string) (e : RouteEntry) :
  forallb is_add acts = true -> routes rt !! d = Some e ->
  exists e', routes (perform_all acts rt) !! d = Some e'
             /\ distance e' <= distance e.
Proof.
  unfold perform_all. revert rt e.
  induction acts as [|a acts IH]; intros rt e Ha He; simpl.
  - exists e. split; [exact He | lia].
  - simpl in Ha. apply andb_true_iff in Ha. destruct Ha as [Ha Hacts].
    destruct a as [now d' nh darg | | | | |]; try discriminate. simpl.
    destruct (distance_addRoute now d' nh darg rt d e He) as (e1 & He1 & Hle1).
    destruct (IH _ e1 Hacts He1) as (e2 & He2 & Hle2).
    exists e2. split; [exact He2 | lia].
Qed.

Lemma addRoute_distance_never_grows_witness :
  exists e',
    routes (perform_all [AddRoute 1 "b" "x" (Some 5); AddRoute 2 "b" "y" (Some 2);
                         AddRoute 3 "q" "y" None] table1) !! "b" = Some e'
    /\ distance e' <= 3.
Proof.
  exact (addRoute_distance_never_grows
           [AddRoute 1 "b" "x" (Some 5); AddRoute 2 "b" "y" (Some 2);
            AddRoute 3 "q" "y" None] table1 "b" _ eq_refl table1_b).
Defined.

Lemma routing_table_never_routes_to_self_witness :
  let rt := perform_all [AddRoute 1 "n1" "x" None; AddRoute 2 "b" "c" (Some 2);
                         GetRoute 9 "b"; Cleanup 10] (new "n1" None) in
  routes rt !! "n1" = None
  /\ destination {| destination := "b"; nextHop := "c"; distance := 2; timestamp := 2 |}
     = "b"
  /\ "b" <> "n1".
Proof.
  intros rt.
  destruct (routing_table_never_routes_to_self "n1" None
              [AddRoute 1 "n1" "x" None; AddRoute 2 "b" "c" (Some 2);
               GetRoute 9 "b"; Cleanup 10]) as [H1 H2].
  split; [exact H1|]. exact (H2 "b" _ eq_refl).
Defined.

Lemma cleanup_removes_exactly_expired_witness :
  routes (cleanup 300000 table1) !! "b"
  = Some {| destination := "b"; nextHop := "c"; distance := 3; timestamp := 0 |}.
Proof.
  apply (proj1 (cleanup_removes_exactly_expired table1 300000 "b")).
  split; [exact table1_b | by_evaluation].
Defined.

End RoutingTableInvariants.

(** ** FlowController: what the counter and the paused flag keep *)

Section FlowControllerMore.

Import FlowController.
Local Open Scope Q_scope.

Lemma step_config c fc : config (snd (step c fc)) = config fc.
Proof.
  destruct c as [n|n]; simpl; [apply write_config|].
  unfold drain. simpl. destruct (paused fc && _); reflexivity.
Qed.

Lemma after_config cs fc : config (after cs fc) = config fc.
Proof.
  unfold after. revert fc. induction cs as [|c cs IH]; intros fc; simpl; [reflexivity|].
  rewrite IH. apply step_config.
Qed.

Lemma Qmax_0_nonneg x : 0 <= Qmax 0 x.
Proof. apply Q.le_max_l. Qed.

Lemma step_buffer_nonneg c fc :
  size_ok c = true -> 0 <= bufferSize fc -> 0 <= bufferSize (snd (step c fc)).
Proof.
  destruct c as [n|n]; simpl; intros Hn Hb.
  - rewrite write_buffer. apply Qle_bool_iff in Hn. lra.
  - rewrite drain_buffer. apply Qmax_0_nonneg.
Qed.

(** X6: the buffered-byte counter never goes below zero.  A drain floors
    it at 0 whatever is drained (draining at least what is buffered
    leaves 0), and over any sequence of writes and drains with
    non-negative sizes, from a non-negative counter, it stays
    non-negative. *)
Theorem flow_buffer_never_negative (fc : t) :
  (forall n, 0 <= bufferSize (snd (drain n fc)))
  /\ (forall n, bufferSize fc <= n -> bufferSize (snd (drain n fc)) == 0)
  /\ (forall cs, forallb size_ok cs = true -> 0 <= bufferSize fc ->
        0 <= bufferSize (after cs fc)).
Proof.
  split; [intros n; rewrite drain_buffer; apply Qmax_0_nonneg|].
  split.
  - intros n Hn. rewrite drain_buffer. apply Q.max_l. lra.
  - intros cs. unfold after. revert fc.
    induction cs as [|c cs IH]; intros fc Hcs Hb; simpl; [exact Hb|].
    simpl in Hcs. apply andb_true_iff in Hcs. destruct Hcs as [Hc Hcs].
    apply IH; [exact Hcs | apply step_buffer_nonneg; assumption].
Qed.

Lemma flow_buffer_never_negative_witness :
  bufferSize (snd (drain 500 (snd (write 90 small)))) == 0
  /\ 0 <= bufferSize (after [Write 90; Drain 500; Write 7] small).
Proof.
  destruct (flow_buffer_never_negative (snd (write 90 small))) as (_ & H2 & _).
  destruct (flow_buffer_never_negative small) as (_ & _ & H3).
  split; [apply H2; by_evaluation | apply H3; by_evaluation].
Defined.

Lemma step_within_high c fc :
  0 <= highThreshold fc -> lowThreshold fc <= highThreshold fc ->
  drain_size_ok c = true ->
  (paused fc = false -> bufferSize fc <= highThreshold fc) ->
  paused (snd (step c fc)) = false ->
  bufferSize (snd (step c fc)) <= highThreshold fc.
Proof.
  intros Hh Hlh Hc Hinv. destruct c as [n|n]; simpl.
  - intros Hp. rewrite write_buffer.
    destruct (Qlt_le_dec (highThreshold fc) (bufferSize fc + n)) as [Hgt|Hle];
      [|exact Hle].
    assert (Hp' : paused (snd (write n fc)) = true)
      by (apply write_paused; right; exact Hgt).
    congruence.
  - simpl in Hc. apply Qle_bool_iff in Hc. intros Hp.
    destruct (paused fc) eqn:Ep.
    + assert (Hr : resumes fc (snd (drain n fc))) by (split; assumption).
      apply drain_resumes in Hr. destruct Hr as [_ Hr]. lra.
    + rewrite drain_buffer. specialize (Hinv eq_refl).
      apply Q.max_lub; lra.
Qed.

(** X7: when the high mark is not negative and the low mark is not above
    it, a controller that starts within the high mark (or paused) is
    within the high mark whenever it is not paused, after any sequence
    of writes and of drains of non-negative sizes: a counter above the
    high mark is always accompanied by the paused flag. *)
Theorem flow_not_paused_within_high_mark (cs : list call) (fc : t) :
  0 <= highThreshold fc -> lowThreshold fc <= highThreshold fc ->
  forallb drain_size_ok cs = true ->
  (paused fc = false -> bufferSize fc <= highThreshold fc) ->
  paused (after cs fc) = false ->
  bufferSize (after cs fc) <= highThreshold fc.
Proof.
  unfold after. revert fc.
  induction cs as [|c cs IH]; intros fc Hh Hlh Hcs Hinv; simpl; [exact Hinv|].
  simpl in Hcs. apply andb_true_iff in Hcs. destruct Hcs as [Hc Hcs].
  assert (Ecfg : highThreshold (snd (step c fc)) = highThreshold fc
                 /\ lowThreshold (snd (step c fc)) = lowThreshold fc)
    by (unfold highThreshold, lowThreshold; rewrite step_config; split; reflexivity).
  destruct Ecfg as [Eh El]. rewrite <- Eh.
  apply IH; [rewrite Eh; exact Hh | rewrite Eh, El; exact Hlh | exact Hcs |].
  rewrite Eh. apply step_within_high; assumption.
Qed.

Lemma flow_not_paused_within_high_mark_witness :
  bufferSize (after [Write 50; Write 40; Drain 75; Write 20] small)
  <= highThreshold small.
Proof.
  apply (flow_not_paused_within_high_mark
           [Write 50; Write 40; Drain 75; Write 20] small);
    by_evaluation.
Defined.

End FlowControllerMore.

(** ** StateStore: versions, undefined values, listeners *)

Section StateStoreMore.

Import StateStore.

Lemma consistent_setState now k v s : consistent s -> consistent (setState now k v s).
Proof.
  intros (Hd & Hv & Hl). unfold setState. split; [|split]; simpl.
  - intros k'. rewrite !lookup_insert. case_decide; [split; discriminate | apply Hd].
  - intros k' n. rewrite lookup_insert. case_decide; [intros [= <-]; lia | apply Hv].
  - exact Hl.
Qed.

Lemma consistent_deleteState now k s : consistent s -> consistent (deleteState now k s).
Proof.
  intros (Hd & Hv & Hl). unfold deleteState.
  assert (G : consistent
            {| state := delete k (state s); listeners := listeners s;
               version := delete k (version s); nodeId := nodeId s;
               delivered := delivered s |}).
  { split; [|split]; simpl.
    - intros k'. rewrite !lookup_delete. case_decide; [tauto | apply Hd].
    - intros k' n. rewrite lookup_delete. case_decide; [discriminate | apply Hv].
    - exact Hl. }
  destruct (js_get (state s) k); try exact G. split; [|split]; assumption.
Qed.

Lemma NoDup_filter_ne (l : nat) ls :
  List.NoDup ls -> List.NoDup (filter (fun l' => l' ≠ l) ls).
Proof. intros H. apply NoDup_ListNoDup, NoDup_filter, NoDup_ListNoDup, H. Qed.

Lemma consistent_perform a s : consistent s -> consistent (perform a s).
Proof.
  intros H. destruct a as [now k v | now k | now c | l | l |]; simpl.
  - apply consistent_setState, H.
  - apply consistent_deleteState, H.
  - unfold applyRemoteChange. destruct (timestamp c >? now - 60000)%Z; simpl;
      [apply consistent_setState, H | exact H].
  - destruct H as (Hd & Hv & Hl). split; [exact Hd|]. split; [exact Hv|]. simpl.
    case_bool_decide as Hin; [exact Hl|].
    apply NoDup_ListNoDup, NoDup_app. split; [apply NoDup_ListNoDup, Hl|].
    split; [|apply NoDup_singleton].
    intros x Hx Hx'. apply list_elem_of_singleton in Hx'. subst x. contradiction.
  - destruct H as (Hd & Hv & Hl). split; [exact Hd|]. split; [exact Hv|]. simpl.
    apply NoDup_filter_ne, Hl.
  - destruct H as (_ & _ & Hl). split; [|split]; simpl; [| |exact Hl].
    + intros k. rewrite !lookup_empty. tauto.
    + intros k n. rewrite lookup_empty. discriminate.
Qed.

Lemma consistent_perform_all acts s : consistent s -> consistent (perform_all acts s).
Proof.
  unfold perform_all. revert s.
  induction acts as [|a acts IH]; intros s H; simpl; [exact H|].
  apply IH, consistent_perform, H.
Qed.

Lemma consistent_new n : consistent (new n).
Proof.
  split; [|split]; simpl.
  - intros k. rewrite !lookup_empty. tauto.
  - intros k m. rewrite lookup_empty. discriminate.
  - constructor.
Qed.

(** X8: in a store reached from a new one by any sequence of setState,
    deleteState, applyRemoteChange, onChange, unsubscribe and clear
    calls, a key has a value exactly when it has a version counter, and
    every counter is at least 1; so getStateWithVersion never reports
    version 0, and what it reports is the stored counter. *)
Theorem store_versions_follow_values (n : string) (acts : list action) (k : string) :
  let s := perform_all acts (new n) in
  (state s !! k = None <-> version s !! k = None)
  /\ (forall v m, getStateWithVersion k s = Some (v, m) ->
        getState k s = v /\ version s !! k = Some m /\ 1 <= m).
Proof.
  intros s.
  destruct (consistent_perform_all acts (new n) (consistent_new n)) as (Hd & Hv & _).
  fold s in Hd, Hv. split; [apply Hd|].
  intros v m. unfold getStateWithVersion, getState, js_get, version_or_0.
  destruct (state s !! k) as [x|] eqn:Ex; simpl; [|discriminate].
  destruct (version s !! k) as [m'|] eqn:Em.
  - simpl. pose proof (Hv k m' Em).
    destruct x; intros [= <- <-]; auto.
  - apply Hd in Em. congruence.
Qed.

Lemma store_versions_follow_values_witness :
  getState "key1" (perform_all [ASet 0 "key1" (VStr "a"); ADelete 1 "key1";
                                ASet 2 "key1" (VStr "b"); ASet 3 "key1" (VStr "c")]
                     (new "node-1")) = VStr "c"
  /\ version (perform_all [ASet 0 "key1" (VStr "a"); ADelete 1 "key1";
                           ASet 2 "key1" (VStr "b"); ASet 3 "key1" (VStr "c")]
                (new "node-1")) !! "key1" = Some 2.
Proof.
  destruct (store_versions_follow_values "node-1"
              [ASet 0 "key1" (VStr "a"); ADelete 1 "key1";
               ASet 2 "key1" (VStr "b"); ASet 3 "key1" (VStr "c")] "key1")
    as [_ H].
  destruct (H (VStr "c") 2 eq_refl) as (H1 & H2 & _).
  split; [exact H1 | exact H2].
Defined.

(** X9: undefined is a value the store cannot tell from absence.  After
    setState(k, undefined) the key is stored and counted by getSize and
    its version is bumped, but getState answers undefined,
    getStateWithVersion answers nothing, and deleteState leaves the store
    as it is, entry included. *)
Theorem setState_undefined_cannot_be_deleted (s : t) (now now' : Z) (k : string) :
  let s' := setState now k VUndefined s in
  state s' !! k = Some VUndefined
  /\ version s' !! k = Some (S (version_or_0 s k))
  /\ getState k s' = VUndefined
  /\ getStateWithVersion k s' = None
  /\ deleteState now' k s' = s'
  /\ (state s !! k = None -> getSize s' = S (getSize s)).
Proof.
  intros s'.
  assert (Hs : state s' !! k = Some VUndefined) by (simpl; apply lookup_insert_eq).
  assert (Hg : js_get (state s') k = VUndefined) by (unfold js_get; rewrite Hs; reflexivity).
  split; [exact Hs|]. split; [apply version_setState|].
  split; [exact Hg|].
  split; [unfold getStateWithVersion; rewrite Hg; reflexivity|].
  split; [unfold deleteState; rewrite Hg; reflexivity|].
  intros Hnone. unfold getSize. simpl. apply map_size_insert_None. exact Hnone.
Qed.

Lemma setState_undefined_cannot_be_deleted_witness :
  getSize (setState 5 "k" VUndefined store1) = S (getSize store1).
Proof.
  apply (setState_undefined_cannot_be_deleted store1 5 6 "k"). reflexivity.
Defined.

End StateStoreMore.

Section StateStoreListeners.

Import StateStore.

Lemma hits_notin (l : nat) (ch : StateChange) ls :
  ~ In l ls ->
  List.filter (fun p : nat * StateChange => Nat.eqb (fst p) l)
    (map (fun l' => (l', ch)) ls) = [].
Proof.
  induction ls as [|x ls IH]; simpl; [reflexivity|].
  intros H. destruct (Nat.eqb_spec x l) as [E|E]; [exfalso; apply H; left; exact E|].
  apply IH. intros Hin. apply H. right. exact Hin.
Qed.

Lemma hits_once (l : nat) (ch : StateChange) ls :
  List.NoDup ls -> In l ls ->
  List.filter (fun p : nat * StateChange => Nat.eqb (fst p) l)
    (map (fun l' => (l', ch)) ls) = [(l, ch)].
Proof.
  induction ls as [|x ls IH]; simpl; [intros _ []|].
  intros Hnd Hin. inversion Hnd as [|? ? Hx Hnd']; subst.
  destruct (Nat.eqb_spec x l) as [E|E].
  - subst x. rewrite hits_notin by exact Hx. reflexivity.
  - destruct Hin as [Hin|Hin]; [contradiction|]. exact (IH Hnd' Hin).
Qed.

Lemma received_notify l ch s :
  List.NoDup (listeners s) ->
  received l (notifyListeners ch s) =
  if bool_decide (l ∈ listeners s) then ch :: received l s else received l s.
Proof.
  intros Hnd. unfold received, notifyListeners. simpl.
  rewrite List.filter_app, map_app, List.filter_rev.
  case_bool_decide as Hin; rewrite list_elem_of_In in Hin.
  - rewrite (hits_once l ch _ Hnd Hin). reflexivity.
  - rewrite (hits_notin l ch _ Hin). reflexivity.
Qed.

(** X10: every subscribed listener is called exactly once per accepted
    write, and what it is told names the local node as the source: for a
    setState the record carries the previous value, the new value and the
    time of the call; for an accepted remote change it is the record of
    the local setState, so the remote source and the remote timestamp
    are not passed on.  A rejected remote change and a deleteState of a
    key without a value call nobody. *)
Theorem listeners_told_local_source (s : t) (now : Z) (l : nat) :
  List.NoDup (listeners s) ->
  (forall k v,
     received l (setState now k v s) =
     if bool_decide (l ∈ listeners s)
     then {| key := k; oldValue := getState k s; newValue := v;
             timestamp := now; source := nodeId s |} :: received l s
     else received l s)
  /\ (forall c, fst (applyRemoteChange now c s) = true ->
        received l (snd (applyRemoteChange now c s)) =
        if bool_decide (l ∈ listeners s)
        then {| key := key c; oldValue := getState (key c) s; newValue := newValue c;
                timestamp := now; source := nodeId s |} :: received l s
        else received l s)
  /\ (forall c, fst (applyRemoteChange now c s) = false ->
        received l (snd (applyRemoteChange now c s)) = received l s)
  /\ (forall k, getState k s = VUndefined ->
        received l (deleteState now k s) = received l s).
Proof.
  intros Hnd.
  assert (Hset : forall k v,
     received l (setState now k v s) =
     if bool_decide (l ∈ listeners s)
     then {| key := k; oldValue := getState k s; newValue := v;
             timestamp := now; source := nodeId s |} :: received l s
     else received l s).
  { intros k v. unfold setState. rewrite received_notify by exact Hnd. reflexivity. }
  split; [exact Hset|]. split; [|split].
  - intros c. unfold applyRemoteChange.
    destruct (timestamp c >? now - 60000)%Z; simpl; [|discriminate].
    intros _. apply Hset.
  - intros c. unfold applyRemoteChange.
    destruct (timestamp c >? now - 60000)%Z; simpl; [discriminate | reflexivity].
  - intros k Hk. rewrite deleteState_undefined by exact Hk. reflexivity.
Qed.

Lemma listeners_told_local_source_witness :
  received 7 (snd (applyRemoteChange 100000 remote1 (onChange 7 (onChange 7 store1))))
  = [ {| key := "key1"; oldValue := VStr "value1"; newValue := VStr "remote-value";
         timestamp := 100000; source := "node-1" |} ].
Proof.
  assert (Hnd : List.NoDup (listeners (onChange 7 (onChange 7 store1))))
    by (repeat constructor; simpl; tauto).
  destruct (listeners_told_local_source (onChange 7 (onChange 7 store1)) 100000 7 Hnd)
    as (_ & H & _).
  rewrite (H remote1 eq_refl). reflexivity.
Defined.

Lemma received_perform l a s :
  List.NoDup (listeners s) -> ~ In l (listeners s) -> subscribes l a = false ->
  received l (perform a s) = received l s
  /\ ~ In l (listeners (perform a s)).
Proof.
  intros Hnd Hl Ha.
  assert (Hset : forall now k v, received l (setState now k v s) = received l s).
  { intros now k v. unfold setState. rewrite received_notify by exact Hnd.
    rewrite bool_decide_eq_false_2 by (rewrite list_elem_of_In; exact Hl). reflexivity. }
  destruct a as [now k v | now k | now c | l' | l' |]; simpl.
  - split; [apply Hset | exact Hl].
  - unfold deleteState. destruct (js_get (state s) k) eqn:E;
      try (split; [rewrite received_notify by exact Hnd;
                   rewrite bool_decide_eq_false_2 by (rewrite list_elem_of_In; exact Hl);
                   reflexivity
                  | exact Hl]).
    split; [reflexivity | exact Hl].
  - unfold applyRemoteChange. destruct (timestamp c >? now - 60000)%Z; simpl;
      split; (apply Hset || exact Hl || reflexivity).
  - split; [reflexivity|]. simpl in Ha. apply Nat.eqb_neq in Ha.
    case_bool_decide; [exact Hl|].
    intros Hin. apply in_app_or in Hin. destruct Hin as [Hin | [Hin | []]];
      [contradiction | congruence].
  - split; [reflexivity|]. simpl. intros Hin. apply list_elem_of_In in Hin.
    apply list_elem_of_filter in Hin. destruct Hin as [_ Hin].
    apply Hl, list_elem_of_In, Hin.
  - split; [reflexivity | exact Hl].
Qed.

(** X11: after unsubscribe a listener is not called again, whatever
    calls follow, until it is subscribed again. *)
Theorem unsubscribed_listener_not_called (s : t) (l : nat) (acts : list action) :
  consistent s -> forallb (fun a => negb (subscribes l a)) acts = true ->
  received l (perform_all acts (unsubscribe l s)) = received l s.
Proof.
  intros Hs Hacts.
  assert (G : forall acts s0, consistent s0 -> ~ In l (listeners s0) ->
              forallb (fun a => negb (subscribes l a)) acts = true ->
              received l (perform_all acts s0) = received l s0).
  { clear. unfold perform_all. induction acts as [|a acts IH]; intros s0 Hc Hl Ha; simpl;
      [reflexivity|].
    simpl in Ha. apply andb_true_iff in Ha. destruct Ha as [Ha Hacts].
    apply negb_true_iff in Ha.
    destruct (received_perform l a s0 (proj2 (proj2 Hc)) Hl Ha) as [Hr Hl'].
    rewrite (IH _ (consistent_perform a s0 Hc) Hl' Hacts). exact Hr. }
  rewrite G; [reflexivity | exact (consistent_perform (AUnsubscribe l) s Hs) | | exact Hacts].
  simpl. intros Hin. apply list_elem_of_In, list_elem_of_filter in Hin.
  destruct Hin as [Hne _]. congruence.
Qed.

Lemma unsubscribed_listener_not_called_witness :
  received 7 (perform_all [ASet 9 "k" VNull; ASubscribe 8; ADelete 10 "k"]
                (unsubscribe 7 (setState 5 "key1" VNull (onChange 7 store1))))
  = received 7 (setState 5 "key1" VNull (onChange 7 store1)).
Proof.
  apply unsubscribed_listener_not_called; [|reflexivity].
  apply (consistent_perform_all [ASet 0 "key1" (VStr "value1"); ASubscribe 7;
                                 ASet 5 "key1" VNull] (new "node-1")).
  apply consistent_new.
Defined.

End StateStoreListeners.

(** ** ReputationTracker: reads, counters, failures and bounds *)

Section ReputationTrackerMore.

Import ReputationTracker.
Local Open Scope Q_scope.

Lemma shouldQuarantine_present now id (r : t) rec :
  r !! id = Some rec ->
  fst (shouldQuarantine now id r) = num_ltb (score rec) (Finite (3 # 10))
  /\ snd (shouldQuarantine now id r) = r
  /\ getScore now id r = (score rec, r).
Proof.
  intros Hrec. unfold shouldQuarantine, getScore.
  rewrite (getOrCreateRecord_present now id r rec Hrec).
  split; [reflexivity|]. split; reflexivity.
Qed.

(** X12: shouldQuarantine answers true exactly when the agent's stored
    score is strictly below 0.3 (so never for a stored NaN), and then
    leaves the tracker as it is.  For an agent without a record it
    answers false, and the question itself creates the record:
    afterwards the agent is stored with score 1 and both counters 0
    (getScore does the same and answers 1). *)
Theorem shouldQuarantine_below_threshold (r : t) (now : Z) (id : string) :
  (forall rec, r !! id = Some rec ->
     fst (shouldQuarantine now id r) = num_ltb (score rec) (Finite (3 # 10))
     /\ (forall q, score rec = Finite q ->
           (fst (shouldQuarantine now id r) = true <-> q < 3 # 10))
     /\ (score rec = NaN -> fst (shouldQuarantine now id r) = false)
     /\ snd (shouldQuarantine now id r) = r
     /\ getScore now id r = (score rec, r))
  /\ (r !! id = None ->
      fst (shouldQuarantine now id r) = false
      /\ fst (getScore now id r) = Finite 1
      /\ getReputation id (snd (shouldQuarantine now id r)) =
           Some {| agentId := id; score := Finite 1; successCount := 0;
                   failureCount := 0; lastUpdated := now |}
      /\ snd (getScore now id r) = snd (shouldQuarantine now id r)).
Proof.
  split.
  - intros rec Hrec.
    destruct (shouldQuarantine_present now id r rec Hrec) as (Hq & Hs & Hg).
    split; [exact Hq|].
    split; [intros q Hsc; rewrite Hq, Hsc; apply Qltb_lt|].
    split; [intros Hsc; rewrite Hq, Hsc; reflexivity|].
    split; [exact Hs | exact Hg].
  - unfold shouldQuarantine, getScore.
    intros Hnone. rewrite (getOrCreateRecord_absent now id r Hnone). simpl.
    split; [reflexivity|]. split; [reflexivity|]. split; [|reflexivity].
    unfold getReputation. rewrite (initializeAgent_absent now id None r Hnone).
    rewrite lookup_insert_eq. reflexivity.
Qed.

Lemma shouldQuarantine_below_threshold_witness :
  fst (shouldQuarantine 9 "a1" (fail_times 1 "a1" 2 tracker1)) = true
  /\ fst (shouldQuarantine 9 "zz" tracker1) = false
  /\ getReputation "zz" (snd (shouldQuarantine 9 "zz" tracker1)) =
       Some {| agentId := "zz"; score := Finite 1; successCount := 0;
               failureCount := 0; lastUpdated := 9 |}.
Proof.
  destruct (shouldQuarantine_below_threshold (fail_times 1 "a1" 2 tracker1) 9 "a1")
    as [H1 _].
  destruct (shouldQuarantine_below_threshold tracker1 9 "zz") as [_ H2].
  destruct (H1 _ eq_refl) as (_ & Hq & _). destruct (H2 eq_refl) as (Hf & _ & Hr & _).
  split; [apply (Hq _ eq_refl); by_evaluation|]. split; [exact Hf | exact Hr].
Defined.

Lemma counters_initializeAgent now id' s0 (r : t) id :
  successes_of id (initializeAgent now id' s0 r) = successes_of id r
  /\ failures_of id (initializeAgent now id' s0 r) = failures_of id r.
Proof.
  unfold successes_of, failures_of, initializeAgent.
  destruct (r !! id') as [rec|] eqn:E; [split; reflexivity|].
  rewrite lookup_insert. case_decide as Ed; [|split; reflexivity].
  subst id'. rewrite E. split; reflexivity.
Qed.

Lemma counters_getOrCreateRecord now id' (r : t) id :
  successes_of id (snd (getOrCreateRecord now id' r)) = successes_of id r
  /\ failures_of id (snd (getOrCreateRecord now id' r)) = failures_of id r
  /\ successCount (fst (getOrCreateRecord now id' r)) = successes_of id' r
  /\ failureCount (fst (getOrCreateRecord now id' r)) = failures_of id' r.
Proof.
  destruct (r !! id') as [rec|] eqn:E.
  - rewrite (getOrCreateRecord_present now id' r rec E). simpl.
    unfold successes_of, failures_of. rewrite E. repeat split; reflexivity.
  - rewrite (getOrCreateRecord_absent now id' r E). simpl.
    destruct (counters_initializeAgent now id' None r id) as [H1 H2].
    unfold successes_of, failures_of in *. rewrite E. repeat split; assumption.
Qed.

Lemma counters_apply_op now o (r : t) id :
  successes_of id (apply_op now o r)
    = (successes_of id r + if is_success id (now, o) then 1 else 0)%nat
  /\ failures_of id (apply_op now o r)
    = (failures_of id r + if is_failure id (now, o) then 1 else 0)%nat.
Proof.
  destruct o as [id' s0 | id' | id']; unfold is_success, is_failure; simpl.
  - destruct (counters_initializeAgent now id' s0 r id) as [H1 H2].
    rewrite H1, H2. split; lia.
  - destruct (counters_getOrCreateRecord now id' r id) as (H1 & H2 & H3 & H4).
    unfold recordSuccess. destruct (getOrCreateRecord now id' r) as [rec r1].
    simpl in *. unfold successes_of, failures_of in *. rewrite !lookup_insert.
    destruct (String.eqb_spec id' id) as [->|Hne].
    + rewrite decide_True by reflexivity. simpl. split; lia.
    + rewrite decide_False by exact Hne. split; lia.
  - destruct (counters_getOrCreateRecord now id' r id) as (H1 & H2 & H3 & H4).
    unfold recordFailure. destruct (getOrCreateRecord now id' r) as [rec r1].
    simpl in *. unfold successes_of, failures_of in *. rewrite !lookup_insert.
    destruct (String.eqb_spec id' id) as [->|Hne].
    + rewrite decide_True by reflexivity. simpl. split; lia.
    + rewrite decide_False by exact Hne. split; lia.
Qed.

(** X13: the counters count.  After any history of initializeAgent,
    recordSuccess and recordFailure calls, the successCount stored for an
    agent has grown by the number of recordSuccess calls made for it, and
    its failureCount by the number of recordFailure calls; calls for
    other agents do not touch them.  On a new tracker the counters are
    these numbers. *)
Theorem reputation_counters_count (os : list (Z * op)) (r : t) (id : string) :
  successes_of id (run os r) = (successes_of id r + recorded_successes id os)%nat
  /\ failures_of id (run os r) = (failures_of id r + recorded_failures id os)%nat
  /\ successes_of id (run os ∅) = recorded_successes id os
  /\ failures_of id (run os ∅) = recorded_failures id os.
Proof.
  assert (G : forall os r,
            successes_of id (run os r) = (successes_of id r + recorded_successes id os)%nat
            /\ failures_of id (run os r) = (failures_of id r + recorded_failures id os)%nat).
  { clear. unfold recorded_successes, recorded_failures.
    induction os as [|[now o] os IH]; intros r; simpl; [split; lia|].
    destruct (IH (apply_op now o r)) as [H1 H2].
    destruct (counters_apply_op now o r id) as [H3 H4].
    rewrite H1, H2, H3, H4.
    destruct (is_success id (now, o)), (is_failure id (now, o)); simpl; split; lia. }
  destruct (G os r) as [H1 H2]. destruct (G os ∅) as [H3 H4].
  split; [exact H1|]. split; [exact H2|]. split; [exact H3 | exact H4].
Qed.

End ReputationTrackerMore.

Section ReputationBounds.

Import ReputationTracker.
Local Open Scope Q_scope.

Lemma recordFailure_step q :
  0 <= q ->
  exists q', Math_max (Finite 0) (num_sub (Finite q) (Finite (2 # 10))) = Finite q'
    /\ 0 <= q' /\ q' <= q /\ (0 < q -> q' < q).
Proof.
  intros Hq. simpl num_sub. rewrite Math_max_finite.
  eexists. split; [reflexivity|].
  destruct (Qltb 0 (q - (2 # 10))) eqn:E.
  - apply Qltb_lt in E. repeat split; intros; lra.
  - repeat split; intros; lra.
Qed.

Lemma fail_times_score now id rec q n (r : t) :
  r !! id = Some rec -> score rec = Finite q -> 0 <= q ->
  exists rec' q', fail_times now id n r !! id = Some rec'
    /\ score rec' = Finite q' /\ 0 <= q' /\ q' <= q
    /\ (0 < q -> (1 <= n)%nat -> q' < q)
    /\ failureCount rec' = (failureCount rec + n)%nat
    /\ successCount rec' = successCount rec.
Proof.
  intros Hrec Hsc Hq. induction n as [|n IH].
  - exists rec, q. split; [exact Hrec|]. split; [exact Hsc|].
    split; [exact Hq|]. split; [lra|]. split; [lia|]. split; [lia | reflexivity].
  - destruct IH as (rec1 & q1 & H1 & Hs1 & H0 & Hle & Hlt & Hf1 & Hc1).
    unfold fail_times in *. simpl.
    pose proof (recordFailure_present now id _ rec1 H1) as Hf.
    destruct (recordFailure_step q1 H0) as (q2 & E2 & H20 & H21 & H22).
    eexists. exists q2. split; [exact Hf|]. simpl.
    split; [rewrite Hs1; exact E2|].
    split; [exact H20|]. split; [lra|].
    split; [|split; [lia | exact Hc1]].
    intros Hpos _. destruct n as [|n].
    + assert (q1 <= q /\ q <= q1) as [_ Hge].
      { split; [exact Hle|].
        simpl in H1. rewrite Hrec in H1. injection H1 as <-.
        rewrite Hsc in Hs1. injection Hs1 as <-. lra. }
      assert (0 < q1) by lra. specialize (H22 H). lra.
    + assert (q1 < q) by (apply Hlt; [exact Hpos | lia]). lra.
Qed.

(** X14: failures never help.  After n recordFailure calls in a row for
    an agent whose stored score is a finite s >= 0, the stored score is a
    finite s' with 0 <= s' <= s, and s' < s when 0 < s <= 1 and n >= 1;
    the failure counter has grown by n and the success counter is as it
    was; and an agent for which shouldQuarantine answered true before the
    failures gets the same answer after them. *)
Theorem failures_never_raise_score (r : t) (now now' : Z) (id : string)
    (rec : ReputationRecord) (q : Q) (n : nat) :
  r !! id = Some rec -> score rec = Finite q -> 0 <= q ->
  exists rec' q',
    fail_times now id n r !! id = Some rec'
    /\ score rec' = Finite q' /\ 0 <= q' /\ q' <= q
    /\ (0 < q -> q <= 1 -> (1 <= n)%nat -> q' < q)
    /\ failureCount rec' = (failureCount rec + n)%nat
    /\ successCount rec' = successCount rec
    /\ (fst (shouldQuarantine now' id r) = true ->
        fst (shouldQuarantine now' id (fail_times now id n r)) = true).
Proof.
  intros Hrec Hsc Hq.
  destruct (fail_times_score now id rec q n r Hrec Hsc Hq)
    as (rec' & q' & H1 & H2 & H3 & H4 & H5 & H6 & H7).
  exists rec', q'.
  split; [exact H1|]. split; [exact H2|]. split; [exact H3|].
  split; [exact H4|]. split; [intros Hpos _; exact (H5 Hpos)|].
  split; [exact H6|]. split; [exact H7|].
  intros Hdue.
  destruct (shouldQuarantine_present now' id r rec Hrec) as [Hb0 _].
  rewrite Hb0, Hsc in Hdue. apply Qltb_lt in Hdue.
  destruct (shouldQuarantine_present now' id (fail_times now id n r) rec' H1)
    as [Hb _].
  rewrite Hb, H2. apply Qltb_lt. lra.
Qed.

Lemma failures_never_raise_score_witness :
  exists rec' q',
    fail_times 1 "a1" 3 tracker1 !! "a1" = Some rec'
    /\ score rec' = Finite q' /\ 0 <= q' /\ q' <= 1 # 2
    /\ failureCount rec' = 3%nat.
Proof.
  assert (Ha : tracker1 !! "a1" =
               Some {| agentId := "a1"; score := Finite (1 # 2); successCount := 0;
                       failureCount := 0; lastUpdated := 0 |}) by reflexivity.
  destruct (failures_never_raise_score tracker1 1 9 "a1" _ (1 # 2) 3 Ha eq_refl)
    as (rec' & q' & H1 & H2 & H3 & H4 & _ & H6 & _); [by_evaluation|].
  exists rec', q'. repeat split; assumption.
Defined.

(** X20: for every argument but NaN the tracker keeps its scores in
    [0,1].  For an agent with a stored record recordSuccess stores
    Math.min(1, s + 0.1) and raises successCount by one, and
    recordFailure stores Math.max(0, s - 0.2) and raises failureCount by
    one.  initializeAgent of an agent with no record stores 1
    for +Infinity, 0 for -Infinity and max(0, min(1, s0)) for a finite
    s0, and leaves an existing record as it is.  After every history in
    which initializeAgent is never handed NaN, run on a new tracker or on
    one whose scores lie in [0,1], every stored score lies in [0,1]. *)
Theorem scores_stay_in_unit_interval (r : t) (now : Z) (id : string) :
  (forall rec, r !! id = Some rec ->
     recordSuccess now id r !! id =
       Some {| agentId := agentId rec;
               score := Math_min (Finite 1) (num_add (score rec) (Finite (1 # 10)));
               successCount := S (successCount rec);
               failureCount := failureCount rec;
               lastUpdated := now |}
     /\ recordFailure now id r !! id =
       Some {| agentId := agentId rec;
               score := Math_max (Finite 0) (num_sub (score rec) (Finite (2 # 10)));
               successCount := successCount rec;
               failureCount := S (failureCount rec);
               lastUpdated := now |})
  /\ (r !! id = None ->
      stored id (initializeAgent now id (Some PosInfinity) r) = Some (Finite 1)
      /\ stored id (initializeAgent now id (Some NegInfinity) r) = Some (Finite 0)
      /\ stored id (initializeAgent now id None r) = Some (Finite 1)
      /\ (forall q, exists q',
            stored id (initializeAgent now id (Some (Finite q)) r) = Some (Finite q')
            /\ q' == Qmax 0 (Qmin 1 q)))
  /\ (forall s0 rec, r !! id = Some rec -> initializeAgent now id s0 r = r)
  /\ (forall os, forallb (fun o => negb (passes_NaN o)) os = true ->
        scores_bounded (run os ∅))
  /\ (forall os, forallb (fun o => negb (passes_NaN o)) os = true ->
        scores_bounded r -> scores_bounded (run os r)).
Proof.
  split.
  { intros rec Hrec.
    split; [exact (recordSuccess_present now id r rec Hrec)
           | exact (recordFailure_present now id r rec Hrec)]. }
  split.
  { intros Hnone. unfold stored.
    rewrite !(initializeAgent_absent now id _ r Hnone), !lookup_insert_eq.
    split; [reflexivity|]. split; [reflexivity|]. split; [reflexivity|].
    intros q. rewrite (initializeAgent_absent now id _ r Hnone), lookup_insert_eq.
    change (default (Finite 1) (Some (Finite q))) with (Finite q).
    rewrite Math_min_finite, Math_max_finite. cbn [fmap option_fmap option_map score].
    eexists. split; [reflexivity|].
    destruct (Qltb q 1) eqn:E1.
    - apply Qltb_lt in E1. rewrite (Q.min_r 1 q) by lra.
      destruct (Qltb 0 q) eqn:E0.
      + apply Qltb_lt in E0. symmetry. apply Q.max_r. lra.
      + apply Qltb_ge in E0. symmetry. apply Q.max_l. exact E0.
    - apply Qltb_ge in E1. rewrite (Q.min_l 1 q) by exact E1.
      reflexivity. }
  split.
  { intros s0 rec Hrec. exact (initializeAgent_present now id s0 r rec Hrec). }
  split.
  { intros os Hos. apply scores_bounded_run; [exact Hos | apply scores_bounded_empty]. }
  intros os Hos. apply scores_bounded_run. exact Hos.
Qed.

Lemma scores_stay_in_unit_interval_witness :
  stored "a9" (initializeAgent 1 "a9" (Some PosInfinity) tracker1) = Some (Finite 1)
  /\ initializeAgent 1 "a1" (Some (Finite 0)) tracker1 = tracker1
  /\ scores_bounded (run history1 ∅)
  /\ scores_bounded (run history1 tracker1).
Proof.
  destruct (scores_stay_in_unit_interval tracker1 1 "a9") as (_ & Hini & _ & He & _).
  destruct (scores_stay_in_unit_interval tracker1 1 "a1") as (_ & _ & Hkeep & _ & Hinv).
  split; [exact (proj1 (Hini eq_refl))|].
  split; [exact (Hkeep (Some (Finite 0)) _ eq_refl)|].
  split; [exact (He history1 eq_refl)|].
  apply (Hinv history1 eq_refl).
  apply (He [(0%Z, Initialize "a1" (Some (Finite (1 # 2))))] eq_refl).
Defined.

End ReputationBounds.

(** ** CapabilityIndex *)

Section CapabilityIndexProps.

Import CapabilityIndex.

Lemma set_add_In a l : In a (set_add a l).
Proof.
  unfold set_add. case_bool_decide as H.
  - apply list_elem_of_In, H.
  - apply in_or_app. right. left. reflexivity.
Qed.

Lemma set_add_idem a l : set_add a (set_add a l) = set_add a l.
Proof.
  unfold set_add at 1. rewrite bool_decide_eq_true_2; [reflexivity|].
  apply list_elem_of_In, set_add_In.
Qed.

Lemma set_add_NoDup a l : List.NoDup l -> List.NoDup (set_add a l).
Proof.
  intros H. unfold set_add. case_bool_decide as Hin; [exact H|].
  apply NoDup_ListNoDup, NoDup_app. split; [apply NoDup_ListNoDup, H|].
  split; [|apply NoDup_singleton].
  intros x Hx Hx'. apply list_elem_of_singleton in Hx'. subst x. contradiction.
Qed.

Lemma set_delete_idem a l : set_delete a (set_delete a l) = set_delete a l.
Proof.
  unfold set_delete. induction l as [|x l IH]; [reflexivity|].
  rewrite filter_cons. case_decide as E.
  - rewrite filter_cons, decide_True by exact E. rewrite IH. reflexivity.
  - exact IH.
Qed.

Lemma set_delete_notin a l : ~ In a l -> set_delete a l = l.
Proof.
  unfold set_delete. induction l as [|x l IH]; intros H; [reflexivity|].
  rewrite filter_cons, decide_True.
  - rewrite IH; [reflexivity|]. intros Hin. apply H. right. exact Hin.
  - intros ->. apply H. left. reflexivity.
Qed.

Lemma set_delete_add a l : ~ In a l -> set_delete a (set_add a l) = l.
Proof.
  intros H. unfold set_add. rewrite bool_decide_eq_false_2
    by (rewrite list_elem_of_In; exact H).
  unfold set_delete. rewrite filter_app, filter_cons, decide_False by congruence.
  fold (set_delete a l). rewrite set_delete_notin by exact H.
  rewrite filter_nil. apply app_nil_r.
Qed.

Lemma set_delete_In a b l : In b (set_delete a l) <-> In b l /\ b <> a.
Proof.
  unfold set_delete. rewrite <- !list_elem_of_In, list_elem_of_filter. tauto.
Qed.

Lemma pruned_idem a o : pruned a (pruned a o) = pruned a o.
Proof.
  destruct o as [l|]; [|reflexivity]. simpl.
  destruct (set_delete a l) as [|x l'] eqn:E; [reflexivity|].
  simpl. rewrite <- E, set_delete_idem, E. reflexivity.
Qed.

Lemma index_one_lookup a ci c n :
  index_one a ci c !! n = if decide (cap_name c = n) then listed a (ci !! n) else ci !! n.
Proof.
  unfold index_one, listed. case_decide as E.
  - subst n. rewrite lookup_insert_eq.
    destruct (ci !! cap_name c) as [l|] eqn:El; [rewrite El; reflexivity|].
    rewrite lookup_insert_eq. reflexivity.
  - rewrite lookup_insert_ne by exact E.
    destruct (ci !! cap_name c); [reflexivity|].
    rewrite lookup_insert_ne by exact E. reflexivity.
Qed.

Lemma index_lookup a caps ci n :
  fold_left (index_one a) caps ci !! n =
  if bool_decide (n ∈ names caps) then listed a (ci !! n) else ci !! n.
Proof.
  revert ci. induction caps as [|c caps IH]; intros ci; simpl; [reflexivity|].
  rewrite IH, index_one_lookup.
  destruct (decide (cap_name c = n)) as [E|E].
  - rewrite (bool_decide_eq_true_2 (n ∈ cap_name c :: names caps))
      by (subst n; apply list_elem_of_here).
    case_bool_decide; [|reflexivity].
    unfold listed. simpl. rewrite set_add_idem. reflexivity.
  - case_bool_decide as H1.
    + rewrite bool_decide_eq_true_2; [reflexivity|]. apply list_elem_of_further, H1.
    + rewrite bool_decide_eq_false_2; [reflexivity|].
      intros H. apply elem_of_cons in H. destruct H; congruence.
Qed.

Lemma remove_one_lookup a ci c n :
  remove_one a ci c !! n = if decide (cap_name c = n) then pruned a (ci !! n) else ci !! n.
Proof.
  unfold remove_one, pruned. case_decide as E.
  - subst n. destruct (ci !! cap_name c) as [l|] eqn:El; [|exact El].
    destruct (set_delete a l); [apply lookup_delete_eq | apply lookup_insert_eq].
  - destruct (ci !! cap_name c) as [l|]; [|reflexivity].
    destruct (set_delete a l);
      [apply lookup_delete_ne | apply lookup_insert_ne]; exact E.
Qed.

Lemma remove_lookup a caps ci n :
  fold_left (remove_one a) caps ci !! n =
  if bool_decide (n ∈ names caps) then pruned a (ci !! n) else ci !! n.
Proof.
  revert ci. induction caps as [|c caps IH]; intros ci; simpl; [reflexivity|].
  rewrite IH, remove_one_lookup.
  destruct (decide (cap_name c = n)) as [E|E].
  - rewrite (bool_decide_eq_true_2 (n ∈ cap_name c :: names caps))
      by (subst n; apply list_elem_of_here).
    case_bool_decide; [apply pruned_idem | reflexivity].
  - case_bool_decide as H1.
    + rewrite bool_decide_eq_true_2; [reflexivity|]. apply list_elem_of_further, H1.
    + rewrite bool_decide_eq_false_2; [reflexivity|].
      intros H. apply elem_of_cons in H. destruct H; congruence.
Qed.

(** X15: indexAgent lists the agent under each of its capability names,
    once however often the name occurs and whether or not the agent was
    listed before, keeps the agents already listed there, leaves the
    sets of all other names alone, and stores the capability list for
    getAgentCapabilities. *)
Theorem indexAgent_lists_agent (idx : t) (a : string) (caps : list AgentCapability)
    (n : string) :
  (In n (names caps) ->
   getAgentsWithCapability n (indexAgent a caps idx)
     = set_add a (getAgentsWithCapability n idx)
   /\ In a (getAgentsWithCapability n (indexAgent a caps idx))
   /\ forall b, In b (getAgentsWithCapability n idx) ->
                In b (getAgentsWithCapability n (indexAgent a caps idx)))
  /\ (~ In n (names caps) ->
      getAgentsWithCapability n (indexAgent a caps idx) = getAgentsWithCapability n idx)
  /\ getAgentCapabilities a (indexAgent a caps idx) = caps.
Proof.
  unfold getAgentsWithCapability, getAgentCapabilities, indexAgent. simpl.
  rewrite index_lookup, lookup_insert_eq. split; [|split; [|reflexivity]].
  - intros Hn. rewrite bool_decide_eq_true_2 by (apply list_elem_of_In, Hn). simpl.
    split; [reflexivity|]. split; [apply set_add_In|].
    intros b Hb. unfold set_add. case_bool_decide; [exact Hb|].
    apply in_or_app. left. exact Hb.
  - intros Hn. rewrite bool_decide_eq_false_2; [reflexivity|].
    rewrite list_elem_of_In. exact Hn.
Qed.

Lemma indexAgent_lists_agent_witness :
  getAgentsWithCapability "nlp"
    (indexAgent "a2" [cap "nlp"; cap "nlp"] (indexAgent "a1" [cap "nlp"; cap "ocr"] new))
  = ["a1"; "a2"]
  /\ getAgentsWithCapability "ocr"
       (indexAgent "a2" [cap "nlp"; cap "nlp"] (indexAgent "a1" [cap "nlp"; cap "ocr"] new))
     = ["a1"].
Proof.
  destruct (indexAgent_lists_agent (indexAgent "a1" [cap "nlp"; cap "ocr"] new)
              "a2" [cap "nlp"; cap "nlp"] "nlp") as [H1 _].
  destruct (indexAgent_lists_agent (indexAgent "a1" [cap "nlp"; cap "ocr"] new)
              "a2" [cap "nlp"; cap "nlp"] "ocr") as (_ & H2 & _).
  split.
  - rewrite (proj1 (H1 ltac:(left; reflexivity))). reflexivity.
  - rewrite H2; [reflexivity|]. intros [H|[H|[]]]; discriminate.
Defined.

(** X16: removeAgent undoes indexAgent.  When no capability is listed
    with an empty set and the agent is listed nowhere, indexing the agent
    and then removing it gives back the capability index as it was, with
    no capability left behind with an empty set, and the agent has no
    capabilities. *)
Theorem removeAgent_undoes_indexAgent (idx : t) (a : string)
    (caps : list AgentCapability) :
  (forall c agents, capabilityIndex idx !! c = Some agents -> agents <> []) ->
  (forall c, ~ In a (getAgentsWithCapability c idx)) ->
  capabilityIndex (removeAgent a (indexAgent a caps idx)) = capabilityIndex idx
  /\ getAgentCapabilities a (removeAgent a (indexAgent a caps idx)) = [].
Proof.
  intros Hne Hnot. unfold removeAgent, indexAgent, getAgentCapabilities. simpl.
  rewrite lookup_insert_eq, lookup_delete_eq. simpl. split; [|reflexivity].
  apply map_eq. intros n. rewrite remove_lookup, index_lookup.
  case_bool_decide as Hn; [|reflexivity].
  unfold listed, pruned. specialize (Hnot n). unfold getAgentsWithCapability in Hnot.
  rewrite set_delete_add by exact Hnot.
  destruct (capabilityIndex idx !! n) as [l|] eqn:E; simpl; [|reflexivity].
  destruct l as [|x l]; [|reflexivity]. destruct (Hne n [] E). reflexivity.
Qed.

Lemma removeAgent_undoes_indexAgent_witness :
  capabilityIndex (removeAgent "a2" (indexAgent "a2" [cap "nlp"; cap "tts"]
                                       (indexAgent "a1" [cap "nlp"; cap "ocr"] new)))
  = capabilityIndex (indexAgent "a1" [cap "nlp"; cap "ocr"] new).
Proof.
  apply (removeAgent_undoes_indexAgent (indexAgent "a1" [cap "nlp"; cap "ocr"] new)
           "a2" [cap "nlp"; cap "tts"]).
  - intros c agents. unfold indexAgent. cbn [capabilityIndex]. rewrite index_lookup.
    case_bool_decide; [|cbn [new capabilityIndex]; rewrite lookup_empty; discriminate].
    intros [= <-]. discriminate.
  - intros c. unfold getAgentsWithCapability, indexAgent. cbn [capabilityIndex].
    rewrite index_lookup.
    case_bool_decide; cbn [new capabilityIndex]; rewrite lookup_empty;
      [|intros []].
    intros [Ha|[]]. discriminate.
Defined.

(** X17: re-indexing forgets what removeAgent would need.  When an agent
    is indexed a second time with a capability list that no longer names
    one of its former capabilities, the agent stays listed under that
    capability, and a following removeAgent does not remove it: the
    agent is gone from the agent map but still returned for the
    capability. *)
Theorem reindexed_agent_stays_listed (idx : t) (a : string)
    (caps1 caps2 : list AgentCapability) (n : string) :
  In n (names caps1) -> ~ In n (names caps2) ->
  In a (getAgentsWithCapability n (indexAgent a caps2 (indexAgent a caps1 idx)))
  /\ In a (getAgentsWithCapability n
             (removeAgent a (indexAgent a caps2 (indexAgent a caps1 idx))))
  /\ getAgentCapabilities a
       (removeAgent a (indexAgent a caps2 (indexAgent a caps1 idx))) = [].
Proof.
  intros H1 H2. unfold getAgentsWithCapability, getAgentCapabilities, removeAgent,
    indexAgent. simpl.
  rewrite lookup_insert_eq, lookup_delete_eq. simpl.
  rewrite remove_lookup, !index_lookup.
  rewrite (bool_decide_eq_false_2 (n ∈ names caps2))
    by (rewrite list_elem_of_In; exact H2).
  rewrite (bool_decide_eq_true_2 (n ∈ names caps1)) by (apply list_elem_of_In, H1).
  simpl. split; [apply set_add_In|]. split; [apply set_add_In | reflexivity].
Qed.

Lemma reindexed_agent_stays_listed_witness :
  In "a1" (getAgentsWithCapability "ocr"
             (removeAgent "a1" (indexAgent "a1" [cap "nlp"]
                                  (indexAgent "a1" [cap "nlp"; cap "ocr"] new)))).
Proof.
  apply (reindexed_agent_stays_listed new "a1" [cap "nlp"; cap "ocr"] [cap "nlp"] "ocr").
  - right. left. reflexivity.
  - intros [H|[]]. discriminate.
Defined.

End CapabilityIndexProps.

Section CapabilityIndexTidy.

Import CapabilityIndex.

Lemma tidy_indexAgent a caps idx : tidy idx -> tidy (indexAgent a caps idx).
Proof.
  intros H c agents. unfold indexAgent. cbn [capabilityIndex]. rewrite index_lookup.
  case_bool_decide; [|apply H].
  unfold listed. intros [= <-]. split.
  - intros E. pose proof (set_add_In a (default [] (capabilityIndex idx !! c))) as Hin.
    rewrite E in Hin. destruct Hin.
  - apply set_add_NoDup.
    destruct (capabilityIndex idx !! c) as [l|] eqn:El; simpl; [|constructor].
    exact (proj2 (H c l El)).
Qed.

Lemma tidy_removeAgent a idx : tidy idx -> tidy (removeAgent a idx).
Proof.
  intros H c agents. unfold removeAgent. cbn [capabilityIndex]. rewrite remove_lookup.
  case_bool_decide; [|apply H].
  unfold pruned. destruct (capabilityIndex idx !! c) as [l|] eqn:El; [|discriminate].
  destruct (set_delete a l) as [|x l'] eqn:E; [discriminate|].
  intros [= <-]. split; [discriminate|]. rewrite <- E.
  apply NoDup_ListNoDup, NoDup_filter, NoDup_ListNoDup. exact (proj2 (H c l El)).
Qed.

(** X18: whatever sequence of indexAgent and removeAgent calls is made on
    a new index, no capability is ever listed with an empty set of
    agents (removeAgent drops a capability with its last agent), and no
    agent is listed twice under a capability. *)
Theorem capability_index_stays_tidy (acts : list action) (c : string) :
  let idx := perform_all acts new in
  (capabilityIndex idx !! c = None <-> getAgentsWithCapability c idx = [])
  /\ List.NoDup (getAgentsWithCapability c idx).
Proof.
  intros idx.
  assert (H : tidy idx).
  { subst idx. unfold perform_all.
    assert (G : forall acts i, tidy i -> tidy (fold_left (fun i a => perform a i) acts i)).
    { clear. induction acts as [|a acts IH]; intros i Hi; simpl; [exact Hi|].
      apply IH. destruct a; simpl; [apply tidy_indexAgent | apply tidy_removeAgent];
        exact Hi. }
    apply G. intros c' agents. cbn [new capabilityIndex]. rewrite lookup_empty.
    discriminate. }
  unfold getAgentsWithCapability.
  destruct (capabilityIndex idx !! c) as [l|] eqn:E; simpl.
  - destruct (H c l E) as [H1 H2]. split; [|exact H2].
    split; [discriminate | intros ->; contradiction].
  - split; [tauto | constructor].
Qed.

End CapabilityIndexTidy.

(** ** AgentRegistry: registration and lookup *)

Section AgentRegistryMore.

Import AgentRegistry.
Local Open Scope Q_scope.

Lemma get_map_replace a (r : t) :
  has (agent_id a) r = true ->
  get (agent_id a)
    (map (fun b => if String.eqb (agent_id b) (agent_id a) then a else b) r) = Some a.
Proof.
  unfold has, get. induction r as [|b r IH]; simpl; [discriminate|].
  destruct (String.eqb_spec (agent_id b) (agent_id a)) as [E|E]; simpl.
  - intros _. rewrite String.eqb_refl. reflexivity.
  - intros H. apply String.eqb_neq in E. rewrite E. exact (IH H).
Qed.

Lemma get_app_new a (r : t) :
  has (agent_id a) r = false -> get (agent_id a) (r ++ [a]) = Some a.
Proof.
  unfold has, get. induction r as [|b r IH]; simpl.
  - intros _. rewrite String.eqb_refl. reflexivity.
  - destruct (String.eqb (agent_id b) (agent_id a)); simpl; [discriminate | exact IH].
Qed.

Lemma get_register_ne a id (r : t) :
  id <> agent_id a -> get id (register a r) = get id r.
Proof.
  intros Hne. unfold register, get.
  destruct (has (agent_id a) r).
  - induction r as [|b r IH]; simpl; [reflexivity|].
    destruct (String.eqb_spec (agent_id b) (agent_id a)) as [E|E].
    + apply String.eqb_neq in Hne. rewrite String.eqb_sym, Hne.
      rewrite E, String.eqb_sym, Hne. exact IH.
    + destruct (String.eqb (agent_id b) id); [reflexivity | exact IH].
  - induction r as [|b r IH]; simpl.
    + apply String.eqb_neq in Hne. rewrite String.eqb_sym, Hne. reflexivity.
    + destruct (String.eqb (agent_id b) id); [reflexivity | exact IH].
Qed.

Lemma get_unregister id id' (r : t) :
  get id' (unregister id r) = if String.eqb id' id then None else get id' r.
Proof.
  unfold unregister, get, t in *. induction r as [|b r IH].
  - simpl. destruct (String.eqb id' id); reflexivity.
  - rewrite filter_cons. case_decide as E.
    + simpl. destruct (String.eqb_spec (agent_id b) id') as [E'|E'].
      * subst id'. apply String.eqb_neq in E. rewrite E. reflexivity.
      * exact IH.
    + subst id. rewrite IH. simpl.
      destruct (String.eqb_spec id' (agent_id b)) as [E'|E']; [reflexivity|].
      apply not_eq_sym, String.eqb_neq in E'. rewrite E'. reflexivity.
Qed.

(** X19: a registered agent is what getAgent returns for its id, whether
    the id was new (the agent is added at the end and the count grows by
    one) or already present (the agent replaces the old one at its place
    and the count is kept); the agents stored under other ids are not
    affected.  After unregister, getAgent for that id throws
    AGENT_NOT_FOUND and the other ids still answer as before. *)
Theorem register_getAgent_unregister (r : t) (a : AgentMetadata) (now : Z)
    (id : string) :
  getAgent now (agent_id a) (register a r) = Returned a
  /\ getAgentCount (register a r)
     = (if has (agent_id a) r then getAgentCount r else S (getAgentCount r))
  /\ (has (agent_id a) r = true -> map agent_id (register a r) = map agent_id r)
  /\ (id <> agent_id a -> getAgent now id (register a r) = getAgent now id r)
  /\ getAgent now id (unregister id r)
     = Thrown (mkNexusError now AGENT_NOT_FOUND ("Agent not found: " +:+ id))
  /\ (id <> agent_id a ->
      getAgent now (agent_id a) (unregister id r) = getAgent now (agent_id a) r).
Proof.
  unfold getAgent, getAgentCount.
  split; [|split; [|split; [|split; [|split]]]].
  - unfold register. destruct (has (agent_id a) r) eqn:H.
    + rewrite get_map_replace by exact H. reflexivity.
    + rewrite get_app_new by exact H. reflexivity.
  - unfold register. destruct (has (agent_id a) r).
    + apply length_map.
    + rewrite length_app. simpl. lia.
  - apply register_ids_present.
  - intros Hne. rewrite get_register_ne by exact Hne. reflexivity.
  - rewrite get_unregister, String.eqb_refl. reflexivity.
  - intros Hne. rewrite get_unregister.
    apply not_eq_sym, String.eqb_neq in Hne. rewrite Hne. reflexivity.
Qed.

Lemma register_getAgent_unregister_witness :
  map agent_id (register (TaskRouter.test_agent "agent-1" 1 offline)
                  (registered [TaskRouter.agent1; TaskRouter.agent2]))
    = ["agent-1"; "agent-2"]
  /\ getAgent 0 "agent-2" (register (TaskRouter.test_agent "agent-1" 1 offline)
                            (registered [TaskRouter.agent1; TaskRouter.agent2]))
     = Returned TaskRouter.agent2.
Proof.
  destruct (register_getAgent_unregister
              (registered [TaskRouter.agent1; TaskRouter.agent2])
              (TaskRouter.test_agent "agent-1" 1 offline) 0 "agent-2")
    as (_ & _ & H3 & H4 & _).
  split; [rewrite H3; reflexivity|].
  rewrite H4; [reflexivity | discriminate].
Defined.

End AgentRegistryMore.

(** ** TaskRouter: what the score decides *)

Section TaskRouterMore.

Import TaskRouter.
Local Open Scope Q_scope.

Lemma eligible_capable task a :
  eligible task a = true ->
  truthy (requiredCapability task) = true -> hasCapability a task = true.
Proof.
  unfold eligible. rewrite !andb_true_iff. intros [_ H] Ht. rewrite Ht in H. exact H.
Qed.

Lemma scoreAgent_eligible now task a :
  eligible task a = true -> scoreAgent now a task = 1.
Proof.
  intros He. destruct (eligible_online task a He) as [Ho Hr].
  unfold scoreAgent, is_online. rewrite Ho.
  destruct (truthy (requiredCapability task)) eqn:Ht.
  - rewrite (eligible_capable task a He Ht).
    destruct (now - lastHeartbeat a <? 60000)%Z; apply Qmin_1_saturates; lra.
  - destruct (now - lastHeartbeat a <? 60000)%Z; apply Qmin_1_saturates; lra.
Qed.

Lemma sort_all_ones {A} (l : list (A * Q)) :
  Forall (fun p => snd p = 1) l ->
  sort (fun a b : A * Q => snd b - snd a) l = l.
Proof.
  unfold sort. induction 1 as [|x l Hx Hl IH]; [reflexivity|].
  cbn [fold_right]. rewrite IH.
  destruct Hl as [|y l Hy Hl]; cbn [sort_insert]; [reflexivity|].
  rewrite Hx, Hy. reflexivity.
Qed.

Lemma findBestAgent_first (now : Z) (task : Task)
    (registry : AgentRegistry.t) :
  findBestAgent now task registry =
  match List.filter (eligible task) registry with
  | [] => None
  | first :: _ =>
      Some {| taskId := task_id task; agentId := agent_id first;
              confidence := 1; reason := "Score: 1.000" |}
  end.
Proof.
  unfold findBestAgent. rewrite findCandidateAgents_eligible.
  destruct (List.filter (eligible task) registry) as [|c cs] eqn:E; [reflexivity|].
  assert (Hall : Forall (fun p : AgentMetadata * Q => snd p = 1)
                   (map (fun agent => (agent, scoreAgent now agent task)) (c :: cs))).
  { apply List.Forall_forall. intros p Hp. apply in_map_iff in Hp.
    destruct Hp as (a & <- & Ha). simpl. apply scoreAgent_eligible.
    rewrite <- E in Ha. apply filter_In in Ha. exact (proj2 Ha). }
  rewrite (sort_all_ones _ Hall). simpl.
  assert (Hc : In c (List.filter (eligible task) registry)) by (rewrite E; left; reflexivity).
  apply filter_In in Hc. rewrite (scoreAgent_eligible now task c (proj2 Hc)).
  reflexivity.
Qed.

(** X21: the score never decides.  Every agent that passes the filters
    of findCandidateAgents scores exactly 1, so for every registry and
    every task findBestAgent returns the first agent, in registration
    order, that passes the filters, always with confidence 1; reputation
    and heartbeat age only matter through the filter. *)
Theorem findBestAgent_is_first_eligible (now : Z) (task : Task)
    (registry : AgentRegistry.t) :
  findBestAgent now task registry =
  match List.filter (eligible task) registry with
  | [] => None
  | first :: _ =>
      Some {| taskId := task_id task; agentId := agent_id first;
              confidence := 1; reason := "Score: 1.000" |}
  end.
Proof.
  unfold findBestAgent. rewrite findCandidateAgents_eligible.
  destruct (List.filter (eligible task) registry) as [|c cs] eqn:E; [reflexivity|].
  assert (Hall : Forall (fun p : AgentMetadata * Q => snd p = 1)
                   (map (fun agent => (agent, scoreAgent now agent task)) (c :: cs))).
  { apply List.Forall_forall. intros p Hp. apply in_map_iff in Hp.
    destruct Hp as (a & <- & Ha). simpl. apply scoreAgent_eligible.
    rewrite <- E in Ha. apply filter_In in Ha. exact (proj2 Ha). }
  rewrite (sort_all_ones _ Hall). simpl.
  assert (Hc : In c (List.filter (eligible task) registry)) by (rewrite E; left; reflexivity).
  apply filter_In in Hc. rewrite (scoreAgent_eligible now task c (proj2 Hc)).
  reflexivity.
Qed.

(** X22: findAlternativeAgent never returns the excluded agent: a
    decision names a registered agent with another id that passes the
    filters of findCandidateAgents, with the fixed confidence 0.5; and it
    returns none exactly when every agent that passes the filters has the
    excluded id. *)
Theorem findAlternativeAgent_excludes (task : Task) (excluded : string)
    (registry : AgentRegistry.t) :
  (forall d, findAlternativeAgent task excluded registry = Some d ->
     agentId d <> excluded
     /\ confidence d = 5 # 10
     /\ exists a, In a registry /\ eligible task a = true /\ agent_id a = agentId d)
  /\ (findAlternativeAgent task excluded registry = None <->
      forall a, In a registry -> eligible task a = true -> agent_id a = excluded).
Proof.
  unfold findAlternativeAgent. rewrite findCandidateAgents_eligible.
  destruct (List.filter _ (List.filter (eligible task) registry)) as [|c cs] eqn:E.
  - split; [discriminate|]. split; [|reflexivity]. intros _ a Ha He.
    destruct (String.eqb_spec (agent_id a) excluded) as [Eq|Ne]; [exact Eq|].
    assert (Hin : In a (List.filter
                          (fun a => negb (String.eqb (agent_id a) excluded))
                          (List.filter (eligible task) registry))).
    { apply filter_In. split; [apply filter_In; auto|].
      apply negb_true_iff, String.eqb_neq, Ne. }
    rewrite E in Hin. destruct Hin.
  - assert (Hc : In c (List.filter
                         (fun a => negb (String.eqb (agent_id a) excluded))
                         (List.filter (eligible task) registry)))
      by (rewrite E; left; reflexivity).
    apply filter_In in Hc. destruct Hc as [Hc1 Hc2].
    apply filter_In in Hc1. destruct Hc1 as [Hin He].
    apply negb_true_iff, String.eqb_neq in Hc2.
    split.
    + intros d [= <-]. simpl. split; [exact Hc2|]. split; [reflexivity|].
      exists c. auto.
    + split; [discriminate|]. intros H. destruct (Hc2 (H c Hin He)).
Qed.

Lemma findAlternativeAgent_excludes_witness :
  agentId <$> findAlternativeAgent (test_task ∅) "agent-1"
                (AgentRegistry.registered [agent1; agent3; agent2]) = Some "agent-2"
  /\ findAlternativeAgent (test_task ∅) "agent-1"
       (AgentRegistry.registered [agent1; agent3]) = None.
Proof.
  destruct (findAlternativeAgent_excludes (test_task ∅) "agent-1"
              (AgentRegistry.registered [agent1; agent3])) as [_ H].
  split; [reflexivity|]. apply H.
  intros a [<-|[<-|[]]]; [reflexivity | discriminate].
Defined.

(** X23: for an agent of non-negative reputation, scoreAgent is 0
    exactly when the task requires a capability the agent does not have;
    otherwise it lies between 0.8 and 1, and it is never above 1. *)
Theorem scoreAgent_range (now : Z) (a : AgentMetadata) (task : Task) :
  0 <= reputationScore a ->
  (scoreAgent now a task = 0 <->
   truthy (requiredCapability task) = true /\ hasCapability a task = false)
  /\ (scoreAgent now a task <> 0 -> 8 # 10 <= scoreAgent now a task)
  /\ scoreAgent now a task <= 1.
Proof.
  intros Hr. unfold scoreAgent.
  assert (Hmin : forall x, 8 # 10 <= x -> Qmin 1 x <> 0 /\ 8 # 10 <= Qmin 1 x /\ Qmin 1 x <= 1).
  { intros x Hx. assert (H8 : 8 # 10 <= Qmin 1 x) by (apply Q.min_glb; lra).
    split; [|split; [exact H8 | apply Q.le_min_l]].
    intros E. rewrite E in H8. lra. }
  assert (Hcases : forall s, 8 # 10 <= s ->
            8 # 10 <= (if (now - lastHeartbeat a <? 60000)%Z
                       then (if is_online a then s + (2 # 10) else s) + (1 # 10)
                       else (if is_online a then s + (2 # 10) else s))).
  { intros s Hs. destruct (now - lastHeartbeat a <? 60000)%Z, (is_online a); lra. }
  destruct (truthy (requiredCapability task)) eqn:Ht;
    [destruct (hasCapability a task) eqn:Hc|].
  - destruct (Hmin _ (Hcases ((5 # 10) + reputationScore a * (4 # 10) + (3 # 10))
                        ltac:(lra))) as (H1 & H2 & H3).
    split; [split; [intros E; destruct (H1 E) | intros [_ ?]; discriminate]|].
    split; [intros _; exact H2 | exact H3].
  - split; [split; [auto | reflexivity]|].
    split; [intros H; destruct (H eq_refl) | lra].
  - destruct (Hmin _ (Hcases ((5 # 10) + reputationScore a * (4 # 10) + (3 # 10))
                        ltac:(lra))) as (H1 & H2 & H3).
    split; [split; [intros E; destruct (H1 E) | intros [? _]; discriminate]|].
    split; [intros _; exact H2 | exact H3].
Qed.

Lemma scoreAgent_range_witness :
  scoreAgent 1000 agent3 (test_task {[ "requiredCapability" := VStr "nlp" ]}) = 0
  /\ 8 # 10 <= scoreAgent 1000 agent3 (test_task ∅).
Proof.
  destruct (scoreAgent_range 1000 agent3
              (test_task {[ "requiredCapability" := VStr "nlp" ]}))
    as (H1 & _); [by_evaluation|].
  destruct (scoreAgent_range 1000 agent3 (test_task ∅)) as (_ & H2 & _);
    [by_evaluation|].
  split; [apply H1; split; reflexivity | apply H2; by_evaluation].
Defined.

End TaskRouterMore.

(** ** TaskOrchestrator: assignment, decomposition, job metrics *)

Section TaskOrchestratorMore.

Import TaskOrchestrator.

Lemma getTask_known now id o task :
  tasks o !! id = Some task -> getTask now id o = (Returned task, o).
Proof. unfold getTask, bind, gets, ret. intros ->. reflexivity. Qed.

Lemma getJob_known now id o job :
  jobs o !! id = Some job -> getJob now id o = (Returned job, o).
Proof. unfold getJob, bind, gets, ret. intros ->. reflexivity. Qed.

Lemma getTask_unknown_pair now id o :
  tasks o !! id = None ->
  getTask now id o =
  (Thrown (mkNexusError now INVALID_TASK ("Task not found: " +:+ id)), o).
Proof. unfold getTask, bind, gets, throw. intros ->. reflexivity. Qed.

Lemma getJob_unknown_pair now id o :
  jobs o !! id = None ->
  getJob now id o =
  (Thrown (mkNexusError now INVALID_TASK ("Job not found: " +:+ id)), o).
Proof. unfold getJob, bind, gets, throw. intros ->. reflexivity. Qed.

(** X24: assignTask checks the task first and the agent second, and
    changes nothing unless both are known: an unknown task throws
    INVALID_TASK, a known task with an unknown agent throws
    AGENT_NOT_FOUND, and in both cases the orchestrator is as before.
    With both known the task becomes queued with the agent as assignee,
    whatever the agent's status and the task's former status, and the
    other tasks and all jobs are untouched. *)
Theorem assignTask_checks_task_then_agent (o : t) (now : Z) (taskId agentId : string) :
  (tasks o !! taskId = None ->
   assignTask now taskId agentId o =
   (Thrown (mkNexusError now INVALID_TASK ("Task not found: " +:+ taskId)), o))
  /\ (forall task, tasks o !! taskId = Some task ->
        AgentRegistry.get agentId (agentRegistry o) = None ->
        assignTask now taskId agentId o =
        (Thrown (mkNexusError now AGENT_NOT_FOUND ("Agent not found: " +:+ agentId)), o))
  /\ (forall task agent, tasks o !! taskId = Some task -> task_id task = taskId ->
        AgentRegistry.get agentId (agentRegistry o) = Some agent ->
        let o' := snd (assignTask now taskId agentId o) in
        fst (assignTask now taskId agentId o) = Returned tt
        /\ (exists task', tasks o' !! taskId = Some task'
              /\ task_status task' = queued
              /\ assignedAgentId task' = Some agentId
              /\ parentId task' = parentId task
              /\ metadata task' = metadata task)
        /\ (forall id, id <> taskId -> tasks o' !! id = tasks o !! id)
        /\ jobs o' = jobs o).
Proof.
  split; [|split].
  - intros H. unfold assignTask, bind. rewrite (getTask_unknown_pair now taskId o H).
    reflexivity.
  - intros task Ht Ha. unfold assignTask, bind.
    rewrite (getTask_known now taskId o task Ht).
    unfold AgentRegistry.getAgent. rewrite Ha. reflexivity.
  - intros task agent Ht Hid Ha o'. subst o'. unfold assignTask, bind.
    rewrite (getTask_known now taskId o task Ht).
    unfold AgentRegistry.getAgent. rewrite Ha. simpl. rewrite Hid.
    split; [reflexivity|]. split; [|split; [|reflexivity]].
    + eexists. rewrite lookup_insert_eq. split; [reflexivity|]. simpl. auto.
    + intros id Hne. apply lookup_insert_ne. congruence.
Qed.

Lemma assignTask_checks_task_then_agent_witness :
  fst (assignTask 200 "task_101_t1" "agent-3" orch2) = Returned tt
  /\ assignTask 200 "task_101_t1" "agent-9" orch2 =
     (Thrown (mkNexusError 200 AGENT_NOT_FOUND "Agent not found: agent-9"), orch2)
  /\ assignTask 200 "task_x" "agent-3" orch2 =
     (Thrown (mkNexusError 200 INVALID_TASK "Task not found: task_x"), orch2).
Proof.
  destruct (assignTask_checks_task_then_agent orch2 200 "task_101_t1" "agent-3")
    as (_ & _ & H3).
  destruct (assignTask_checks_task_then_agent orch2 200 "task_101_t1" "agent-9")
    as (_ & H2 & _).
  destruct (assignTask_checks_task_then_agent orch2 200 "task_x" "agent-3")
    as (H1 & _).
  split; [exact (proj1 (H3 _ _ eq_refl eq_refl eq_refl))|].
  split; [exact (H2 _ eq_refl eq_refl) | exact (H1 eq_refl)].
Defined.

End TaskOrchestratorMore.

Section TaskOrchestratorDecompose.

Import TaskOrchestrator.

Lemma fold_put_task_app l x o :
  fold_left (fun o task => put_task (task_id task) task o) (l ++ [x]) o
  = put_task (task_id x) x (fold_left (fun o task => put_task (task_id task) task o) l o).
Proof. rewrite fold_left_app. reflexivity. Qed.

Lemma fold_put_task_frame l o :
  jobs (fold_left (fun o task => put_task (task_id task) task o) l o) = jobs o
  /\ agentRegistry (fold_left (fun o task => put_task (task_id task) task o) l o)
     = agentRegistry o.
Proof.
  revert o. induction l as [|x l IH]; intros o; simpl; [auto|].
  destruct (IH (put_task (task_id x) x o)) as [H1 H2]. rewrite H1, H2. auto.
Qed.

Lemma fold_put_task_lookup l o id task :
  tasks (fold_left (fun o task => put_task (task_id task) task o) l o) !! id = Some task ->
  (In task l /\ task_id task = id) \/ tasks o !! id = Some task.
Proof.
  revert o. induction l as [|x l IH]; intros o; simpl; [auto|].
  intros H. destruct (IH _ H) as [[H1 H2]|H1]; [left; auto|].
  simpl in H1. rewrite lookup_insert in H1. case_decide as E.
  - injection H1 as <-. left. auto.
  - right. exact H1.
Qed.

Lemma fold_put_task_created l o task :
  List.NoDup (map task_id l) -> In task l ->
  tasks (fold_left (fun o task => put_task (task_id task) task o) l o)
    !! task_id task = Some task.
Proof.
  revert o. induction l as [|x l IH] using rev_ind; intros o Hnd Hin; [destruct Hin|].
  rewrite fold_put_task_app. simpl.
  rewrite map_app in Hnd. apply NoDup_ListNoDup, NoDup_app in Hnd.
  destruct Hnd as (Hl & Hdis & _).
  apply in_app_or in Hin. destruct Hin as [Hin | [<- | []]].
  - rewrite lookup_insert_ne.
    + apply IH; [apply NoDup_ListNoDup, Hl | exact Hin].
    + intros E. apply (Hdis (task_id task)).
      * apply list_elem_of_In, in_map, Hin.
      * rewrite <- E. simpl. apply list_elem_of_here.
  - apply lookup_insert_eq.
Qed.

Lemma fold_push_task l job :
  job_tasks (fold_left (fun job task => push_task (task_id task) job) l job)
    = job_tasks job ++ map task_id l
  /\ metrics (fold_left (fun job task => push_task (task_id task) job) l job)
     = metrics job.
Proof.
  revert job. induction l as [|x l IH]; intros job; simpl.
  - rewrite app_nil_r. auto.
  - destruct (IH (push_task (task_id x) job)) as [H1 H2]. rewrite H1, H2. simpl.
    rewrite <- app_assoc. auto.
Qed.

(** X25: decomposeTasks of an unknown job throws INVALID_TASK and creates
    nothing.  For a known job it returns one task per definition, in
    order, each pending, unassigned, without start time and with the job
    as parent; the job's task list is extended by their ids and its
    totalTasks becomes the length of that list, the two counters being
    kept; and when the generated ids are distinct, getTask finds each
    created task under its id. *)
Theorem decomposeTasks_creates_pending_tasks (o : t) (now : Z) (jobId : string)
    (defs : list (TaskDefinition * (Z * string))) :
  (jobs o !! jobId = None ->
   decomposeTasks now jobId defs o =
   (Thrown (mkNexusError now INVALID_TASK ("Job not found: " +:+ jobId)), o))
  /\ (forall job, jobs o !! jobId = Some job ->
        let created := map (fun ds => make_task jobId (fst ds) (snd ds)) defs in
        let o' := snd (decomposeTasks now jobId defs o) in
        fst (decomposeTasks now jobId defs o) = Returned created
        /\ length created = length defs
        /\ (forall task, In task created ->
              task_status task = pending /\ parentId task = Some jobId
              /\ assignedAgentId task = None /\ startedAt task = None)
        /\ (exists job', jobs o' !! jobId = Some job'
              /\ job_tasks job' = job_tasks job ++ map task_id created
              /\ totalTasks (metrics job') = length (job_tasks job) + length defs
              /\ completedTasks (metrics job') = completedTasks (metrics job)
              /\ failedTasks (metrics job') = failedTasks (metrics job))
        /\ (List.NoDup (map task_id created) ->
            forall task, In task created ->
              getTask now (task_id task) o' = (Returned task, o'))).
Proof.
  split.
  - intros H. unfold decomposeTasks, bind. rewrite (getJob_unknown_pair now jobId o H).
    reflexivity.
  - intros job Hjob created o'. subst o'.
    unfold decomposeTasks, bind. rewrite (getJob_known now jobId o job Hjob).
    fold created. simpl.
    destruct (fold_push_task created job) as [Hjt Hm].
    split; [reflexivity|].
    split; [apply length_map|].
    split.
    { intros task Hin. apply in_map_iff in Hin. destruct Hin as (ds & <- & _).
      simpl. auto. }
    split.
    { eexists. rewrite lookup_insert_eq. split; [reflexivity|]. simpl.
      rewrite Hjt, Hm. split; [reflexivity|].
      unfold created. rewrite length_app, !length_map. auto. }
    intros Hnd task Hin. apply getTask_known. simpl.
    apply fold_put_task_created; assumption.
Qed.

Lemma decomposeTasks_creates_pending_tasks_witness :
  getTask 300 "task_102_t2" orch2
    = (Returned (make_task "job_100_abc" empty_definition (102%Z, "t2")), orch2)
  /\ fst (decomposeTasks 101 "job_x" [(empty_definition, (101%Z, "t1"))] orch1)
     = Thrown (mkNexusError 101 INVALID_TASK "Job not found: job_x").
Proof.
  destruct (decomposeTasks_creates_pending_tasks orch1 101 "job_100_abc"
              [(empty_definition, (101%Z, "t1")); (empty_definition, (102%Z, "t2"))])
    as [_ H].
  destruct (decomposeTasks_creates_pending_tasks orch1 101 "job_x"
              [(empty_definition, (101%Z, "t1"))]) as [H' _].
  destruct (H _ eq_refl) as (_ & _ & _ & _ & Hget).
  split.
  - apply (Hget ltac:(constructor;
                      [intros [E|[]]; discriminate
                      |constructor; [intros [] | constructor]])
             (make_task "job_100_abc" empty_definition (102%Z, "t2"))).
    right. left. reflexivity.
  - rewrite (H' eq_refl). reflexivity.
Defined.

End TaskOrchestratorDecompose.

Section TaskOrchestratorMetrics.

Import TaskOrchestrator.

Lemma sound_put_task o key task :
  sound o -> task_id task = key -> startedAt task = None ->
  sound (put_task key task o).
Proof.
  intros [Ht Hj] Hid Hs. split; [|exact Hj].
  intros id task'. simpl. rewrite lookup_insert. case_decide as E.
  - intros [= <-]. subst id. auto.
  - apply Ht.
Qed.

Lemma sound_put_job o key job :
  sound o ->
  totalTasks (metrics job) = length (job_tasks job) ->
  completedTasks (metrics job) + failedTasks (metrics job) <= totalTasks (metrics job) ->
  averageTaskDuration (metrics job) = 0%Q ->
  sound (put_job key job o).
Proof.
  intros [Ht Hj] H1 H2 H3. split; [exact Ht|].
  intros id job'. simpl. rewrite lookup_insert. case_decide as E.
  - intros [= <-]. auto.
  - apply Hj.
Qed.

Lemma sound_fold_put_task l o :
  sound o -> (forall task, In task l -> startedAt task = None) ->
  sound (fold_left (fun o task => put_task (task_id task) task o) l o).
Proof.
  revert o. induction l as [|x l IH]; intros o Ho Hl; simpl; [exact Ho|].
  apply IH.
  - apply sound_put_task; [exact Ho | reflexivity | apply Hl; left; reflexivity].
  - intros task Hin. apply Hl. right. exact Hin.
Qed.

Lemma completed_failed_le (l : list Task) :
  length (List.filter is_completed l) + length (List.filter is_failed l) <= length l.
Proof.
  induction l as [|x l IH]; simpl; [lia|].
  destruct (is_completed x) eqn:Ec, (is_failed x) eqn:Ef; simpl; try lia.
  unfold is_completed, is_failed in *. destruct (task_status x); discriminate.
Qed.

Lemma length_omap_le {A B} (f : A -> option B) (l : list A) :
  length (omap f l) <= length l.
Proof. induction l as [|x l IH]; csimpl; [lia|]. destruct (f x); csimpl; lia. Qed.

Lemma no_task_with_duration o job :
  (forall id task, tasks o !! id = Some task -> startedAt task = None) ->
  List.filter (fun t => is_completed t && bool_decide (is_Some (startedAt t))
                        && bool_decide (is_Some (completedAt t)))
    (job_task_objects o job) = [].
Proof.
  intros Ht. unfold job_task_objects.
  induction (job_tasks job) as [|id ids IH]; csimpl; [reflexivity|].
  destruct (tasks o !! id) as [task|] eqn:E; csimpl; [|exact IH].
  rewrite (Ht id task E). rewrite andb_false_r. simpl. exact IH.
Qed.

Lemma updateJobMetrics_sound o job :
  (forall id task, tasks o !! id = Some task -> startedAt task = None) ->
  totalTasks (metrics job) = length (job_tasks job) ->
  averageTaskDuration (metrics job) = 0%Q ->
  let job' := updateJobMetrics o job in
  totalTasks (metrics job') = length (job_tasks job')
  /\ completedTasks (metrics job') + failedTasks (metrics job') <= totalTasks (metrics job')
  /\ averageTaskDuration (metrics job') = 0%Q.
Proof.
  intros Ht Htot Havg. unfold updateJobMetrics.
  rewrite (no_task_with_duration o job Ht). simpl.
  split; [exact Htot|]. split; [|exact Havg].
  rewrite Htot.
  pose proof (completed_failed_le (job_task_objects o job)).
  pose proof (length_omap_le (fun id => tasks o !! id) (job_tasks job)).
  unfold job_task_objects in *. lia.
Qed.

Lemma sound_settle now task bump o :
  sound o ->
  (forall m, totalTasks (bump m) = totalTasks m
             /\ averageTaskDuration (bump m) = averageTaskDuration m) ->
  sound (snd (settle now task bump o)).
Proof.
  intros Ho Hb. unfold settle.
  destruct (truthy_str (parentId task)); [|exact Ho].
  unfold bind. set (parent := default EmptyString (parentId task)).
  destruct (jobs o !! parent) as [job|] eqn:E.
  - rewrite (getJob_known now parent o job E). simpl.
    destruct Ho as [Ht Hj]. destruct (Hj parent job E) as (H1 & H2 & H3).
    destruct (Hb (metrics job)) as [Hb1 Hb2].
    destruct (updateJobMetrics_sound o (with_metrics (bump (metrics job)) job))
      as (G1 & G2 & G3).
    + intros id t0 Hid. exact (proj2 (Ht id t0 Hid)).
    + simpl. rewrite Hb1. exact H1.
    + simpl. rewrite Hb2. exact H3.
    + apply sound_put_job; [split; assumption | exact G1 | exact G2 | exact G3].
  - rewrite (getJob_unknown_pair now parent o E). exact Ho.
Qed.

Lemma sound_perform a o : sound o -> sound (perform a o).
Proof.
  intros Ho. destruct a as [now rnd u ti ob | now j defs | now tid aid
                           | now tid res | now tid err]; simpl.
  - apply sound_put_job; [exact Ho | reflexivity | simpl; lia | reflexivity].
  - unfold decomposeTasks, bind.
    destruct (jobs o !! j) as [job|] eqn:E.
    + rewrite (getJob_known now j o job E). simpl.
      set (created := map (fun ds => make_task j (fst ds) (snd ds)) defs).
      destruct (fold_push_task created job) as [Hjt Hm].
      destruct (proj2 Ho j job E) as (H1 & H2 & H3).
      apply sound_put_job; simpl.
      * apply sound_fold_put_task; [exact Ho|].
        intros task Hin. apply in_map_iff in Hin. destruct Hin as (ds & <- & _).
        reflexivity.
      * reflexivity.
      * rewrite Hm, Hjt, length_app. lia.
      * rewrite Hm. exact H3.
    + rewrite (getJob_unknown_pair now j o E). exact Ho.
  - unfold assignTask, bind.
    destruct (tasks o !! tid) as [task|] eqn:E.
    + rewrite (getTask_known now tid o task E).
      destruct (AgentRegistry.getAgent now aid (agentRegistry o)); [|exact Ho].
      simpl. change (sound (put_task (task_id task)
        {| task_id := task_id task; parentId := parentId task;
           task_name := task_name task; description := description task;
           objective := objective task; task_status := queued;
           priority := priority task; assignedAgentId := Some aid;
           dependencies := dependencies task; createdAt := createdAt task;
           startedAt := startedAt task; completedAt := completedAt task;
           metadata := metadata task; result := result task; error := error task |} o)).
      apply sound_put_task; [exact Ho | reflexivity|].
      exact (proj2 (proj1 Ho tid task E)).
    + rewrite (getTask_unknown_pair now tid o E). exact Ho.
  - unfold completeTask, bind.
    destruct (tasks o !! tid) as [task|] eqn:E.
    + rewrite (getTask_known now tid o task E). simpl.
      destruct (proj1 Ho tid task E) as [Hid Hst].
      apply sound_settle; [|intros m; split; reflexivity].
      apply sound_put_task; [exact Ho | exact Hid | exact Hst].
    + rewrite (getTask_unknown_pair now tid o E). exact Ho.
  - unfold failTask, bind.
    destruct (tasks o !! tid) as [task|] eqn:E.
    + rewrite (getTask_known now tid o task E). simpl.
      destruct (proj1 Ho tid task E) as [Hid Hst].
      apply sound_settle; [|intros m; split; reflexivity].
      apply sound_put_task; [exact Ho | exact Hid | exact Hst].
    + rewrite (getTask_unknown_pair now tid o E). exact Ho.
Qed.

Lemma sound_perform_all acts o : sound o -> sound (perform_all acts o).
Proof.
  unfold perform_all. revert o.
  induction acts as [|a acts IH]; intros o Ho; simpl; [exact Ho|].
  apply IH, sound_perform, Ho.
Qed.

(** X26: whatever sequence of createJob, decomposeTasks, assignTask,
    completeTask and failTask calls is made on a new orchestrator, every
    task is stored under its own id, every job's totalTasks is the number
    of its tasks and its completed and failed counters together never
    exceed it; no call gives a task a start time, so the condition under
    which updateJobMetrics recomputes averageTaskDuration is never met
    and the average stays 0. *)
Theorem job_metrics_stay_within_total (registry : AgentRegistry.t)
    (acts : list action) :
  let o := perform_all acts (new registry) in
  (forall id task, tasks o !! id = Some task ->
     task_id task = id /\ startedAt task = None)
  /\ (forall id job, jobs o !! id = Some job ->
        totalTasks (metrics job) = length (job_tasks job)
        /\ completedTasks (metrics job) + failedTasks (metrics job)
           <= totalTasks (metrics job)
        /\ averageTaskDuration (metrics job) = 0%Q).
Proof.
  intros o. apply sound_perform_all.
  split; intros id x; simpl; rewrite lookup_empty; discriminate.
Qed.

End TaskOrchestratorMetrics.

Section TaskOrchestratorSettle.

Import TaskOrchestrator.

Lemma job_metrics_stay_within_total_witness :
  match jobs (perform_all
                [CreateJob 100 "abc" "user-1" "Title" "Objective";
                 DecomposeTasks 101 "job_100_abc"
                   [(empty_definition, (101%Z, "t1")); (empty_definition, (102%Z, "t2"))];
                 CompleteTask 200 "task_101_t1" VNull;
                 CompleteTask 201 "task_101_t1" VNull;
                 FailTask 202 "task_102_t2" "boom"]
                (new [])) !! "job_100_abc" with
  | Some job =>
      completedTasks (metrics job) + failedTasks (metrics job) <= totalTasks (metrics job)
      /\ averageTaskDuration (metrics job) = 0%Q
  | None => True
  end.
Proof.
  destruct (job_metrics_stay_within_total []
              [CreateJob 100 "abc" "user-1" "Title" "Objective";
               DecomposeTasks 101 "job_100_abc"
                 [(empty_definition, (101%Z, "t1")); (empty_definition, (102%Z, "t2"))];
               CompleteTask 200 "task_101_t1" VNull;
               CompleteTask 201 "task_101_t1" VNull;
               FailTask 202 "task_102_t2" "boom"]) as [_ H].
  destruct (jobs _ !! "job_100_abc") as [job|] eqn:E; [|exact I].
  destruct (H _ job E) as (_ & H2 & H3). split; assumption.
Defined.

Lemma settle_recounts now task bump o parent job :
  parentId task = Some parent -> parent <> EmptyString ->
  jobs o !! parent = Some job ->
  settle now task bump o =
  (Returned tt,
   put_job parent (updateJobMetrics o (with_metrics (bump (metrics job)) job)) o).
Proof.
  intros Hp Hne Hj. unfold settle, truthy_str. rewrite Hp.
  apply String.eqb_neq in Hne. rewrite Hne. simpl.
  unfold bind. rewrite (getJob_known now parent o job Hj). reflexivity.
Qed.

(** X27: completeTask and failTask recount.  For a task whose parent job
    is known, the call marks the task completed (or failed) with the
    time of the call and the result (or the error), and then sets the
    job's completedTasks and failedTasks to the numbers of the job's
    tasks that are now completed and failed: the increment made just
    before is overwritten, so the counters do not depend on their former
    values, and totalTasks is kept.  A task without parent is only
    marked. *)
Theorem completeTask_failTask_recount (o : t) (now : Z) (taskId : string)
    (task : Task) :
  tasks o !! taskId = Some task ->
  (forall parent job res,
     parentId task = Some parent -> parent <> EmptyString ->
     jobs o !! parent = Some job ->
     let o' := snd (completeTask now taskId res o) in
     fst (completeTask now taskId res o) = Returned tt
     /\ (exists task', tasks o' !! taskId = Some task'
           /\ task_status task' = completed /\ completedAt task' = Some now
           /\ result task' = Some res)
     /\ exists job', jobs o' !! parent = Some job'
          /\ completedTasks (metrics job')
             = length (List.filter is_completed (job_task_objects o' job'))
          /\ failedTasks (metrics job')
             = length (List.filter is_failed (job_task_objects o' job'))
          /\ totalTasks (metrics job') = totalTasks (metrics job)
          /\ job_tasks job' = job_tasks job)
  /\ (forall parent job err,
        parentId task = Some parent -> parent <> EmptyString ->
        jobs o !! parent = Some job ->
        let o' := snd (failTask now taskId err o) in
        fst (failTask now taskId err o) = Returned tt
        /\ (exists task', tasks o' !! taskId = Some task'
              /\ task_status task' = failed /\ completedAt task' = Some now
              /\ error task' = Some err)
        /\ exists job', jobs o' !! parent = Some job'
             /\ completedTasks (metrics job')
                = length (List.filter is_completed (job_task_objects o' job'))
             /\ failedTasks (metrics job')
                = length (List.filter is_failed (job_task_objects o' job'))
             /\ totalTasks (metrics job') = totalTasks (metrics job)
             /\ job_tasks job' = job_tasks job)
  /\ (parentId task = None ->
      forall res, fst (completeTask now taskId res o) = Returned tt
                  /\ jobs (snd (completeTask now taskId res o)) = jobs o).
Proof.
  intros Ht. split; [|split].
  - intros parent job res Hp Hne Hj o'. subst o'.
    unfold completeTask, bind. rewrite (getTask_known now taskId o task Ht).
    cbn [modify]. erewrite settle_recounts; [|exact Hp|exact Hne|exact Hj].
    split; [reflexivity|]. split.
    + eexists. simpl. rewrite lookup_insert_eq. split; [reflexivity|]. auto.
    + eexists. simpl. rewrite lookup_insert_eq. split; [reflexivity|].
      simpl. auto.
  - intros parent job err Hp Hne Hj o'. subst o'.
    unfold failTask, bind. rewrite (getTask_known now taskId o task Ht).
    cbn [modify]. erewrite settle_recounts; [|exact Hp|exact Hne|exact Hj].
    split; [reflexivity|]. split.
    + eexists. simpl. rewrite lookup_insert_eq. split; [reflexivity|]. auto.
    + eexists. simpl. rewrite lookup_insert_eq. split; [reflexivity|].
      simpl. auto.
  - intros Hp res. unfold completeTask, bind.
    rewrite (getTask_known now taskId o task Ht). cbn [modify].
    unfold settle, truthy_str. simpl. rewrite Hp. split; reflexivity.
Qed.

Lemma completeTask_failTask_recount_witness :
  let o' := snd (failTask 202 "task_102_t2" "boom"
              (snd (completeTask 201 "task_101_t1" VNull
                 (snd (completeTask 200 "task_101_t1" VNull orch2))))) in
  metrics <$> jobs o' !! "job_100_abc"
  = Some {| totalTasks := 2; completedTasks := 1; failedTasks := 1;
            averageTaskDuration := 0 |}.
Proof.
  intros o'.
  destruct (completeTask_failTask_recount
              (snd (completeTask 201 "task_101_t1" VNull
                 (snd (completeTask 200 "task_101_t1" VNull orch2))))
              202 "task_102_t2" _ eq_refl) as (_ & H & _).
  destruct (H "job_100_abc" _ "boom" eq_refl ltac:(discriminate) eq_refl)
    as (_ & _ & job' & Hj & Hc & Hf & Htot & _).
  fold o' in Hj, Hc, Hf. rewrite Hj. simpl.
  destruct job' as [? ? ? ? ? ? ? [tot comp fl avg]]. simpl in *.
  vm_compute in Hj. injection Hj as <- <- <- <- <- <- <- <- <- <- <-.
  reflexivity.
Defined.

End TaskOrchestratorSettle.

(** ** ResilientOrchestrator.executeTask *)

Section ResilientExecutionProps.

Import ResilientExecution.

Lemma attempt_once_none now task w :
  TaskRouter.findBestAgent now task (router w) = None ->
  attempt_once now task w = (inr (PlainError "No suitable agents found"), w).
Proof. unfold attempt_once. intros ->. reflexivity. Qed.

Lemma findBestAgent_any_time now now' task registry :
  TaskRouter.findBestAgent now' task registry = TaskRouter.findBestAgent now task registry.
Proof. rewrite !findBestAgent_first. reflexivity. Qed.

(** X28: with no agent that passes the router's filters, executeTask
    makes its three attempts, sleeping 1000 ms after the first and 2000
    ms after the second and not after the third, and then throws the
    plain error of the last attempt, "No suitable agents found"; the
    task orchestrator is left as it was. *)
Theorem executeTask_without_candidates (now : Z) (task : Task) (w : t) :
  (forall a, In a (router w) -> TaskRouter.eligible task a = false) ->
  executeTask now task w =
  (inr (PlainError "No suitable agents found"),
   {| breaker := ResilientOrchestrator.elapse (now + 1000 + 2000)
                   (ResilientOrchestrator.elapse (now + 1000) (breaker w));
      orchestrator := orchestrator w; router := router w |},
   (now + 1000 + 2000)%Z).
Proof.
  intros Hnone.
  assert (Hf : forall t0, TaskRouter.findBestAgent t0 task (router w) = None)
    by (intros t0; apply findBestAgent_none; exact Hnone).
  unfold executeTask, maxAttempts. cbn [attempts].
  rewrite (attempt_once_none now task w (Hf now)). cbn [Nat.ltb Nat.leb maxAttempts sleep delay].
  change (Z.min (1000 * 2 ^ (Z.of_nat 1 - 1)) 10000) with 1000%Z.
  rewrite attempt_once_none by (apply Hf). cbn [Nat.ltb Nat.leb sleep].
  change (Z.min (1000 * 2 ^ (Z.of_nat 2 - 1)) 10000) with 2000%Z.
  rewrite attempt_once_none by (apply Hf). reflexivity.
Qed.

Lemma executeTask_without_candidates_witness :
  snd (executeTask 5 task1
         {| breaker := breaker world1; orchestrator := orchestrator world1;
            router := AgentRegistry.registered [TaskRouter.agent3] |}) = 3005%Z.
Proof.
  rewrite (executeTask_without_candidates 5 task1
             {| breaker := breaker world1; orchestrator := orchestrator world1;
                router := AgentRegistry.registered [TaskRouter.agent3] |});
    [reflexivity|].
  intros a [<-|[]]. reflexivity.
Defined.

Lemma assignTask_ok now tid aid o t0 ag :
  TaskOrchestrator.tasks o !! tid = Some t0 ->
  AgentRegistry.get aid (TaskOrchestrator.agentRegistry o) = Some ag ->
  fst (TaskOrchestrator.assignTask now tid aid o) = Returned tt.
Proof.
  intros Ht Ha. unfold TaskOrchestrator.assignTask, TaskOrchestrator.bind.
  rewrite (getTask_known now tid o t0 Ht).
  unfold AgentRegistry.getAgent. rewrite Ha. reflexivity.
Qed.

Lemma attempt_once_assigns now task w d chosen t0 ag :
  TaskRouter.findBestAgent now task (router w) = Some d ->
  (if ResilientOrchestrator.isCircuitOpen (TaskRouter.agentId d) (breaker w)
   then TaskRouter.agentId <$>
          TaskRouter.findAlternativeAgent task (TaskRouter.agentId d) (router w)
   else Some (TaskRouter.agentId d)) = Some chosen ->
  TaskOrchestrator.tasks (orchestrator w) !! task_id task = Some t0 ->
  AgentRegistry.get chosen (TaskOrchestrator.agentRegistry (orchestrator w)) = Some ag ->
  attempt_once now task w =
  (inl {| s_taskId := task_id task; s_agentId := chosen |},
   {| breaker := breaker w;
      orchestrator := snd (TaskOrchestrator.assignTask now (task_id task) chosen
                             (orchestrator w));
      router := router w |}).
Proof.
  intros Hd Hc Ht Ha. unfold attempt_once. rewrite Hd.
  pose proof (assignTask_ok now (task_id task) chosen (orchestrator w) t0 ag Ht Ha) as Hok.
  destruct (ResilientOrchestrator.isCircuitOpen _ _).
  - destruct (TaskRouter.findAlternativeAgent _ _ _) as [alt|]; [|discriminate].
    injection Hc as <-.
    destruct (TaskOrchestrator.assignTask _ _ _ _) as [[u|e] o']; simpl in *;
      [reflexivity | discriminate].
  - injection Hc as <-.
    destruct (TaskOrchestrator.assignTask _ _ _ _) as [[u|e] o']; simpl in *;
      [reflexivity | discriminate].
Qed.

(** X29: the breaker is consulted for the best agent only.  When the
    task and the chosen agent are known to the task orchestrator,
    executeTask succeeds at its first attempt, without sleeping: it
    assigns the task to the best agent if that agent's breaker is not
    open, and otherwise to the agent findAlternativeAgent returns,
    whatever the state of that agent's own breaker. *)
Theorem executeTask_assigns_first_attempt (now : Z) (task : Task) (w : t)
    (d : TaskRouter.RoutingDecision) (t0 : Task) (ag : AgentMetadata) :
  TaskRouter.findBestAgent now task (router w) = Some d ->
  TaskOrchestrator.tasks (orchestrator w) !! task_id task = Some t0 ->
  (ResilientOrchestrator.isCircuitOpen (TaskRouter.agentId d) (breaker w) = false ->
   AgentRegistry.get (TaskRouter.agentId d)
     (TaskOrchestrator.agentRegistry (orchestrator w)) = Some ag ->
   executeTask now task w =
   (inl {| s_taskId := task_id task; s_agentId := TaskRouter.agentId d |},
    {| breaker := breaker w;
       orchestrator := snd (TaskOrchestrator.assignTask now (task_id task)
                              (TaskRouter.agentId d) (orchestrator w));
       router := router w |},
    now))
  /\ (forall alt,
        ResilientOrchestrator.isCircuitOpen (TaskRouter.agentId d) (breaker w) = true ->
        TaskRouter.findAlternativeAgent task (TaskRouter.agentId d) (router w) = Some alt ->
        AgentRegistry.get (TaskRouter.agentId alt)
          (TaskOrchestrator.agentRegistry (orchestrator w)) = Some ag ->
        executeTask now task w =
        (inl {| s_taskId := task_id task; s_agentId := TaskRouter.agentId alt |},
         {| breaker := breaker w;
            orchestrator := snd (TaskOrchestrator.assignTask now (task_id task)
                                   (TaskRouter.agentId alt) (orchestrator w));
            router := router w |},
         now)).
Proof.
  intros Hd Ht. split.
  - intros Hopen Ha. unfold executeTask, maxAttempts. cbn [attempts].
    rewrite (attempt_once_assigns now task w d (TaskRouter.agentId d) t0 ag Hd);
      [reflexivity | rewrite Hopen; reflexivity | exact Ht | exact Ha].
  - intros alt Hopen Halt Ha. unfold executeTask, maxAttempts. cbn [attempts].
    rewrite (attempt_once_assigns now task w d (TaskRouter.agentId alt) t0 ag Hd);
      [reflexivity | rewrite Hopen, Halt; reflexivity | exact Ht | exact Ha].
Qed.

End ResilientExecutionProps.

Section ResilientExecutionRecovery.

Import ResilientExecution.

Lemma executeTask_assigns_first_attempt_witness :
  let w := {| breaker := ResilientOrchestrator.run
                           (ResilientOrchestrator.five_failures "agent-2" 1 1 1 1 1)
                           (breaker world1);
              orchestrator := orchestrator world1; router := router world1 |} in
  ResilientOrchestrator.isCircuitOpen "agent-2" (breaker w) = true
  /\ fst (fst (executeTask 5 task1 w))
     = inl {| s_taskId := "task_101_t1"; s_agentId := "agent-2" |}.
Proof.
  intros w. split; [reflexivity|].
  destruct (executeTask_assigns_first_attempt 5 task1 w
              {| TaskRouter.taskId := "task_101_t1"; TaskRouter.agentId := "agent-1";
                 TaskRouter.confidence := 1; TaskRouter.reason := "Score: 1.000" |}
              task1 TaskRouter.agent2 eq_refl eq_refl) as [_ H].
  rewrite (H {| TaskRouter.taskId := "task_101_t1"; TaskRouter.agentId := "agent-2";
                TaskRouter.confidence := 5 # 10; TaskRouter.reason := "Fallback agent" |}
             eq_refl eq_refl eq_refl).
  reflexivity.
Defined.

Lemma attempt_once_no_alternative now task w d :
  TaskRouter.findBestAgent now task (router w) = Some d ->
  ResilientOrchestrator.isCircuitOpen (TaskRouter.agentId d) (breaker w) = true ->
  TaskRouter.findAlternativeAgent task (TaskRouter.agentId d) (router w) = None ->
  attempt_once now task w = (inr (PlainError "No alternative agents available"), w).
Proof. intros Hd Ho Ha. unfold attempt_once. rewrite Hd, Ho, Ha. reflexivity. Qed.

Lemma isCircuitOpen_half_open id s :
  ResilientOrchestrator.breakerState id s = ResilientOrchestrator.half_open ->
  ResilientOrchestrator.isCircuitOpen id s = false.
Proof. unfold ResilientOrchestrator.isCircuitOpen. intros ->. reflexivity. Qed.

(** X30: a retry can succeed because the breaker moves while executeTask
    sleeps.  When the best agent's breaker is open, there is no
    alternative agent, and the breaker's reset callback for that agent
    falls due within the first back-off second, the first attempt fails,
    the callback runs during the sleep and makes the breaker half-open,
    and the second attempt, 1000 ms after the first, assigns the task to
    that same agent. *)
Theorem executeTask_retry_after_half_open (now : Z) (task : Task) (w : t)
    (d : TaskRouter.RoutingDecision) (tm : ResilientOrchestrator.Timer)
    (t0 : Task) (ag : AgentMetadata) :
  TaskRouter.findBestAgent now task (router w) = Some d ->
  ResilientOrchestrator.isCircuitOpen (TaskRouter.agentId d) (breaker w) = true ->
  TaskRouter.findAlternativeAgent task (TaskRouter.agentId d) (router w) = None ->
  In tm (ResilientOrchestrator.timers (breaker w)) ->
  ResilientOrchestrator.agent tm = TaskRouter.agentId d ->
  (ResilientOrchestrator.due tm <= now + 1000)%Z ->
  TaskOrchestrator.tasks (orchestrator w) !! task_id task = Some t0 ->
  AgentRegistry.get (TaskRouter.agentId d)
    (TaskOrchestrator.agentRegistry (orchestrator w)) = Some ag ->
  executeTask now task w =
  (inl {| s_taskId := task_id task; s_agentId := TaskRouter.agentId d |},
   {| breaker := ResilientOrchestrator.elapse (now + 1000) (breaker w);
      orchestrator := snd (TaskOrchestrator.assignTask (now + 1000) (task_id task)
                             (TaskRouter.agentId d) (orchestrator w));
      router := router w |},
   (now + 1000)%Z).
Proof.
  intros Hd Ho Halt Hin Hag Hdue Ht Ha.
  unfold executeTask, maxAttempts. cbn [attempts].
  rewrite (attempt_once_no_alternative now task w d Hd Ho Halt).
  cbn [Nat.ltb Nat.leb maxAttempts sleep].
  change (delay 1) with 1000%Z.
  assert (Hh : ResilientOrchestrator.isCircuitOpen (TaskRouter.agentId d)
                 (ResilientOrchestrator.elapse (now + 1000) (breaker w)) = false).
  { apply isCircuitOpen_half_open. rewrite breakerState_elapse.
    exact (fire_due_half_open _ _ _ _ tm Hin Hag Hdue). }
  rewrite (attempt_once_assigns (now + 1000) task _ d (TaskRouter.agentId d) t0 ag);
    [reflexivity | | | exact Ht | exact Ha].
  - cbn [router]. rewrite findBestAgent_any_time with (now := now). exact Hd.
  - cbn [breaker]. rewrite Hh. reflexivity.
Qed.

Lemma executeTask_retry_after_half_open_witness :
  let w := {| breaker := breaker world1; orchestrator := orchestrator world1;
              router := AgentRegistry.registered [TaskRouter.agent1] |} in
  fst (fst (executeTask 59500 task1 w))
    = inl {| s_taskId := "task_101_t1"; s_agentId := "agent-1" |}
  /\ snd (executeTask 59500 task1 w) = 60500%Z.
Proof.
  intros w.
  rewrite (executeTask_retry_after_half_open 59500 task1 w
             {| TaskRouter.taskId := "task_101_t1"; TaskRouter.agentId := "agent-1";
                TaskRouter.confidence := 1; TaskRouter.reason := "Score: 1.000" |}
             {| ResilientOrchestrator.due := 60000; ResilientOrchestrator.agent := "agent-1" |}
             task1 TaskRouter.agent1 eq_refl eq_refl eq_refl
             ltac:(left; reflexivity) eq_refl ltac:(by_evaluation) eq_refl eq_refl).
  split; reflexivity.
Defined.

End ResilientExecutionRecovery.
